(** * Reactive state-to-document synchronisation engine

    A shallow embedding of the three core classes of the framework:

    - [ReactiveProxy]  (the change registry, proxy layer),
    - [ReactiveUpdate] (the update scheduler, [reactive-dom/update.ts]),
    - [ReactiveDOM]    (the document observation layer, [reactive-dom/dom.ts]).

    JavaScript objects are modelled by explicit state passing.  A JS [Map]
    or [Set] iterates in insertion order, so both are association lists
    here ([JsMap], [JsSet]).  Code that can throw runs in a small
    state-and-exception monad; host functions (event listeners, update
    handlers, observer callbacks registered by the application) are opaque
    and only leave an entry in the trace of effects. *)

From stdpp Require Import base option list strings pretty gmap.
From Stdlib Require Import ZArith Lia Permutation Sorted Ascii.

Local Open Scope Z_scope.
Local Open Scope list_scope.

(** ** Shared vocabulary *)

(** A document node ([HTMLElement]) is known by its identity only. *)
Definition node := nat.

(** JavaScript exceptions that matter to the engine. *)
Inductive exn :=
| TypeError (msg : string)
| RangeError (msg : string)
| Thrown (payload : string)
| Unmodelled (what : string).

(** ** List facts used throughout *)

Section ListFacts.
Context {A : Type} (P : A → Prop) `{∀ x, Decision (P x)}.

Lemma filter_all (l : list A) : Forall P l → filter P l = l.
Proof.
  induction 1 as [|x l Hx _ IH]; [done|].
  by rewrite filter_cons_True, IH.
Qed.

Lemma filter_none (l : list A) : Forall (λ x, ¬ P x) l → filter P l = [].
Proof.
  induction 1 as [|x l Hx _ IH]; [done|].
  by rewrite filter_cons_False.
Qed.
End ListFacts.

(** ** Insertion-ordered [Map] and [Set] *)

Module JsMap.
Section JsMap.
Context {K V : Type} `{EqDecision K}.

Fixpoint get (k : K) (m : list (K * V)) : option V :=
  match m with
  | [] => None
  | (k', v) :: m' => if decide (k' = k) then Some v else get k m'
  end.

Definition has (k : K) (m : list (K * V)) : bool :=
  match get k m with Some _ => true | None => false end.

(** [Map.prototype.set]: an existing key keeps its position. *)
Fixpoint set (k : K) (v : V) (m : list (K * V)) : list (K * V) :=
  match m with
  | [] => [(k, v)]
  | (k', v') :: m' =>
      if decide (k' = k) then (k, v) :: m' else (k', v') :: set k v m'
  end.

Fixpoint delete (k : K) (m : list (K * V)) : list (K * V) :=
  match m with
  | [] => []
  | (k', v') :: m' =>
      if decide (k' = k) then delete k m' else (k', v') :: delete k m'
  end.

Definition keys (m : list (K * V)) : list K := m.*1.
Definition values (m : list (K * V)) : list V := m.*2.

Lemma get_set_eq k v m : get k (set k v m) = Some v.
Proof.
  induction m as [|[k' v'] m IH]; simpl.
  - by rewrite decide_True.
  - destruct (decide (k' = k)); simpl.
    + by rewrite decide_True.
    + by rewrite decide_False.
Qed.

Lemma get_set_ne k k' v m : k ≠ k' → get k' (set k v m) = get k' m.
Proof.
  intros Hne. induction m as [|[k0 v0] m IH]; simpl.
  - by rewrite decide_False.
  - destruct (decide (k0 = k)) as [->|]; simpl.
    + by rewrite !decide_False.
    + destruct (decide (k0 = k')); [done | apply IH].
Qed.

Lemma keys_set k v m :
  keys (set k v m) = if has k m then keys m else keys m ++ [k].
Proof.
  unfold has, keys. induction m as [|[k' v'] m IH]; csimpl; [done|].
  destruct (decide (k' = k)) as [->|]; csimpl; [done|].
  rewrite IH. by destruct (get k m).
Qed.

Lemma has_elem_of k m : has k m = true ↔ k ∈ keys m.
Proof.
  unfold has, keys. induction m as [|[k' v'] m IH]; csimpl.
  - split; [done | by intros ?%elem_of_nil].
  - destruct (decide (k' = k)) as [->|]; csimpl.
    + split; [intros _; apply list_elem_of_here | done].
    + rewrite IH. split; [apply list_elem_of_further |].
      intros [?|?]%elem_of_cons; [congruence | done].
Qed.

Lemma get_None k m : get k m = None ↔ k ∉ keys m.
Proof.
  rewrite <- has_elem_of. unfold has. by destruct (get k m).
Qed.

Lemma NoDup_keys_set k v m : NoDup (keys m) → NoDup (keys (set k v m)).
Proof.
  intros Hnd. rewrite keys_set. destruct (has k m) eqn:E; [done|].
  apply NoDup_app. split_and!; [done | | apply NoDup_singleton].
  intros x Hx ->%list_elem_of_singleton.
  apply has_elem_of in Hx. congruence.
Qed.

Lemma get_delete_eq k m : get k (delete k m) = None.
Proof.
  induction m as [|[k' v'] m IH]; simpl; [done|].
  destruct (decide (k' = k)); simpl; [done|]. by rewrite decide_False.
Qed.

Lemma get_delete_ne k k' m : k ≠ k' → get k' (delete k m) = get k' m.
Proof.
  intros Hne. induction m as [|[k0 v0] m IH]; simpl; [done|].
  destruct (decide (k0 = k)) as [->|]; simpl.
  - by rewrite decide_False.
  - by rewrite IH.
Qed.

Lemma keys_delete k m : keys (delete k m) = filter (λ x, x ≠ k) (keys m).
Proof.
  unfold keys. induction m as [|[k' v'] m IH]; csimpl; [done|].
  destruct (decide (k' = k)) as [->|].
  - rewrite filter_cons_False; [done | by intros ?].
  - rewrite filter_cons_True; [| done]. csimpl. by rewrite IH.
Qed.

Lemma get_app k m1 m2 :
  get k (m1 ++ m2) = match get k m1 with Some v => Some v | None => get k m2 end.
Proof.
  induction m1 as [|[k' v'] m1 IH]; simpl; [done|].
  by destruct (decide (k' = k)).
Qed.

Lemma get_Some_elem_of k v m : get k m = Some v → (k, v) ∈ m.
Proof.
  induction m as [|[k' v'] m IH]; simpl; [done|].
  destruct (decide (k' = k)) as [->|].
  - intros [= ->]. apply list_elem_of_here.
  - intros Hg. by apply list_elem_of_further, IH.
Qed.

Lemma set_fresh k v m : k ∉ keys m → set k v m = m ++ [(k, v)].
Proof.
  unfold keys. induction m as [|[k' v'] m IH]; csimpl; [done|].
  intros [Hne Hk]%not_elem_of_cons.
  rewrite decide_False by done. by rewrite IH.
Qed.

Lemma elem_of_map_delete kv k m : kv ∈ delete k m ↔ kv ∈ m ∧ kv.1 ≠ k.
Proof.
  induction m as [|[k' v'] m IH]; simpl.
  - split; [by intros ?%elem_of_nil | by intros [?%elem_of_nil _]].
  - destruct (decide (k' = k)) as [->|Hne].
    + rewrite IH, elem_of_cons. split; [intros [? ?]; auto|].
      intros [[->|?] ?]; [done | auto].
    + rewrite !elem_of_cons, IH. split.
      * intros [->|[? ?]]; auto.
      * intros [[->|?] ?]; auto.
Qed.
End JsMap.
End JsMap.

Module JsSet.
Section JsSet.
Context {K : Type} `{EqDecision K}.

Definition has (k : K) (s : list K) : bool := bool_decide (k ∈ s).

(** [Set.prototype.add]: a member is not added twice. *)
Definition add (k : K) (s : list K) : list K :=
  if has k s then s else s ++ [k].

Definition delete (k : K) (s : list K) : list K := filter (λ x, x ≠ k) s.

Lemma elem_of_add k x s : x ∈ add k s ↔ x = k ∨ x ∈ s.
Proof.
  unfold add, has. case_bool_decide.
  - split; [by right | by intros [->|]].
  - rewrite elem_of_app, list_elem_of_singleton. tauto.
Qed.

Lemma NoDup_add k s : NoDup s → NoDup (add k s).
Proof.
  intros Hnd. unfold add, has. case_bool_decide; [done|].
  apply NoDup_app. split_and!; [done | | apply NoDup_singleton].
  by intros x Hx ->%list_elem_of_singleton.
Qed.

Lemma elem_of_delete k x s : x ∈ delete k s ↔ x ≠ k ∧ x ∈ s.
Proof. unfold delete. by rewrite list_elem_of_filter. Qed.

Lemma not_elem_of_delete k s : k ∉ delete k s.
Proof. rewrite elem_of_delete. by intros [? _]. Qed.
End JsSet.
End JsSet.

(** ** State and exceptions

    A computation reads and writes a state [S] and either returns or
    throws.  A JavaScript exception does not roll the state back. *)

Inductive res (A : Type) :=
| Ok (a : A)
| Throw (e : exn).
Arguments Ok {A} a.
Arguments Throw {A} e.

Definition M (S A : Type) : Type := S → res A * S.

Section Monad.
Context {S : Type}.

Definition ret {A} (a : A) : M S A := λ s, (Ok a, s).

Definition bind {A B} (m : M S A) (k : A → M S B) : M S B :=
  λ s, match m s with
       | (Ok a, s') => k a s'
       | (Throw e, s') => (Throw e, s')
       end.

Definition throw {A} (e : exn) : M S A := λ s, (Throw e, s).

(** [try { body } catch (e) { handler(e) }] *)
Definition try_catch {A} (body : M S A) (handler : exn → M S A) : M S A :=
  λ s, match body s with
       | (Ok a, s') => (Ok a, s')
       | (Throw e, s') => handler e s'
       end.

Definition modify (f : S → S) : M S unit := λ s, (Ok tt, f s).
Definition gets {A} (f : S → A) : M S A := λ s, (Ok (f s), s).

(** [array.forEach(f)] over an array that the callback does not resize. *)
Fixpoint forEach {A} (l : list A) (f : A → M S unit) : M S unit :=
  match l with
  | [] => ret tt
  | x :: l' => bind (f x) (λ _, forEach l' f)
  end.

(** Run a computation for its final state. *)
Definition exec {A} (m : M S A) (s : S) : S := (m s).2.
End Monad.

#[global] Instance M_ret {S} : MRet (M S) := λ A, ret.
#[global] Instance M_bind {S} : MBind (M S) := λ A B k m, bind m k.

(** ** Data model of the update scheduler ([update.ts]) *)

Inductive UpdatePriority := critical | high | normal | low.

#[global] Instance UpdatePriority_eq_dec : EqDecision UpdatePriority.
Proof. solve_decision. Defined.

(** An optional property of an object literal: not an own property, an own
    property holding [undefined], or an own property holding a value. *)
Inductive field (T : Type) :=
| Absent
| Undefined
| Value (v : T).
Arguments Absent {T}.
Arguments Undefined {T}.
Arguments Value {T} v.

(** [interface DOMChanges] *)
Record DOMChanges := {
  text : field (string + Z);
  html : field string;
  attributes : field (list (string * option string));
  styles : field (list (string * string));
  classes : field (list (string * bool));
  dataset : field (list (string * string)) }.

(** The empty object literal [{}]. *)
Definition no_changes : DOMChanges :=
  {| text := Absent; html := Absent; attributes := Absent;
     styles := Absent; classes := Absent; dataset := Absent |}.

(** [interface UpdateTask] *)
Record UpdateTask := {
  element : node;
  changes : DOMChanges;
  priority : UpdatePriority;
  timestamp : Z }.

(** An update handler is a host function, known by its identity. *)
Definition UpdateHandler := nat.

(** The [detail] payload of the custom events the engine dispatches. *)
Inductive detail :=
| DUpdated (c : DOMChanges)
| DAttribute (attributeName : string) (newValue oldValue : option string)
| DContent (newContent : string)
| DElement (el : node)
| DNone.

(** Options of [MutationObserver.observe]. *)
Record MutationObserverInit := {
  cfg_attributes : bool;
  cfg_attributeFilter : option (list string);
  cfg_characterData : bool;
  cfg_childList : bool;
  cfg_subtree : bool }.

(** What the engine does to its host, in program order. *)
Inductive effect :=
(* document writes *)
| WriteText (el : node) (t : string + Z)
| WriteHtml (el : node) (h : string)
| SetAttribute (el : node) (name value : string)
| RemoveAttribute (el : node) (name : string)
| SetStyle (el : node) (property value : string)
| ClassAdd (el : node) (className : string)
| ClassRemove (el : node) (className : string)
| SetDataset (el : node) (key value : string)
(* events and host functions *)
| DispatchEvent (el : node) (name : string) (d : detail)
| HandlerCall (h : UpdateHandler) (el : node) (c : DOMChanges)
| ConsoleError (context : string) (e : exn)
| ConsoleLog (el : node)
(* frame and microtask scheduling *)
| RequestFrame (id : nat)
| CancelFrame (id : nat)
| QueueMicrotask
(* observation handles *)
| Observe (handle : nat) (target : node) (cfg : MutationObserverInit)
| Disconnect (handle : nat).

Definition is_document_write (e : effect) : bool :=
  match e with
  | WriteText _ _ | WriteHtml _ _ | SetAttribute _ _ _ | RemoveAttribute _ _
  | SetStyle _ _ _ | ClassAdd _ _ | ClassRemove _ _ | SetDataset _ _ _ => true
  | _ => false
  end.

(** The scheduler flushes through [requestAnimationFrame] only. *)
Definition is_scheduler_request (e : effect) : bool :=
  match e with
  | RequestFrame _ | CancelFrame _ => true
  | _ => false
  end.

(** ** The update scheduler: [class ReactiveUpdate] *)

Module Update.

(** The five fields of the class, followed by the part of the host the
    class talks to: the frame callbacks that are still pending, the next
    frame id and the trace of effects. *)
Record ReactiveUpdate := {
  updateHandlers : list (string * list UpdateHandler);
  scheduledUpdates : list (node * UpdateTask);
  rafId : option nat;
  batchMode : bool;
  batchQueue : list UpdateTask;
  frames : list nat;
  nextFrame : nat;
  trace : list effect }.

(** [new ReactiveUpdate()] in a fresh host. *)
Definition init : ReactiveUpdate :=
  {| updateHandlers := []; scheduledUpdates := []; rafId := None;
     batchMode := false; batchQueue := [];
     frames := []; nextFrame := 1%nat; trace := [] |}.

Definition set_updateHandlers v (s : ReactiveUpdate) : ReactiveUpdate :=
  {| updateHandlers := v; scheduledUpdates := scheduledUpdates s;
     rafId := rafId s; batchMode := batchMode s; batchQueue := batchQueue s;
     frames := frames s; nextFrame := nextFrame s; trace := trace s |}.
Definition set_scheduledUpdates v (s : ReactiveUpdate) : ReactiveUpdate :=
  {| updateHandlers := updateHandlers s; scheduledUpdates := v;
     rafId := rafId s; batchMode := batchMode s; batchQueue := batchQueue s;
     frames := frames s; nextFrame := nextFrame s; trace := trace s |}.
Definition set_rafId v (s : ReactiveUpdate) : ReactiveUpdate :=
  {| updateHandlers := updateHandlers s; scheduledUpdates := scheduledUpdates s;
     rafId := v; batchMode := batchMode s; batchQueue := batchQueue s;
     frames := frames s; nextFrame := nextFrame s; trace := trace s |}.
Definition set_batchMode v (s : ReactiveUpdate) : ReactiveUpdate :=
  {| updateHandlers := updateHandlers s; scheduledUpdates := scheduledUpdates s;
     rafId := rafId s; batchMode := v; batchQueue := batchQueue s;
     frames := frames s; nextFrame := nextFrame s; trace := trace s |}.
Definition set_batchQueue v (s : ReactiveUpdate) : ReactiveUpdate :=
  {| updateHandlers := updateHandlers s; scheduledUpdates := scheduledUpdates s;
     rafId := rafId s; batchMode := batchMode s; batchQueue := v;
     frames := frames s; nextFrame := nextFrame s; trace := trace s |}.
Definition set_frames v (s : ReactiveUpdate) : ReactiveUpdate :=
  {| updateHandlers := updateHandlers s; scheduledUpdates := scheduledUpdates s;
     rafId := rafId s; batchMode := batchMode s; batchQueue := batchQueue s;
     frames := v; nextFrame := nextFrame s; trace := trace s |}.
Definition set_nextFrame v (s : ReactiveUpdate) : ReactiveUpdate :=
  {| updateHandlers := updateHandlers s; scheduledUpdates := scheduledUpdates s;
     rafId := rafId s; batchMode := batchMode s; batchQueue := batchQueue s;
     frames := frames s; nextFrame := v; trace := trace s |}.
Definition emit (es : list effect) (s : ReactiveUpdate) : ReactiveUpdate :=
  {| updateHandlers := updateHandlers s; scheduledUpdates := scheduledUpdates s;
     rafId := rafId s; batchMode := batchMode s; batchQueue := batchQueue s;
     frames := frames s; nextFrame := nextFrame s; trace := trace s ++ es |}.

(** *** Host functions *)

Definition cancelAnimationFrame (id : nat) (s : ReactiveUpdate) : ReactiveUpdate :=
  emit [CancelFrame id] (set_frames (filter (λ x, x ≠ id) (frames s)) s).

Definition requestAnimationFrame (s : ReactiveUpdate) : nat * ReactiveUpdate :=
  let id := nextFrame s in
  (id, emit [RequestFrame id]
         (set_nextFrame (S id) (set_frames (frames s ++ [id]) s))).

(** *** Methods that cannot throw *)

(** [registerHandler(elementSelector, handler)] *)
Definition registerHandler (elementSelector : string) (handler : UpdateHandler)
    (s : ReactiveUpdate) : ReactiveUpdate :=
  let hs := default [] (JsMap.get elementSelector (updateHandlers s)) in
  set_updateHandlers
    (JsMap.set elementSelector (hs ++ [handler]) (updateHandlers s)) s.

(** [requestUpdate()] *)
Definition requestUpdate (s : ReactiveUpdate) : ReactiveUpdate :=
  let s1 := match rafId s with
            | Some id => cancelAnimationFrame id s
            | None => s
            end in
  let '(id, s2) := requestAnimationFrame s1 in
  set_rafId (Some id) s2.

(** [scheduleUpdate(element, changes, priority)]; [now] is what
    [Date.now()] returns during the call. *)
Definition scheduleUpdate (now : Z) (el : node) (c : DOMChanges)
    (p : UpdatePriority) (s : ReactiveUpdate) : ReactiveUpdate :=
  let task := {| element := el; changes := c; priority := p; timestamp := now |} in
  if batchMode s then set_batchQueue (batchQueue s ++ [task]) s
  else requestUpdate (set_scheduledUpdates (JsMap.set el task (scheduledUpdates s)) s).

(** [startBatch()] *)
Definition startBatch (s : ReactiveUpdate) : ReactiveUpdate :=
  set_batchQueue [] (set_batchMode true s).

(** The object spread [{ ...existing, ...later }], field by field: an own
    property of [later] wins, whatever it holds. *)
Definition over {T} (later existing : field T) : field T :=
  match later with
  | Absent => existing
  | _ => later
  end.

Definition spread (existing later : DOMChanges) : DOMChanges :=
  {| text := over (text later) (text existing);
     html := over (html later) (html existing);
     attributes := over (attributes later) (attributes existing);
     styles := over (styles later) (styles existing);
     classes := over (classes later) (classes existing);
     dataset := over (dataset later) (dataset existing) |}.

(** The first loop of [endBatch]: group the queued changes by element. *)
Definition group_task (grouped : list (node * DOMChanges)) (task : UpdateTask)
    : list (node * DOMChanges) :=
  let grouped1 := if JsMap.has (element task) grouped then grouped
                  else JsMap.set (element task) no_changes grouped in
  let existing := default no_changes (JsMap.get (element task) grouped1) in
  JsMap.set (element task) (spread existing (changes task)) grouped1.

(** The second loop of [endBatch]: one pending task per group. *)
Definition schedule_group (now : Z) (sched : list (node * UpdateTask))
    (g : node * DOMChanges) : list (node * UpdateTask) :=
  JsMap.set g.1
    {| element := g.1; changes := g.2; priority := normal; timestamp := now |}
    sched.

(** [endBatch()] *)
Definition endBatch (now : Z) (s : ReactiveUpdate) : ReactiveUpdate :=
  let s1 := set_batchMode false s in
  let grouped := foldl group_task [] (batchQueue s1) in
  let s2 := set_scheduledUpdates
              (foldl (schedule_group now) (scheduledUpdates s1) grouped) s1 in
  requestUpdate (set_batchQueue [] s2).

(** [getScheduledUpdates()] *)
Definition getScheduledUpdates (s : ReactiveUpdate) : list UpdateTask :=
  JsMap.values (scheduledUpdates s).

(** [clearUpdates()] *)
Definition clearUpdates (s : ReactiveUpdate) : ReactiveUpdate :=
  let s1 := set_batchQueue [] (set_scheduledUpdates [] s) in
  match rafId s1 with
  | Some id => set_rafId None (cancelAnimationFrame id s1)
  | None => s1
  end.

(** [clearHandlers()] *)
Definition clearHandlers (s : ReactiveUpdate) : ReactiveUpdate :=
  set_updateHandlers [] s.

(** *** The comparator and the sort of [processUpdates] *)

Definition priorityOrder (p : UpdatePriority) : Z :=
  match p with
  | critical => 0
  | high => 1
  | normal => 2
  | low => 3
  end.

(** The arrow function given to [Array.prototype.sort]. *)
Definition compare_tasks (a b : UpdateTask) : Z :=
  let priorityDiff := priorityOrder (priority a) - priorityOrder (priority b) in
  if decide (priorityDiff ≠ 0) then priorityDiff
  else timestamp a - timestamp b.

(** [Array.prototype.sort] is stable: elements that compare equal keep
    their order.  Insertion from the right puts an element before the
    first element it does not come after. *)
Fixpoint sort_insert {A} (cmp : A → A → Z) (x : A) (l : list A) : list A :=
  match l with
  | [] => [x]
  | y :: l' => if decide (cmp x y ≤ 0) then x :: y :: l'
               else y :: sort_insert cmp x l'
  end.

Definition js_sort {A} (cmp : A → A → Z) (l : list A) : list A :=
  foldr (sort_insert cmp) [] l.

(** *** Methods that run host functions *)

Section Handlers.
(** [element.matches(selector)], for selectors that parse. *)
Variable matches : node → string → bool.
(** What a handler does when called: [None] when it returns, [Some e]
    when it throws [e]. *)
Variable handler_throws : UpdateHandler → node → DOMChanges → option exn.

Definition call_handler (h : UpdateHandler) (el : node) (c : DOMChanges)
    : M ReactiveUpdate unit :=
  modify (emit [HandlerCall h el c]);;
  match handler_throws h el c with
  | Some e => throw e
  | None => mret tt
  end.

(** [Object.entries(record).forEach(...)] of the default handler. *)
Definition attribute_writes (el : node) (kv : string * option string) : effect :=
  match kv.2 with
  | None => RemoveAttribute el kv.1
  | Some v => SetAttribute el kv.1 v
  end.

Definition class_writes (el : node) (kv : string * bool) : effect :=
  if kv.2 then ClassAdd el kv.1 else ClassRemove el kv.1.

Definition if_value {T} (f : field T) (k : T → list effect) : list effect :=
  match f with
  | Value v => k v
  | _ => []
  end.

(** The writes of [defaultUpdateHandler], in program order.  Both branches
    of the text case write the text of the element. *)
Definition default_writes (el : node) (c : DOMChanges) : list effect :=
  if_value (text c) (λ t, [WriteText el t])
  ++ if_value (html c) (λ h, [WriteHtml el h])
  ++ if_value (attributes c) (λ r, attribute_writes el <$> r)
  ++ if_value (styles c) (λ r, (λ kv, SetStyle el kv.1 kv.2) <$> r)
  ++ if_value (classes c) (λ r, class_writes el <$> r)
  ++ if_value (dataset c) (λ r, (λ kv, SetDataset el kv.1 kv.2) <$> r).

(** [defaultUpdateHandler(element, changes)] *)
Definition defaultUpdateHandler (el : node) (c : DOMChanges)
    : M ReactiveUpdate unit :=
  modify (emit (default_writes el c)).

(** The body of [handlers.forEach]; [applied] is [handlerApplied]. *)
Fixpoint run_handlers (selector : string) (hs : list UpdateHandler)
    (el : node) (c : DOMChanges) (applied : bool) : M ReactiveUpdate bool :=
  match hs with
  | [] => mret applied
  | h :: hs' =>
      applied' ← try_catch
                   (call_handler h el c;; mret true)
                   (λ e, modify (emit [ConsoleError selector e]);;
                         mret applied);
      run_handlers selector hs' el c applied'
  end.

(** The [for ... of this.updateHandlers.entries()] loop, with its [break]. *)
Fixpoint find_handlers (entries : list (string * list UpdateHandler))
    (el : node) (c : DOMChanges) : M ReactiveUpdate bool :=
  match entries with
  | [] => mret false
  | (selector, hs) :: rest =>
      if matches el selector then run_handlers selector hs el c false
      else find_handlers rest el c
  end.

(** [applyUpdate(element, changes)] *)
Definition applyUpdate (el : node) (c : DOMChanges) : M ReactiveUpdate unit :=
  entries ← gets updateHandlers;
  handlerApplied ← find_handlers entries el c;
  (if handlerApplied : bool then mret tt else defaultUpdateHandler el c);;
  modify (emit [DispatchEvent el "alphabet:updated" (DUpdated c)]).

(** [updateImmediate(element, changes)] *)
Definition updateImmediate (el : node) (c : DOMChanges) : M ReactiveUpdate unit :=
  applyUpdate el c.

(** [processUpdates()] *)
Definition processUpdates : M ReactiveUpdate unit :=
  pending ← gets scheduledUpdates;
  let tasks := js_sort compare_tasks (JsMap.values pending) in
  forEach tasks (λ task,
    applyUpdate (element task) (changes task);;
    modify (λ s, set_scheduledUpdates
                   (JsMap.delete (element task) (scheduledUpdates s)) s)).

(** The callback given to [requestAnimationFrame], run by the host when
    frame [id] is due and has not been cancelled. *)
Definition frame_callback (id : nat) : M ReactiveUpdate unit :=
  pendingFrames ← gets frames;
  if bool_decide (id ∈ pendingFrames) then
    modify (λ s, set_frames (filter (λ x, x ≠ id) (frames s)) s);;
    processUpdates;;
    modify (set_rafId None)
  else mret tt.
End Handlers.

(** *** Reading a trace *)

(** The tasks that were applied: [applyUpdate] ends by dispatching
    ["alphabet:updated"] with the change set it applied. *)
Definition applied_of (e : effect) : option (node * DOMChanges) :=
  match e with
  | DispatchEvent el name (DUpdated c) =>
      if decide (name = "alphabet:updated") then Some (el, c) else None
  | _ => None
  end.
Definition applied (tr : list effect) : list (node * DOMChanges) :=
  omap applied_of tr.

Definition handler_call_of (e : effect) : option (UpdateHandler * node * DOMChanges) :=
  match e with
  | HandlerCall h el c => Some (h, el, c)
  | _ => None
  end.
Definition handler_calls (tr : list effect) : list (UpdateHandler * node * DOMChanges) :=
  omap handler_call_of tr.

Definition console_error_of (e : effect) : option (string * exn) :=
  match e with
  | ConsoleError ctx err => Some (ctx, err)
  | _ => None
  end.
Definition console_errors (tr : list effect) : list (string * exn) :=
  omap console_error_of tr.

(** The handlers [applyUpdate] selects: those of the first entry whose
    selector the element matches. *)
Fixpoint selected_handlers (matches : node → string → bool)
    (entries : list (string * list UpdateHandler)) (el : node)
    : option (string * list UpdateHandler) :=
  match entries with
  | [] => None
  | (selector, hs) :: rest =>
      if matches el selector then Some (selector, hs)
      else selected_handlers matches rest el
  end.

(** A pending map as the methods of the class build it. *)
Definition wf_pending (m : list (node * UpdateTask)) : Prop :=
  NoDup (JsMap.keys m) ∧ Forall (λ kv, element kv.2 = kv.1) m.

(** The sort key of the comparator. *)
Definition sort_key (t : UpdateTask) : Z * Z :=
  (priorityOrder (priority t), timestamp t).

Definition key_le (a b : UpdateTask) : Prop :=
  priorityOrder (priority a) < priorityOrder (priority b)
  ∨ (priorityOrder (priority a) = priorityOrder (priority b)
     ∧ timestamp a ≤ timestamp b).

(** A call of [scheduleUpdate], as data. *)
Record call := {
  c_now : Z;
  c_element : node;
  c_changes : DOMChanges;
  c_priority : UpdatePriority }.

Definition schedule_call (s : ReactiveUpdate) (c : call) : ReactiveUpdate :=
  scheduleUpdate (c_now c) (c_element c) (c_changes c) (c_priority c) s.

Definition task_of_call (c : call) : UpdateTask :=
  {| element := c_element c; changes := c_changes c;
     priority := c_priority c; timestamp := c_now c |}.

(** All change sets the calls gave for [n], spread left to right. *)
Definition merged (n : node) (cs : list call) : DOMChanges :=
  foldl spread no_changes
    (c_changes <$> filter (λ c, c_element c = n) cs).

(** *** The sort is a stable sort *)

Section SortFacts.
Context {A : Type} (cmp : A → A → Z).

Lemma sort_insert_Permutation x l : sort_insert cmp x l ≡ₚ x :: l.
Proof.
  induction l as [|y l IH]; simpl; [done|].
  case_decide; [done|]. rewrite IH. apply perm_swap.
Qed.

Lemma js_sort_Permutation l : js_sort cmp l ≡ₚ l.
Proof.
  induction l as [|x l IH]; simpl; [done|].
  by rewrite sort_insert_Permutation, IH.
Qed.

Section Stable.
Context {K : Type} `{EqDecision K} (key : A → K).
Hypothesis cmp_key : ∀ x y, key x = key y → cmp x y ≤ 0.

Lemma filter_sort_insert k x l :
  filter (λ y, key y = k) (sort_insert cmp x l) = filter (λ y, key y = k) (x :: l).
Proof.
  induction l as [|y l IH]; simpl; [done|].
  case_decide as Hc; [done|].
  rewrite (filter_cons _ y), IH, !(filter_cons _ x), (filter_cons _ y).
  destruct (decide (key y = k)) as [Hy|]; [|done].
  destruct (decide (key x = k)) as [Hx|]; [|done].
  exfalso. apply Hc, cmp_key. congruence.
Qed.

Lemma js_sort_stable k l :
  filter (λ y, key y = k) (js_sort cmp l) = filter (λ y, key y = k) l.
Proof.
  induction l as [|x l IH]; simpl; [done|].
  by rewrite filter_sort_insert, !(filter_cons _ x), IH.
Qed.
End Stable.

Section Sorted.
Variable R : relation A.
Hypothesis cmp_R : ∀ x y, cmp x y ≤ 0 ↔ R x y.
Hypothesis R_trans : ∀ x y z, R x y → R y z → R x z.
Hypothesis R_total : ∀ x y, R x y ∨ R y x.

Lemma StronglySorted_sort_insert x l :
  StronglySorted R l → StronglySorted R (sort_insert cmp x l).
Proof.
  induction 1 as [|y l Hs IH Hall]; simpl.
  - by repeat constructor.
  - case_decide as Hc.
    + apply cmp_R in Hc. constructor; [by constructor|].
      constructor; [done|].
      eapply Forall_impl; [exact Hall|]. intros z Hz. by eapply R_trans.
    + constructor; [done|].
      rewrite sort_insert_Permutation. constructor; [|done].
      destruct (R_total x y) as [Hxy|]; [|done].
      by apply cmp_R in Hxy.
Qed.

Lemma js_sort_StronglySorted l : StronglySorted R (js_sort cmp l).
Proof.
  induction l as [|x l IH]; simpl; [constructor|].
  by apply StronglySorted_sort_insert.
Qed.
End Sorted.
End SortFacts.

Lemma compare_tasks_le a b : compare_tasks a b ≤ 0 ↔ key_le a b.
Proof. unfold compare_tasks, key_le. case_decide; lia. Qed.

Lemma key_le_trans a b c : key_le a b → key_le b c → key_le a c.
Proof. unfold key_le. lia. Qed.

Lemma key_le_total a b : key_le a b ∨ key_le b a.
Proof. unfold key_le. lia. Qed.

Lemma compare_tasks_key a b : sort_key a = sort_key b → compare_tasks a b ≤ 0.
Proof.
  unfold sort_key. intros [= Hp Ht]. apply compare_tasks_le.
  unfold key_le. lia.
Qed.

(** *** What [applyUpdate] and [processUpdates] leave in the trace *)

Lemma emit_nil s : emit [] s = s.
Proof. destruct s. unfold emit. simpl. by rewrite app_nil_r. Qed.

Lemma emit_emit es1 es2 s : emit es2 (emit es1 s) = emit (es1 ++ es2) s.
Proof. unfold emit. simpl. by rewrite app_assoc. Qed.

Lemma set_scheduledUpdates_emit m es s :
  set_scheduledUpdates m (emit es s) = emit es (set_scheduledUpdates m s).
Proof. done. Qed.

Lemma set_scheduledUpdates_twice m1 m2 s :
  set_scheduledUpdates m2 (set_scheduledUpdates m1 s) = set_scheduledUpdates m2 s.
Proof. done. Qed.

Lemma set_scheduledUpdates_id s : set_scheduledUpdates (scheduledUpdates s) s = s.
Proof. by destruct s. Qed.

Ltac munfold :=
  unfold mbind, mret, M_bind, M_ret, bind, ret, modify, gets, try_catch, throw;
  simpl.

Section HandlerFacts.
Variable matches : node → string → bool.
Variable handler_throws : UpdateHandler → node → DOMChanges → option exn.

(** One handler call, and the log entry when it throws. *)
Definition handler_trace (selector : string) (hs : list UpdateHandler)
    (el : node) (c : DOMChanges) : list effect :=
  h ← hs;
  HandlerCall h el c ::
    match handler_throws h el c with
    | Some e => [ConsoleError selector e]
    | None => []
    end.

Definition some_returned (hs : list UpdateHandler) (el : node) (c : DOMChanges) : bool :=
  existsb (λ h, bool_decide (handler_throws h el c = None)) hs.

Definition apply_trace (entries : list (string * list UpdateHandler))
    (el : node) (c : DOMChanges) : list effect :=
  match selected_handlers matches entries el with
  | Some (selector, hs) =>
      handler_trace selector hs el c
      ++ (if some_returned hs el c then [] else default_writes el c)
  | None => default_writes el c
  end ++ [DispatchEvent el "alphabet:updated" (DUpdated c)].

Lemma run_handlers_spec selector hs el c applied s :
  run_handlers handler_throws selector hs el c applied s
  = (Ok (applied || some_returned hs el c),
     emit (handler_trace selector hs el c) s).
Proof.
  revert applied s. induction hs as [|h hs IH]; intros applied s.
  - simpl. munfold. by rewrite orb_false_r, emit_nil.
  - simpl. unfold call_handler. munfold.
    destruct (handler_throws h el c) as [e|]; simpl;
      rewrite IH, !emit_emit; simpl.
    + done.
    + by rewrite orb_true_r.
Qed.

Lemma find_handlers_spec entries el c s :
  find_handlers matches handler_throws entries el c s
  = match selected_handlers matches entries el with
    | Some (selector, hs) =>
        (Ok (some_returned hs el c), emit (handler_trace selector hs el c) s)
    | None => (Ok false, s)
    end.
Proof.
  induction entries as [|[selector hs] rest IH]; simpl; [done|].
  destruct (matches el selector); [|done].
  by rewrite run_handlers_spec.
Qed.

Lemma applyUpdate_spec el c s :
  applyUpdate matches handler_throws el c s
  = (Ok tt, emit (apply_trace (updateHandlers s) el c) s).
Proof.
  unfold applyUpdate, apply_trace, defaultUpdateHandler. munfold.
  rewrite find_handlers_spec.
  destruct (selected_handlers matches (updateHandlers s) el) as [[selector hs]|].
  - destruct (some_returned hs el c); simpl;
      by rewrite !emit_emit, ?app_nil_r, ?app_assoc.
  - by rewrite emit_emit.
Qed.

(** The pending map and the trace after the [forEach] of [processUpdates]. *)
Definition delete_all (tasks : list UpdateTask) (m : list (node * UpdateTask))
    : list (node * UpdateTask) :=
  foldl (λ m t, JsMap.delete (element t) m) m tasks.

Definition flush_trace (entries : list (string * list UpdateHandler))
    (tasks : list UpdateTask) : list effect :=
  t ← tasks; apply_trace entries (element t) (changes t).

Lemma forEach_tasks_spec tasks s :
  forEach tasks (λ task,
    applyUpdate matches handler_throws (element task) (changes task);;
    modify (λ s, set_scheduledUpdates
                   (JsMap.delete (element task) (scheduledUpdates s)) s)) s
  = (Ok tt, set_scheduledUpdates (delete_all tasks (scheduledUpdates s))
              (emit (flush_trace (updateHandlers s) tasks) s)).
Proof.
  revert s. induction tasks as [|t tasks IH]; intros s; simpl.
  - unfold ret. by rewrite emit_nil, set_scheduledUpdates_id.
  - munfold. rewrite applyUpdate_spec. munfold. rewrite IH. simpl.
    unfold flush_trace. csimpl. by rewrite <- emit_emit.
Qed.

Lemma processUpdates_spec s :
  processUpdates matches handler_throws s
  = (Ok tt,
     let tasks := js_sort compare_tasks (JsMap.values (scheduledUpdates s)) in
     set_scheduledUpdates (delete_all tasks (scheduledUpdates s))
       (emit (flush_trace (updateHandlers s) tasks) s)).
Proof. unfold processUpdates. munfold. by rewrite forEach_tasks_spec. Qed.

Lemma applied_handler_trace selector hs el c :
  applied (handler_trace selector hs el c) = [].
Proof.
  unfold applied, handler_trace. induction hs as [|h hs IH]; csimpl; [done|].
  rewrite omap_app, IH. by destruct (handler_throws h el c).
Qed.

Lemma applied_default_writes el c : applied (default_writes el c) = [].
Proof.
  unfold applied, default_writes. rewrite !omap_app.
  assert (Hmap : ∀ {T} (f : T → effect) (l : list T),
             (∀ x, applied_of (f x) = None) → omap applied_of (f <$> l) = []).
  { intros T f l Hf. induction l; csimpl; [done|]. by rewrite Hf. }
  destruct (text c), (html c), (attributes c), (styles c), (classes c),
    (dataset c); simpl; rewrite ?Hmap; try done;
    intros [? []]; try done; unfold attribute_writes; simpl; done.
Qed.

Lemma applied_apply_trace entries el c :
  applied (apply_trace entries el c) = [(el, c)].
Proof.
  unfold apply_trace.
  assert (Hd : applied [DispatchEvent el "alphabet:updated" (DUpdated c)] = [(el, c)])
    by done.
  unfold applied in *. rewrite omap_app, Hd.
  destruct (selected_handlers matches entries el) as [[selector hs]|].
  - rewrite omap_app. fold (applied (handler_trace selector hs el c)).
    rewrite applied_handler_trace.
    destruct (some_returned hs el c); [done|].
    fold (applied (default_writes el c)). by rewrite applied_default_writes.
  - fold (applied (default_writes el c)). by rewrite applied_default_writes.
Qed.

Lemma applied_flush_trace entries tasks :
  applied (flush_trace entries tasks)
  = (λ t, (element t, changes t)) <$> tasks.
Proof.
  unfold flush_trace. induction tasks as [|t tasks IH]; csimpl; [done|].
  unfold applied in *. rewrite omap_app, IH.
  fold (applied (apply_trace entries (element t) (changes t))).
  by rewrite applied_apply_trace.
Qed.
End HandlerFacts.

(** *** The pending map *)

Lemma keys_delete_all tasks (m : list (node * UpdateTask)) :
  JsMap.keys (delete_all tasks m)
  = filter (λ k, k ∉ element <$> tasks) (JsMap.keys m).
Proof.
  revert m. induction tasks as [|t tasks IH]; intros m; simpl.
  - symmetry. apply filter_all, Forall_forall. intros k _. apply not_elem_of_nil.
  - rewrite IH, JsMap.keys_delete, list_filter_filter.
    apply list_filter_iff. intros k. rewrite not_elem_of_cons. tauto.
Qed.

Lemma wf_pending_elements (m : list (node * UpdateTask)) :
  wf_pending m → element <$> JsMap.values m = JsMap.keys m.
Proof.
  intros [_ Hel]. unfold JsMap.values, JsMap.keys.
  induction Hel as [|[k t] m Hk _ IH]; csimpl; [done|].
  simpl in Hk. by rewrite Hk, IH.
Qed.

Lemma delete_all_sorted (m : list (node * UpdateTask)) :
  wf_pending m →
  delete_all (js_sort compare_tasks (JsMap.values m)) m = [].
Proof.
  intros Hwf.
  assert (Hk : JsMap.keys
                 (delete_all (js_sort compare_tasks (JsMap.values m)) m) = []).
  { rewrite keys_delete_all. apply filter_none.
    rewrite Forall_forall. intros k Hk Hnot. apply Hnot.
    rewrite js_sort_Permutation, wf_pending_elements; done. }
  unfold JsMap.keys in Hk. by apply fmap_nil_inv in Hk.
Qed.

Lemma wf_pending_nil : wf_pending [].
Proof. split; [apply NoDup_nil_2 | constructor]. Qed.

Lemma wf_pending_set el t (m : list (node * UpdateTask)) :
  element t = el → wf_pending m → wf_pending (JsMap.set el t m).
Proof.
  intros Hel [Hnd Hall]. split; [by apply JsMap.NoDup_keys_set|].
  clear Hnd. induction Hall as [|[k t'] m Hk Hm IH]; simpl.
  - by repeat constructor.
  - destruct (decide (k = el)); by constructor.
Qed.

Lemma wf_pending_filter n t (m : list (node * UpdateTask)) :
  wf_pending m → JsMap.get n m = Some t →
  filter (λ t, element t = n) (JsMap.values m) = [t].
Proof.
  intros [Hnd Hall]. unfold JsMap.values, JsMap.keys in *.
  induction m as [|[k t'] m IH]; csimpl; [done|].
  apply NoDup_cons in Hnd as [Hnotin Hnd].
  apply Forall_cons in Hall as [Hk Hall]. simpl in Hk.
  destruct (decide (k = n)) as [->|Hne]; intros Hget.
  - injection Hget as ->. rewrite filter_cons_True by done. f_equal.
    apply filter_none. rewrite Forall_forall. intros t0 Ht0 Hn.
    apply Hnotin. rewrite <- Hn.
    apply list_elem_of_fmap in Ht0 as [[k0 t1] [-> Hin]].
    rewrite Forall_forall in Hall. rewrite (Hall _ Hin). simpl.
    apply list_elem_of_fmap. by exists (k0, t1).
  - rewrite filter_cons_False by congruence. by apply IH.
Qed.

(** *** Requesting a flush *)

Lemma requestUpdate_scheduledUpdates s :
  scheduledUpdates (requestUpdate s) = scheduledUpdates s.
Proof. unfold requestUpdate. by destruct (rafId s). Qed.

Lemma requestUpdate_batchMode s : batchMode (requestUpdate s) = batchMode s.
Proof. unfold requestUpdate. by destruct (rafId s). Qed.

Lemma requestUpdate_batchQueue s : batchQueue (requestUpdate s) = batchQueue s.
Proof. unfold requestUpdate. by destruct (rafId s). Qed.

Lemma requestUpdate_updateHandlers s :
  updateHandlers (requestUpdate s) = updateHandlers s.
Proof. unfold requestUpdate. by destruct (rafId s). Qed.

Lemma requestUpdate_rafId s : rafId (requestUpdate s) = Some (nextFrame s).
Proof. unfold requestUpdate. by destruct (rafId s). Qed.

Lemma requestUpdate_nextFrame s : nextFrame (requestUpdate s) = S (nextFrame s).
Proof. unfold requestUpdate. by destruct (rafId s). Qed.

Lemma requestUpdate_frames s : nextFrame s ∈ frames (requestUpdate s).
Proof.
  unfold requestUpdate. destruct (rafId s); simpl;
    rewrite elem_of_app, list_elem_of_singleton; by right.
Qed.

Lemma requestUpdate_trace s :
  trace (requestUpdate s)
  = trace s
    ++ match rafId s with Some old => [CancelFrame old] | None => [] end
    ++ [RequestFrame (nextFrame s)].
Proof.
  unfold requestUpdate. destruct (rafId s); simpl; [|done].
  by rewrite <- app_assoc.
Qed.

Lemma requestUpdate_applied s :
  applied (trace (requestUpdate s)) = applied (trace s).
Proof.
  rewrite requestUpdate_trace. unfold applied. rewrite !omap_app.
  destruct (rafId s); simpl; by rewrite app_nil_r.
Qed.

Lemma scheduleUpdate_unbatched now el c p s :
  batchMode s = false →
  let s' := scheduleUpdate now el c p s in
  batchMode s' = false
  ∧ scheduledUpdates s'
    = JsMap.set el {| element := el; changes := c; priority := p;
                      timestamp := now |} (scheduledUpdates s)
  ∧ rafId s' = Some (nextFrame s)
  ∧ nextFrame s' = S (nextFrame s)
  ∧ nextFrame s ∈ frames s'
  ∧ applied (trace s') = applied (trace s).
Proof.
  intros Hb s'. subst s'. unfold scheduleUpdate. rewrite Hb.
  rewrite requestUpdate_batchMode, requestUpdate_scheduledUpdates,
    requestUpdate_rafId, requestUpdate_nextFrame, requestUpdate_applied.
  split_and!; try done.
  apply (requestUpdate_frames (set_scheduledUpdates _ s)).
Qed.

Lemma frame_callback_applied matches handler_throws id (s : ReactiveUpdate) :
  id ∈ frames s →
  applied (trace (exec (frame_callback matches handler_throws id) s))
  = applied (trace s)
    ++ ((λ t, (element t, changes t))
          <$> js_sort compare_tasks (getScheduledUpdates s)).
Proof.
  intros Hin. unfold exec, frame_callback. munfold.
  rewrite bool_decide_eq_true_2 by done.
  rewrite processUpdates_spec. simpl.
  unfold applied. rewrite omap_app. f_equal. apply applied_flush_trace.
Qed.

(** *** Handler exceptions *)

Lemma omap_none {A B} (f : A → option B) (l : list A) :
  Forall (λ x, f x = None) l → omap f l = [].
Proof. induction 1 as [|x l Hx _ IH]; csimpl; [done|]. by rewrite Hx. Qed.

Lemma default_writes_are_writes el c :
  Forall (λ e, is_document_write e = true) (default_writes el c).
Proof.
  unfold default_writes. rewrite !Forall_app.
  destruct (text c), (html c), (attributes c), (styles c), (classes c),
    (dataset c); simpl; split_and!;
    try apply Forall_nil_2; try (by repeat constructor);
    apply Forall_fmap, Forall_true; intros [? []]; done.
Qed.

Section IsolationFacts.
Variable matches : node → string → bool.
Variable handler_throws : UpdateHandler → node → DOMChanges → option exn.

(** The handlers [applyUpdate] calls for an element. *)
Definition handlers_for (entries : list (string * list UpdateHandler))
    (el : node) : list UpdateHandler :=
  match selected_handlers matches entries el with
  | Some (_, hs) => hs
  | None => []
  end.

(** The errors [applyUpdate] logs for an element. *)
Definition errors_for (entries : list (string * list UpdateHandler))
    (el : node) (c : DOMChanges) : list (string * exn) :=
  match selected_handlers matches entries el with
  | Some (selector, hs) =>
      omap (λ h, e ← handler_throws h el c; Some (selector, e)) hs
  | None => []
  end.

Lemma handler_calls_apply_trace entries el c :
  handler_calls (apply_trace matches handler_throws entries el c)
  = (λ h, (h, el, c)) <$> handlers_for entries el.
Proof.
  unfold apply_trace, handlers_for, handler_calls.
  assert (Hd : omap handler_call_of (default_writes el c) = []).
  { apply omap_none. eapply Forall_impl; [apply default_writes_are_writes|].
    by intros []. }
  rewrite omap_app. simpl. rewrite app_nil_r.
  destruct (selected_handlers matches entries el) as [[selector hs]|]; [|done].
  rewrite omap_app.
  replace (omap handler_call_of
             (if some_returned handler_throws hs el c then []
              else default_writes el c)) with (@nil (UpdateHandler * node * DOMChanges))
    by (by destruct (some_returned handler_throws hs el c)).
  rewrite app_nil_r. unfold handler_trace.
  induction hs as [|h hs IH]; csimpl; [done|].
  rewrite omap_app, IH. by destruct (handler_throws h el c).
Qed.

Lemma console_errors_apply_trace entries el c :
  console_errors (apply_trace matches handler_throws entries el c)
  = errors_for entries el c.
Proof.
  unfold apply_trace, errors_for, console_errors.
  assert (Hd : omap console_error_of (default_writes el c) = []).
  { apply omap_none. eapply Forall_impl; [apply default_writes_are_writes|].
    by intros []. }
  rewrite omap_app. simpl. rewrite app_nil_r.
  destruct (selected_handlers matches entries el) as [[selector hs]|]; [|done].
  rewrite omap_app.
  replace (omap console_error_of
             (if some_returned handler_throws hs el c then []
              else default_writes el c)) with (@nil (string * exn))
    by (by destruct (some_returned handler_throws hs el c)).
  rewrite app_nil_r. unfold handler_trace.
  induction hs as [|h hs IH]; csimpl; [done|].
  rewrite omap_app, IH. by destruct (handler_throws h el c).
Qed.
End IsolationFacts.



(** *** Batches *)

Lemma set_batchQueue_twice q1 q2 s :
  set_batchQueue q2 (set_batchQueue q1 s) = set_batchQueue q2 s.
Proof. done. Qed.

Lemma set_batchQueue_id s : set_batchQueue (batchQueue s) s = s.
Proof. by destruct s. Qed.

Lemma schedule_calls_batched cs s :
  batchMode s = true →
  foldl schedule_call s cs
  = set_batchQueue (batchQueue s ++ (task_of_call <$> cs)) s.
Proof.
  revert s. induction cs as [|c cs IH]; intros s Hb; csimpl.
  - by rewrite app_nil_r, set_batchQueue_id.
  - unfold schedule_call at 2. unfold scheduleUpdate. rewrite Hb.
    rewrite IH by done. simpl. by rewrite <- app_assoc.
Qed.

Lemma get_group_task n g t :
  JsMap.get n (group_task g t)
  = if decide (element t = n)
    then Some (spread (default no_changes (JsMap.get n g)) (changes t))
    else JsMap.get n g.
Proof.
  unfold group_task, JsMap.has.
  destruct (decide (element t = n)) as [<-|Hne].
  - rewrite JsMap.get_set_eq.
    destruct (JsMap.get (element t) g) eqn:E; [by rewrite E|].
    by rewrite JsMap.get_set_eq.
  - rewrite JsMap.get_set_ne by done.
    destruct (JsMap.get (element t) g); [done|].
    by rewrite JsMap.get_set_ne.
Qed.

Lemma NoDup_keys_group_task g t :
  NoDup (JsMap.keys g) → NoDup (JsMap.keys (group_task g t)).
Proof.
  intros Hnd. unfold group_task. apply JsMap.NoDup_keys_set.
  destruct (JsMap.has (element t) g); [done|]. by apply JsMap.NoDup_keys_set.
Qed.

Lemma NoDup_keys_grouped tasks g :
  NoDup (JsMap.keys g) → NoDup (JsMap.keys (foldl group_task g tasks)).
Proof.
  revert g. induction tasks as [|t tasks IH]; intros g Hnd; simpl; [done|].
  by apply IH, NoDup_keys_group_task.
Qed.

Lemma get_grouped n tasks g :
  JsMap.get n (foldl group_task g tasks)
  = match filter (λ t, element t = n) tasks with
    | [] => JsMap.get n g
    | l => Some (foldl spread (default no_changes (JsMap.get n g))
                   (changes <$> l))
    end.
Proof.
  revert g. induction tasks as [|t tasks IH]; intros g; simpl; [done|].
  rewrite IH, get_group_task, filter_cons.
  destruct (decide (element t = n)); [|done]. csimpl.
  by destruct (filter _ tasks).
Qed.

Lemma get_schedule_groups now n grouped (m : list (node * UpdateTask)) :
  NoDup (JsMap.keys grouped) →
  JsMap.get n (foldl (schedule_group now) m grouped)
  = match JsMap.get n grouped with
    | Some c => Some {| element := n; changes := c; priority := normal;
                        timestamp := now |}
    | None => JsMap.get n m
    end.
Proof.
  revert m. induction grouped as [|[k c] grouped IH]; intros m Hnd; [done|].
  unfold JsMap.keys in *. csimpl in *.
  apply NoDup_cons in Hnd as [Hk Hnd]. rewrite IH by done.
  unfold schedule_group. simpl.
  destruct (decide (k = n)) as [->|Hne].
  - apply JsMap.get_None in Hk. rewrite Hk. by rewrite JsMap.get_set_eq.
  - by rewrite JsMap.get_set_ne.
Qed.

Lemma wf_pending_schedule_groups now grouped (m : list (node * UpdateTask)) :
  wf_pending m → wf_pending (foldl (schedule_group now) m grouped).
Proof.
  revert m. induction grouped as [|[k c] grouped IH]; intros m Hwf; [done|].
  simpl. apply IH. by apply wf_pending_set.
Qed.

Lemma filter_fmap_fst_applied n (tasks : list UpdateTask) :
  filter (λ a : node * DOMChanges, a.1 = n)
    ((λ t, (element t, changes t)) <$> tasks)
  = (λ t, (element t, changes t)) <$> filter (λ t, element t = n) tasks.
Proof.
  induction tasks as [|t tasks IH]; csimpl; [done|].
  rewrite !filter_cons. simpl. rewrite IH. by destruct (decide (element t = n)).
Qed.

Lemma merged_tasks n cs :
  foldl spread no_changes
    (changes <$> filter (λ t, element t = n) (task_of_call <$> cs))
  = merged n cs.
Proof.
  unfold merged. f_equal.
  induction cs as [|c cs IH]; csimpl; [done|].
  rewrite !filter_cons. simpl.
  destruct (decide (c_element c = n)); csimpl; by rewrite IH.
Qed.

Lemma filter_tasks_nil n cs :
  filter (λ t, element t = n) (task_of_call <$> cs) = [] ↔ n ∉ c_element <$> cs.
Proof.
  induction cs as [|c cs IH]; csimpl.
  - split; [intros _; apply not_elem_of_nil | done].
  - rewrite filter_cons, not_elem_of_cons. simpl.
    destruct (decide (c_element c = n)) as [<-|Hne].
    + split; [done | by intros [? _]].
    + rewrite IH. split; [by split | by intros [_ ?]].
Qed.

(** The scenario of the specification: [{text: "a"}] then
    [{classes: {x: true}}]. *)
Definition only_text (t : string) : DOMChanges :=
  {| text := Value (inl t); html := Absent; attributes := Absent;
     styles := Absent; classes := Absent; dataset := Absent |}.

Definition only_classes (r : list (string * bool)) : DOMChanges :=
  {| text := Absent; html := Absent; attributes := Absent;
     styles := Absent; classes := Value r; dataset := Absent |}.


(** *** The theorems at concrete states *)

(** The two calls of the specification's scenario, for node 7. *)
Definition scenario_calls : list call :=
  [ {| c_now := 10; c_element := 7%nat; c_changes := only_text "a";
       c_priority := normal |};
    {| c_now := 11; c_element := 7%nat;
       c_changes := only_classes [("x", true)]; c_priority := normal |} ].



(** ** Further properties of the update scheduler *)

(** *** The default handler is the fallback *)

(** The document writes of a trace. *)
Definition document_writes (tr : list effect) : list effect :=
  filter (λ e, is_document_write e = true) tr.

Lemma document_writes_app tr1 tr2 :
  document_writes (tr1 ++ tr2) = document_writes tr1 ++ document_writes tr2.
Proof. apply filter_app. Qed.

Section FallbackFacts.
Variable matches : node → string → bool.
Variable handler_throws : UpdateHandler → node → DOMChanges → option exn.

Lemma document_writes_handler_trace selector hs el c :
  document_writes (handler_trace handler_throws selector hs el c) = [].
Proof.
  unfold document_writes, handler_trace.
  induction hs as [|h hs IH]; csimpl; [done|].
  rewrite filter_cons, filter_app, IH. simpl.
  by destruct (handler_throws h el c).
Qed.

Lemma document_writes_default_writes el c :
  document_writes (default_writes el c) = default_writes el c.
Proof. apply filter_all, default_writes_are_writes. Qed.

Lemma document_writes_apply_trace entries el c :
  document_writes (apply_trace matches handler_throws entries el c)
  = if some_returned handler_throws (handlers_for matches entries el) el c
    then [] else default_writes el c.
Proof.
  unfold apply_trace, handlers_for. rewrite document_writes_app.
  change (document_writes [DispatchEvent el "alphabet:updated" (DUpdated c)])
    with (@nil effect).
  rewrite app_nil_r.
  destruct (selected_handlers matches entries el) as [[selector hs]|].
  - rewrite document_writes_app, document_writes_handler_trace.
    destruct (some_returned handler_throws hs el c); [done|].
    apply document_writes_default_writes.
  - apply document_writes_default_writes.
Qed.
End FallbackFacts.


(** *** Registration order *)

Section SelectionFacts.
Variable matches : node → string → bool.

Lemma selected_handlers_matches entries el selector hs :
  selected_handlers matches entries el = Some (selector, hs) →
  matches el selector = true.
Proof.
  induction entries as [|[k v] rest IH]; simpl; [done|].
  destruct (matches el k) eqn:E; [|done]. by intros [= <- _].
Qed.

Lemma selected_handlers_get entries el selector hs :
  selected_handlers matches entries el = Some (selector, hs) →
  JsMap.get selector entries = Some hs.
Proof.
  induction entries as [|[k v] rest IH]; simpl; [done|].
  destruct (matches el k) eqn:E.
  - intros [= <- <-]. by rewrite decide_True.
  - intros Hsel. destruct (decide (k = selector)) as [->|]; [|by apply IH].
    apply selected_handlers_matches in Hsel. congruence.
Qed.

Lemma selected_handlers_None entries el selector :
  selected_handlers matches entries el = None →
  matches el selector = true → JsMap.get selector entries = None.
Proof.
  induction entries as [|[k v] rest IH]; simpl; [done|].
  destruct (matches el k) eqn:E; [done|]. intros Hsel Hm.
  destruct (decide (k = selector)) as [->|]; [congruence | by apply IH].
Qed.

Lemma selected_handlers_set entries selector new el :
  selected_handlers matches (JsMap.set selector new entries) el
  = match selected_handlers matches entries el with
    | Some (sel0, hs) =>
        if decide (sel0 = selector) then Some (selector, new) else Some (sel0, hs)
    | None => if matches el selector then Some (selector, new) else None
    end.
Proof.
  induction entries as [|[k v] rest IH]; simpl; [done|].
  destruct (decide (k = selector)) as [->|Hne]; simpl.
  - destruct (matches el selector) eqn:E; [by rewrite decide_True|].
    destruct (selected_handlers matches rest el) as [[sel0 hs]|] eqn:Hsel; [|done].
    rewrite decide_False; [done|]. intros ->.
    apply selected_handlers_matches in Hsel. congruence.
  - destruct (matches el k); [by rewrite decide_False | done].
Qed.
End SelectionFacts.

(** X2.  Which handlers [applyUpdate] calls for an element after
    [registerHandler(selector, handler)]: the handlers it called before,
    followed by the new one when [selector] is the first registered
    selector the element matches.  A handler registered under a selector
    that comes after another matching selector is not called for the
    element. *)
Theorem registration_order_selects_handlers
    (matches : node → string → bool) (selector : string) (h : UpdateHandler)
    (el : node) (s : ReactiveUpdate) :
  handlers_for matches (updateHandlers (registerHandler selector h s)) el
  = match selected_handlers matches (updateHandlers s) el with
    | Some (sel0, hs) => if decide (sel0 = selector) then hs ++ [h] else hs
    | None => if matches el selector then [h] else []
    end.
Proof.
  unfold handlers_for, registerHandler. simpl.
  rewrite selected_handlers_set.
  destruct (selected_handlers matches (updateHandlers s) el) as [[sel0 hs]|] eqn:Hsel.
  - destruct (decide (sel0 = selector)) as [->|]; [|done].
    by rewrite (selected_handlers_get _ _ _ _ _ Hsel).
  - destruct (matches el selector) eqn:E; [|done].
    by rewrite (selected_handlers_None _ _ _ _ Hsel E).
Qed.


(** *** Scheduling outside a batch *)

Lemma wf_pending_get n t (m : list (node * UpdateTask)) :
  wf_pending m → JsMap.get n m = Some t → element t = n.
Proof.
  intros [_ Hall] Hget. apply JsMap.get_Some_elem_of in Hget.
  rewrite Forall_forall in Hall. by apply (Hall (n, t)).
Qed.


(** *** Runs of the scheduler *)

(** What the caller and the host do with the scheduler: the public methods,
    and the host running the callback of frame [id]. *)
Inductive op :=
| RegisterHandler (elementSelector : string) (handler : UpdateHandler)
| ScheduleUpdate (now : Z) (el : node) (c : DOMChanges) (p : UpdatePriority)
| StartBatch
| EndBatch (now : Z)
| UpdateImmediate (el : node) (c : DOMChanges)
| ClearUpdates
| ClearHandlers
| Frame (id : nat).

(** The frame requests that are live when [rafId] is all the class holds. *)
Definition live_frames (id : option nat) : list nat :=
  match id with
  | Some f => [f]
  | None => []
  end.

(** What the methods keep: the host holds the frame request [rafId] names
    and no other, the pending map holds one task per element, a pending
    task has a live frame request, and the batch queue is empty outside a
    batch. *)
Record steady (s : ReactiveUpdate) : Prop := {
  steady_frames : frames s = live_frames (rafId s);
  steady_pending : wf_pending (scheduledUpdates s);
  steady_flush : scheduledUpdates s ≠ [] → is_Some (rafId s);
  steady_queue : batchMode s = false → batchQueue s = [] }.

Lemma steady_init : steady init.
Proof. split; try done. apply wf_pending_nil. Qed.

Lemma requestUpdate_steady s :
  frames s = live_frames (rafId s) → wf_pending (scheduledUpdates s) →
  (batchMode s = false → batchQueue s = []) →
  steady (requestUpdate s).
Proof.
  intros Hf Hwf Hq. split.
  - rewrite requestUpdate_rafId. unfold requestUpdate.
    destruct (rafId s) as [old|]; simpl in *; rewrite Hf; simpl; [|done].
    by rewrite filter_cons_False, filter_nil by (by intros ?).
  - by rewrite requestUpdate_scheduledUpdates.
  - intros _. by rewrite requestUpdate_rafId.
  - by rewrite requestUpdate_batchMode, requestUpdate_batchQueue.
Qed.

Lemma scheduleUpdate_steady now el c p s :
  steady s → steady (scheduleUpdate now el c p s).
Proof.
  intros [Hf Hwf Hfl Hq]. unfold scheduleUpdate.
  destruct (batchMode s) eqn:Hb.
  - split; simpl; try done. by rewrite Hb.
  - apply requestUpdate_steady; simpl; [done | by apply wf_pending_set |].
    by rewrite Hb.
Qed.

Lemma endBatch_steady now s : steady s → steady (endBatch now s).
Proof.
  intros [Hf Hwf Hfl Hq]. unfold endBatch.
  apply requestUpdate_steady; simpl; [done | | done].
  by apply wf_pending_schedule_groups.
Qed.

Lemma clearUpdates_steady s : steady s → steady (clearUpdates s).
Proof.
  intros [Hf Hwf Hfl Hq]. unfold clearUpdates. simpl.
  destruct (rafId s) as [id|] eqn:Hr; simpl.
  - split; simpl; try done; [|apply wf_pending_nil].
    rewrite Hf. simpl. by rewrite filter_cons_False, filter_nil by (by intros ?).
  - split; simpl; try done; [by rewrite Hr | apply wf_pending_nil].
Qed.

Section Runs.
Variable matches : node → string → bool.
Variable handler_throws : UpdateHandler → node → DOMChanges → option exn.

Definition run_op (s : ReactiveUpdate) (o : op) : ReactiveUpdate :=
  match o with
  | RegisterHandler elementSelector handler =>
      registerHandler elementSelector handler s
  | ScheduleUpdate now el c p => scheduleUpdate now el c p s
  | StartBatch => startBatch s
  | EndBatch now => endBatch now s
  | UpdateImmediate el c => exec (updateImmediate matches handler_throws el c) s
  | ClearUpdates => clearUpdates s
  | ClearHandlers => clearHandlers s
  | Frame id => exec (frame_callback matches handler_throws id) s
  end.

Inductive reachable : ReactiveUpdate → Prop :=
| reachable_init : reachable init
| reachable_op s o : reachable s → reachable (run_op s o).

(** The callback of the live frame: it applies the pending tasks in sorted
    order, empties the pending map and clears [rafId]. *)
Lemma frame_callback_live id s :
  steady s → rafId s = Some id →
  frame_callback matches handler_throws id s
  = (Ok tt,
     set_rafId None
       (set_scheduledUpdates []
          (emit (flush_trace matches handler_throws (updateHandlers s)
                   (js_sort compare_tasks (getScheduledUpdates s)))
             (set_frames [] s)))).
Proof.
  intros [Hf Hwf _ _] Hr. unfold frame_callback. munfold.
  rewrite Hf, Hr. simpl.
  rewrite bool_decide_eq_true_2 by apply list_elem_of_here.
  rewrite processUpdates_spec. simpl. rewrite Hf, Hr. simpl.
  rewrite filter_cons_False, filter_nil by (by intros ?).
  unfold getScheduledUpdates. by rewrite delete_all_sorted.
Qed.

(** The callback of any other frame does nothing. *)
Lemma frame_callback_stale id s :
  steady s → rafId s ≠ Some id →
  frame_callback matches handler_throws id s = (Ok tt, s).
Proof.
  intros [Hf _ _ _] Hr. unfold frame_callback. munfold.
  rewrite bool_decide_eq_false_2; [done|].
  rewrite Hf. destruct (rafId s) as [id'|]; simpl.
  - intros ->%list_elem_of_singleton. done.
  - apply not_elem_of_nil.
Qed.

Lemma frame_callback_steady id s :
  steady s → steady (exec (frame_callback matches handler_throws id) s).
Proof.
  intros Hs. unfold exec.
  destruct (decide (rafId s = Some id)) as [Hr|Hr].
  - rewrite frame_callback_live by done. simpl.
    destruct Hs as [_ _ _ Hq]. split; simpl; try done. apply wf_pending_nil.
  - by rewrite frame_callback_stale.
Qed.

Lemma run_op_steady s o : steady s → steady (run_op s o).
Proof.
  intros Hs. destruct o; simpl.
  - destruct Hs. by split.
  - by apply scheduleUpdate_steady.
  - destruct Hs. by split.
  - by apply endBatch_steady.
  - unfold exec, updateImmediate. rewrite applyUpdate_spec. simpl.
    destruct Hs. by split.
  - by apply clearUpdates_steady.
  - destruct Hs. by split.
  - by apply frame_callback_steady.
Qed.

Lemma reachable_steady s : reachable s → steady s.
Proof.
  induction 1 as [|s o _ IH]; [apply steady_init | by apply run_op_steady].
Qed.
End Runs.


Lemma reachable_run matches handler_throws s ops :
  reachable matches handler_throws s →
  reachable matches handler_throws (foldl (run_op matches handler_throws) s ops).
Proof.
  revert s. induction ops as [|o ops IH]; intros s Hs; simpl; [done|].
  apply IH. by constructor.
Qed.



(** X6.  [clearUpdates] drops every pending and every queued task and
    cancels the frame request: afterwards nothing is pending, the host
    holds no frame request of the scheduler, and the callback of no frame
    applies anything.  The handlers stay registered and an open batch
    stays open. *)
Theorem clearUpdates_cancels_the_flush
    (matches : node → string → bool)
    (handler_throws : UpdateHandler → node → DOMChanges → option exn)
    (s : ReactiveUpdate) :
  reachable matches handler_throws s →
  let s' := clearUpdates s in
  scheduledUpdates s' = [] ∧ batchQueue s' = []
  ∧ rafId s' = None ∧ frames s' = []
  ∧ updateHandlers s' = updateHandlers s ∧ batchMode s' = batchMode s
  ∧ applied (trace s') = applied (trace s)
  ∧ ∀ id, frame_callback matches handler_throws id s' = (Ok tt, s').
Proof.
  intros Hs%reachable_steady s'.
  pose proof (clearUpdates_steady s Hs) as Hs'. fold s' in Hs'.
  assert (Hr : rafId s' = None).
  { subst s'. unfold clearUpdates. simpl. by destruct (rafId s) eqn:E; simpl. }
  split_and!; try done.
  - subst s'. unfold clearUpdates. simpl. by destruct (rafId s).
  - subst s'. unfold clearUpdates. simpl. by destruct (rafId s).
  - by rewrite (steady_frames s' Hs'), Hr.
  - subst s'. unfold clearUpdates. simpl. by destruct (rafId s).
  - subst s'. unfold clearUpdates. simpl. by destruct (rafId s).
  - subst s'. unfold clearUpdates. simpl. destruct (rafId s); simpl; [|done].
    unfold applied. rewrite omap_app. simpl. by rewrite app_nil_r.
  - intros id. apply frame_callback_stale; [done|]. by rewrite Hr.
Qed.

Lemma apply_trace_requests_no_frame matches handler_throws entries el c :
  Forall (λ e, is_scheduler_request e = false)
    (apply_trace matches handler_throws entries el c).
Proof.
  unfold apply_trace. apply Forall_app. split; [|by repeat constructor].
  assert (Hd : Forall (λ e, is_scheduler_request e = false) (default_writes el c)).
  { eapply Forall_impl; [apply default_writes_are_writes|]. by intros []. }
  destruct (selected_handlers matches entries el) as [[selector hs]|]; [|done].
  apply Forall_app. split.
  - unfold handler_trace. induction hs as [|h hs IH]; csimpl; [constructor|].
    constructor; [done|]. apply Forall_app. split; [|done].
    destruct (handler_throws h el c); by repeat constructor.
  - destruct (some_returned handler_throws hs el c); [constructor | done].
Qed.


(** X8.  [endBatch] on an empty batch queue, which is also what [endBatch]
    without [startBatch] finds, changes no pending task, and still cancels
    the frame request there is and requests a new frame. *)
Theorem endBatch_of_an_empty_batch (now : Z) (s : ReactiveUpdate) :
  batchQueue s = [] →
  let s' := endBatch now s in
  scheduledUpdates s' = scheduledUpdates s
  ∧ batchMode s' = false ∧ batchQueue s' = []
  ∧ rafId s' = Some (nextFrame s)
  ∧ trace s'
    = trace s
      ++ match rafId s with Some old => [CancelFrame old] | None => [] end
      ++ [RequestFrame (nextFrame s)].
Proof.
  intros Hq s'. subst s'. unfold endBatch.
  rewrite requestUpdate_scheduledUpdates, requestUpdate_batchMode,
    requestUpdate_batchQueue, requestUpdate_rafId, requestUpdate_trace.
  simpl. by rewrite Hq.
Qed.

(** X9.  Batches do not nest: a [startBatch] while a batch is open throws
    away the tasks queued so far.  They are in no queue and in no pending
    task, so no later [endBatch] or flush applies them. *)
Theorem startBatch_discards_the_open_batch (s : ReactiveUpdate) (cs : list call) :
  let s1 := foldl schedule_call (startBatch s) cs in
  batchQueue s1 = task_of_call <$> cs
  ∧ startBatch s1 = startBatch s.
Proof.
  intros s1. subst s1. by rewrite schedule_calls_batched.
Qed.

(** *** The theorems at concrete states *)

Definition two_schedules : list op :=
  [ ScheduleUpdate 10 1%nat (only_text "a") normal;
    ScheduleUpdate 11 2%nat (only_text "b") critical ].

Definition after_two_schedules : ReactiveUpdate :=
  foldl (run_op (λ _ _, false) (λ _ _ _, None)) init two_schedules.

Lemma after_two_schedules_reachable :
  reachable (λ _ _, false) (λ _ _ _, None) after_two_schedules.
Proof. apply reachable_run. constructor. Qed.




Lemma clearUpdates_cancels_the_flush_witness :
  reachable (λ _ _, false) (λ _ _ _, None) after_two_schedules
  ∧ scheduledUpdates (clearUpdates after_two_schedules) = []
  ∧ frames (clearUpdates after_two_schedules) = [].
Proof.
  destruct (clearUpdates_cancels_the_flush _ _ _ after_two_schedules_reachable)
    as (H1 & _ & _ & H2 & _).
  split_and!; [exact after_two_schedules_reachable | exact H1 | exact H2].
Defined.

Lemma endBatch_of_an_empty_batch_witness :
  batchQueue init = [] ∧ rafId (endBatch 5 init) = Some 1%nat.
Proof.
  split; [reflexivity|].
  apply (endBatch_of_an_empty_batch 5 init eq_refl).
Defined.

End Update.

(** ** The document observation layer: [class ReactiveDOM] *)

Module Dom.

(** [interface ReactiveOptions] *)
Record ReactiveOptions := {
  observeAttributes : option (list string);
  observeSubtree : option bool;
  immediate : option bool }.

(** The default [options = {}]. *)
Definition no_options : ReactiveOptions :=
  {| observeAttributes := None; observeSubtree := None; immediate := None |}.

(** The four places that create a [MutationObserver]. *)
Inductive concern :=
| Attributes
| Content
| Children
| NewElements.

#[global] Instance concern_eq_dec : EqDecision concern.
Proof. solve_decision. Defined.

(** What the callback of a [MutationObserver] closes over. *)
Record observer := {
  o_concern : concern;
  o_owner : node;
  o_options : ReactiveOptions }.

Inductive mutation_type :=
| attributes_type
| characterData_type
| childList_type.

#[global] Instance mutation_type_eq_dec : EqDecision mutation_type.
Proof. solve_decision. Defined.

(** A [MutationRecord].  A node of a node list comes with
    [nodeType === Node.ELEMENT_NODE]; [m_textContent] is
    [mutation.target.textContent]. *)
Record MutationRecord := {
  m_type : mutation_type;
  m_target : node;
  m_attributeName : string;
  m_addedNodes : list (node * bool);
  m_removedNodes : list (node * bool);
  m_textContent : option string }.

(** What the layer reads from the document during one callback. *)
Record document := {
  getAttribute : node → string → option string;
  querySelectorAll : node → list node }.

(** The four fields of the class, followed by the host: the observers that
    are observing, by handle, the next handle, the microtasks that are
    pending and the trace of effects. *)
Record ReactiveDOM := {
  reactiveElements : list node;
  observers : list (node * list nat);
  updateQueue : list node;
  isUpdating : bool;
  connected : list (nat * observer);
  nextObserver : nat;
  microtasks : nat;
  trace : list effect }.

(** [new ReactiveDOM()] in a fresh host. *)
Definition init : ReactiveDOM :=
  {| reactiveElements := []; observers := []; updateQueue := [];
     isUpdating := false; connected := []; nextObserver := 0%nat;
     microtasks := 0%nat; trace := [] |}.

Definition set_reactiveElements v (s : ReactiveDOM) : ReactiveDOM :=
  {| reactiveElements := v; observers := observers s;
     updateQueue := updateQueue s; isUpdating := isUpdating s;
     connected := connected s; nextObserver := nextObserver s;
     microtasks := microtasks s; trace := trace s |}.
Definition set_observers v (s : ReactiveDOM) : ReactiveDOM :=
  {| reactiveElements := reactiveElements s; observers := v;
     updateQueue := updateQueue s; isUpdating := isUpdating s;
     connected := connected s; nextObserver := nextObserver s;
     microtasks := microtasks s; trace := trace s |}.
Definition set_updateQueue v (s : ReactiveDOM) : ReactiveDOM :=
  {| reactiveElements := reactiveElements s; observers := observers s;
     updateQueue := v; isUpdating := isUpdating s;
     connected := connected s; nextObserver := nextObserver s;
     microtasks := microtasks s; trace := trace s |}.
Definition set_isUpdating v (s : ReactiveDOM) : ReactiveDOM :=
  {| reactiveElements := reactiveElements s; observers := observers s;
     updateQueue := updateQueue s; isUpdating := v;
     connected := connected s; nextObserver := nextObserver s;
     microtasks := microtasks s; trace := trace s |}.
Definition set_connected v (s : ReactiveDOM) : ReactiveDOM :=
  {| reactiveElements := reactiveElements s; observers := observers s;
     updateQueue := updateQueue s; isUpdating := isUpdating s;
     connected := v; nextObserver := nextObserver s;
     microtasks := microtasks s; trace := trace s |}.
Definition set_nextObserver v (s : ReactiveDOM) : ReactiveDOM :=
  {| reactiveElements := reactiveElements s; observers := observers s;
     updateQueue := updateQueue s; isUpdating := isUpdating s;
     connected := connected s; nextObserver := v;
     microtasks := microtasks s; trace := trace s |}.
Definition set_microtasks v (s : ReactiveDOM) : ReactiveDOM :=
  {| reactiveElements := reactiveElements s; observers := observers s;
     updateQueue := updateQueue s; isUpdating := isUpdating s;
     connected := connected s; nextObserver := nextObserver s;
     microtasks := v; trace := trace s |}.
Definition emit (es : list effect) (s : ReactiveDOM) : ReactiveDOM :=
  {| reactiveElements := reactiveElements s; observers := observers s;
     updateQueue := updateQueue s; isUpdating := isUpdating s;
     connected := connected s; nextObserver := nextObserver s;
     microtasks := microtasks s; trace := trace s ++ es |}.

(** *** Observation handles *)

(** [addObserver(element, observer)] *)
Definition addObserver (el : node) (h : nat) (s : ReactiveDOM) : ReactiveDOM :=
  let hs := default [] (JsMap.get el (observers s)) in
  set_observers (JsMap.set el (hs ++ [h]) (observers s)) s.

(** [const observer = new MutationObserver(...); observer.observe(element,
    cfg); this.addObserver(element, observer)] *)
Definition observe_with (c : concern) (el : node) (options : ReactiveOptions)
    (cfg : MutationObserverInit) (s : ReactiveDOM) : ReactiveDOM :=
  let h := nextObserver s in
  let o := {| o_concern := c; o_owner := el; o_options := options |} in
  addObserver el h
    (emit [Observe h el cfg]
       (set_connected (JsMap.set h o (connected s))
          (set_nextObserver (S h) s))).

(** [observer.disconnect()] *)
Definition disconnect (s : ReactiveDOM) (h : nat) : ReactiveDOM :=
  emit [Disconnect h] (set_connected (JsMap.delete h (connected s)) s).

Definition observe_attributes (el : node) (options : ReactiveOptions)
    : ReactiveDOM → ReactiveDOM :=
  observe_with Attributes el options
    {| cfg_attributes := true;
       cfg_attributeFilter := observeAttributes options;
       cfg_characterData := false; cfg_childList := false;
       cfg_subtree := false |}.

Definition observeContent (el : node) (options : ReactiveOptions)
    : ReactiveDOM → ReactiveDOM :=
  observe_with Content el options
    {| cfg_attributes := false; cfg_attributeFilter := None;
       cfg_characterData := true; cfg_childList := true;
       cfg_subtree := true |}.

Definition observeChildren (el : node) (options : ReactiveOptions)
    : ReactiveDOM → ReactiveDOM :=
  observe_with Children el options
    {| cfg_attributes := false; cfg_attributeFilter := None;
       cfg_characterData := false; cfg_childList := true;
       cfg_subtree := default false (observeSubtree options) |}.

Definition observeNewElements (root : node) (options : ReactiveOptions)
    : ReactiveDOM → ReactiveDOM :=
  observe_with NewElements root options
    {| cfg_attributes := false; cfg_attributeFilter := None;
       cfg_characterData := false; cfg_childList := true;
       cfg_subtree := true |}.

(** *** Public methods *)

(** [makeReactive(element, options)] *)
Definition makeReactive (el : node) (options : ReactiveOptions)
    (s : ReactiveDOM) : ReactiveDOM :=
  if JsSet.has el (reactiveElements s) then s
  else
    let s1 := set_reactiveElements (JsSet.add el (reactiveElements s)) s in
    let s2 := observe_attributes el options s1 in
    let s3 := observeContent el options s2 in
    let s4 := observeChildren el options s3 in
    emit [ConsoleLog el] s4.

(** [makeReactiveSubtree(root, options)] *)
Definition makeReactiveSubtree (doc : document) (root : node)
    (options : ReactiveOptions) (s : ReactiveDOM) : ReactiveDOM :=
  let s1 := makeReactive root options s in
  let s2 := foldl (λ s el, makeReactive el options s) s1
              (querySelectorAll doc root) in
  observeNewElements root options s2.

(** [cleanupElement(element)] *)
Definition cleanupElement (el : node) (s : ReactiveDOM) : ReactiveDOM :=
  let s1 := match JsMap.get el (observers s) with
            | Some hs =>
                let s' := foldl disconnect s hs in
                set_observers (JsMap.delete el (observers s')) s'
            | None => s
            end in
  let s2 := set_reactiveElements (JsSet.delete el (reactiveElements s1)) s1 in
  set_updateQueue (JsSet.delete el (updateQueue s2)) s2.

(** [isReactive(element)] *)
Definition isReactive (el : node) (s : ReactiveDOM) : bool :=
  JsSet.has el (reactiveElements s).

(** [getReactiveElements()] *)
Definition getReactiveElements (s : ReactiveDOM) : list node :=
  reactiveElements s.

(** [destroy()] *)
Definition destroy (s : ReactiveDOM) : ReactiveDOM :=
  let s1 := foldl (λ s kv, foldl disconnect s kv.2) s (observers s) in
  set_updateQueue [] (set_reactiveElements [] (set_observers [] s1)).

(** *** The intent queue *)

(** [queueUpdate(element)] *)
Definition queueUpdate (el : node) (s : ReactiveDOM) : ReactiveDOM :=
  let s1 := set_updateQueue (JsSet.add el (updateQueue s)) s in
  if isUpdating s1 then s1
  else emit [QueueMicrotask]
         (set_microtasks (S (microtasks s1)) (set_isUpdating true s1)).

(** [performUpdate(element)] *)
Definition performUpdate (s : ReactiveDOM) (el : node) : ReactiveDOM :=
  emit [DispatchEvent el "alphabet:update" DNone] s.

(** [processUpdateQueue()] *)
Definition processUpdateQueue (s : ReactiveDOM) : ReactiveDOM :=
  let s1 := foldl performUpdate s (updateQueue s) in
  set_isUpdating false (set_updateQueue [] s1).

(** The host runs a pending microtask. *)
Definition drain (s : ReactiveDOM) : ReactiveDOM :=
  match microtasks s with
  | O => s
  | S k => processUpdateQueue (set_microtasks k s)
  end.

(** *** Reactions to mutations *)

(** [handleAttributeChange(element, attributeName, newValue)] *)
Definition handleAttributeChange (doc : document) (el : node)
    (attributeName : string) (newValue : option string)
    (s : ReactiveDOM) : ReactiveDOM :=
  emit [DispatchEvent el "alphabet:attribute-change"
          (DAttribute attributeName newValue (getAttribute doc el attributeName))]
    (queueUpdate el s).

(** [handleContentChange(element, newContent)] *)
Definition handleContentChange (el : node) (newContent : string)
    (s : ReactiveDOM) : ReactiveDOM :=
  emit [DispatchEvent el "alphabet:content-change" (DContent newContent)]
    (queueUpdate el s).

(** [handleElementAdded(parent, element)] *)
Definition handleElementAdded (parent el : node) (s : ReactiveDOM) : ReactiveDOM :=
  emit [DispatchEvent parent "alphabet:child-added" (DElement el)]
    (queueUpdate parent (makeReactive el no_options s)).

(** [handleElementRemoved(parent, element)] *)
Definition handleElementRemoved (parent el : node) (s : ReactiveDOM) : ReactiveDOM :=
  emit [DispatchEvent parent "alphabet:child-removed" (DElement el)]
    (queueUpdate parent (cleanupElement el s)).

(** [nodes.forEach(node => { if (node.nodeType === Node.ELEMENT_NODE) f(node) })] *)
Definition for_elements (f : node → ReactiveDOM → ReactiveDOM)
    (nodes : list (node * bool)) (s : ReactiveDOM) : ReactiveDOM :=
  foldl (λ s nb, if nb.2 : bool then f nb.1 s else s) s nodes.

(** The body of [mutations.forEach] in the callback of each concern. *)
Definition on_mutation (o : observer) (doc : document) (s : ReactiveDOM)
    (m : MutationRecord) : ReactiveDOM :=
  match o_concern o with
  | Attributes =>
      if decide (m_type m = attributes_type) then
        handleAttributeChange doc (o_owner o) (m_attributeName m)
          (getAttribute doc (o_owner o) (m_attributeName m)) s
      else s
  | Content =>
      if decide (m_type m = characterData_type) then
        handleContentChange (o_owner o)
          (match m_textContent m with
           | Some t => if decide (t = "") then "" else t
           | None => ""
           end) s
      else s
  | Children =>
      if decide (m_type m = childList_type) then
        for_elements (handleElementRemoved (o_owner o)) (m_removedNodes m)
          (for_elements (handleElementAdded (o_owner o)) (m_addedNodes m) s)
      else s
  | NewElements =>
      if decide (m_type m = childList_type) then
        for_elements (λ el, makeReactiveSubtree doc el (o_options o))
          (m_addedNodes m) s
      else s
  end.

(** The host delivers a batch of records to the observer with handle [h],
    if it is still observing. *)
Definition deliver (h : nat) (records : list MutationRecord) (doc : document)
    (s : ReactiveDOM) : ReactiveDOM :=
  match JsMap.get h (connected s) with
  | Some o => foldl (on_mutation o doc) s records
  | None => s
  end.

(** *** Runs of the layer *)

Inductive step :=
| MakeReactive (el : node) (options : ReactiveOptions)
| MakeReactiveSubtree (doc : document) (root : node) (options : ReactiveOptions)
| Deliver (h : nat) (records : list MutationRecord) (doc : document)
| Drain
| Destroy.

Definition run_step (s : ReactiveDOM) (st : step) : ReactiveDOM :=
  match st with
  | MakeReactive el options => makeReactive el options s
  | MakeReactiveSubtree doc root options => makeReactiveSubtree doc root options s
  | Deliver h records doc => deliver h records doc s
  | Drain => drain s
  | Destroy => destroy s
  end.

Definition run (s : ReactiveDOM) (sts : list step) : ReactiveDOM :=
  foldl run_step s sts.

Inductive reachable : ReactiveDOM → Prop :=
| reachable_init : reachable init
| reachable_step s st : reachable s → reachable (run_step s st).

(** *** Reading a state and a trace *)

(** The observers that are observing for element [e] and concern [c]. *)
Definition handles_of (s : ReactiveDOM) (e : node) (c : concern)
    : list (nat * observer) :=
  filter (λ ho, o_owner ho.2 = e ∧ o_concern ho.2 = c) (connected s).

(** What a run added to the trace. *)
Definition new_effects (s s' : ReactiveDOM) : list effect :=
  drop (length (trace s)) (trace s').

Definition dispatched_on (n : node) (e : effect) : bool :=
  match e with
  | DispatchEvent el _ _ => bool_decide (el = n)
  | _ => false
  end.

(** A step that makes [n] reactive, or may: it names [n], or a node whose
    subtree holds [n], as an element to make reactive or as an element
    that was added. *)
Definition adds (doc : document) (n : node) (nodes : list (node * bool)) : bool :=
  existsb (λ nb, nb.2 && (bool_decide (nb.1 = n)
                          || bool_decide (n ∈ querySelectorAll doc nb.1))) nodes.

Definition registers (n : node) (st : step) : bool :=
  match st with
  | MakeReactive el _ => bool_decide (el = n)
  | MakeReactiveSubtree doc root _ =>
      bool_decide (root = n) || bool_decide (n ∈ querySelectorAll doc root)
  | Deliver _ records doc => existsb (λ m, adds doc n (m_addedNodes m)) records
  | Drain | Destroy => false
  end.

(** The bookkeeping of handles: handles are fresh, an observing handle is
    listed under its owner, a listed handle that observes is owned by the
    element that lists it, and only reactive elements list handles. *)
Record base (s : ReactiveDOM) : Prop := {
  inv_fresh : ∀ h o, (h, o) ∈ connected s → (h < nextObserver s)%nat;
  inv_bound : ∀ e hs h,
    JsMap.get e (observers s) = Some hs → h ∈ hs → (h < nextObserver s)%nat;
  inv_listed : ∀ h o, (h, o) ∈ connected s →
    ∃ hs, JsMap.get (o_owner o) (observers s) = Some hs ∧ h ∈ hs;
  inv_owner : ∀ e hs h o,
    JsMap.get e (observers s) = Some hs → h ∈ hs → (h, o) ∈ connected s →
    o_owner o = e;
  inv_keys : ∀ e, e ∉ reactiveElements s → JsMap.get e (observers s) = None }.

(** One observing handle per reactive element and concern of [makeReactive]. *)
Definition one_each (s : ReactiveDOM) : Prop :=
  ∀ e c, e ∈ reactiveElements s → c ≠ NewElements →
         length (handles_of s e c) = 1%nat.

Definition inv (s : ReactiveDOM) : Prop := base s ∧ one_each s.

(** *** The invariant *)

Lemma base_ext s s' :
  connected s' = connected s → nextObserver s' = nextObserver s →
  observers s' = observers s → reactiveElements s' = reactiveElements s →
  base s → base s'.
Proof.
  intros Hc Hn Ho Hr [H1 H2 H3 H4 H5].
  split; rewrite ?Hc, ?Hn, ?Ho, ?Hr; done.
Qed.

Lemma inv_ext s s' :
  connected s' = connected s → nextObserver s' = nextObserver s →
  observers s' = observers s → reactiveElements s' = reactiveElements s →
  inv s → inv s'.
Proof.
  intros Hc Hn Ho Hr [Hb H1]. split; [by eapply base_ext|].
  unfold one_each, handles_of in *. by rewrite Hc, Hr.
Qed.

Lemma base_no_handles s e :
  base s → e ∉ reactiveElements s → ∀ h o, (h, o) ∈ connected s → o_owner o ≠ e.
Proof.
  intros Hb He h o Hin <-.
  destruct (inv_listed s Hb h o Hin) as (hs & Hget & _).
  by rewrite (inv_keys s Hb _ He) in Hget.
Qed.

Lemma handles_of_not_reactive s e c :
  base s → e ∉ reactiveElements s → handles_of s e c = [].
Proof.
  intros Hb He. unfold handles_of. apply filter_none, Forall_forall.
  intros [h o] Hin [Ho _]. by eapply base_no_handles.
Qed.

Lemma base_fresh_key s : base s → nextObserver s ∉ JsMap.keys (connected s).
Proof.
  intros Hb Hin. unfold JsMap.keys in Hin.
  apply list_elem_of_fmap in Hin as [[h o] [Hh Hin]]. simpl in Hh. subst h.
  apply (inv_fresh s Hb) in Hin. lia.
Qed.

Section ObserveWith.
Variables (c : concern) (el : node) (options : ReactiveOptions)
  (cfg : MutationObserverInit) (s : ReactiveDOM).
Hypothesis Hbase : base s.

Let h := nextObserver s.
Let o := {| o_concern := c; o_owner := el; o_options := options |}.
Let s' := observe_with c el options cfg s.

Lemma observe_with_connected : connected s' = connected s ++ [(h, o)].
Proof.
  subst s' h o. unfold observe_with. simpl.
  by rewrite JsMap.set_fresh by by apply base_fresh_key.
Qed.

Lemma observe_with_reactiveElements : reactiveElements s' = reactiveElements s.
Proof. done. Qed.

Lemma observe_with_handles_of e c' :
  handles_of s' e c'
  = handles_of s e c' ++ (if decide (el = e ∧ c = c') then [(h, o)] else []).
Proof.
  unfold handles_of. by rewrite observe_with_connected, filter_app.
Qed.

Lemma observe_with_observers e :
  JsMap.get e (observers s')
  = if decide (el = e)
    then Some (default [] (JsMap.get el (observers s)) ++ [h])
    else JsMap.get e (observers s).
Proof.
  subst s'. unfold observe_with, addObserver. simpl.
  destruct (decide (el = e)) as [<-|Hne].
  - by rewrite JsMap.get_set_eq.
  - by rewrite JsMap.get_set_ne.
Qed.

Lemma observe_with_base : el ∈ reactiveElements s → base s'.
Proof.
  intros Hel. destruct Hbase as [H1 H2 H3 H4 H5].
  assert (Hnext : nextObserver s' = S h) by done.
  split.
  - intros h' o'. rewrite observe_with_connected, Hnext, elem_of_app,
      list_elem_of_singleton.
    intros [Hin | [= -> ->]]; [apply H1 in Hin; subst h |]; lia.
  - intros e hs h'. rewrite observe_with_observers, Hnext.
    destruct (decide (el = e)) as [<-|Hne].
    + intros [= <-]. rewrite elem_of_app, list_elem_of_singleton.
      intros [Hin | ->]; [|lia].
      destruct (JsMap.get el (observers s)) as [hs|] eqn:E; simpl in Hin.
      * apply (H2 _ _ _ E) in Hin. subst h. lia.
      * by apply elem_of_nil in Hin.
    + intros Hg Hin. apply (H2 _ _ _ Hg) in Hin. subst h. lia.
  - intros h' o'. rewrite observe_with_connected, elem_of_app,
      list_elem_of_singleton.
    intros [Hin | [= -> ->]].
    + destruct (H3 _ _ Hin) as (hs & Hg & Hh).
      rewrite observe_with_observers.
      destruct (decide (el = o_owner o')) as [->|Hne].
      * rewrite Hg. simpl. eexists. split; [done|].
        apply elem_of_app. by left.
      * by exists hs.
    + rewrite observe_with_observers. simpl. rewrite decide_True by done.
      eexists. split; [done|]. apply elem_of_app. right.
      apply list_elem_of_singleton. done.
  - intros e hs h' o'. rewrite observe_with_observers, observe_with_connected,
      elem_of_app, list_elem_of_singleton.
    destruct (decide (el = e)) as [<-|Hne].
    + intros [= <-]. rewrite elem_of_app, list_elem_of_singleton.
      intros Hin [Hc | Heq]; [|by injection Heq as _ ->].
      destruct Hin as [Hin | ->].
      * destruct (JsMap.get el (observers s)) as [hs|] eqn:E; simpl in Hin.
        -- by eapply H4.
        -- by apply elem_of_nil in Hin.
      * apply H1 in Hc. subst h. lia.
    + intros Hg Hin [Hc | Heq]; [by eapply H4|].
      injection Heq as -> _.
      apply (H2 _ _ _ Hg) in Hin. subst h. lia.
  - intros e He. rewrite observe_with_observers.
    rewrite observe_with_reactiveElements in He.
    destruct (decide (el = e)) as [<-|Hne]; [done | by apply H5].
Qed.
End ObserveWith.

Lemma has_true {K} `{EqDecision K} (k : K) (l : list K) :
  JsSet.has k l = true ↔ k ∈ l.
Proof. unfold JsSet.has. apply bool_decide_eq_true. Qed.

Lemma has_false {K} `{EqDecision K} (k : K) (l : list K) :
  JsSet.has k l = false ↔ k ∉ l.
Proof. unfold JsSet.has. apply bool_decide_eq_false. Qed.

Lemma makeReactive_reactiveElements el options s e :
  e ∈ reactiveElements (makeReactive el options s)
  ↔ e = el ∨ e ∈ reactiveElements s.
Proof.
  unfold makeReactive. destruct (JsSet.has el (reactiveElements s)) eqn:E.
  - apply has_true in E. split; [auto | by intros [->|]].
  - simpl. apply JsSet.elem_of_add.
Qed.

Lemma makeReactive_already el options s :
  el ∈ reactiveElements s → makeReactive el options s = s.
Proof. intros Hel. unfold makeReactive. apply has_true in Hel. by rewrite Hel. Qed.

Lemma makeReactive_inv el options s : inv s → inv (makeReactive el options s).
Proof.
  intros [Hb H1]. unfold makeReactive.
  destruct (JsSet.has el (reactiveElements s)) eqn:E; [done|].
  apply has_false in E.
  set (s1 := set_reactiveElements (JsSet.add el (reactiveElements s)) s).
  assert (Hb1 : base s1).
  { destruct Hb as [F1 F2 F3 F4 F5]. split; try done.
    intros e He. apply F5. intros Hin. apply He. subst s1. simpl.
    apply JsSet.elem_of_add. by right. }
  assert (Hel1 : el ∈ reactiveElements s1).
  { subst s1. simpl. apply JsSet.elem_of_add. by left. }
  set (s2 := observe_attributes el options s1).
  assert (Hb2 : base s2) by by apply observe_with_base.
  set (s3 := observeContent el options s2).
  assert (Hb3 : base s3) by by apply observe_with_base.
  set (s4 := observeChildren el options s3).
  assert (Hb4 : base s4) by by apply observe_with_base.
  apply (inv_ext s4); try done. split; [done|].
  intros e c He Hc.
  subst s4. unfold observeChildren. rewrite observe_with_handles_of by done.
  subst s3. unfold observeContent. rewrite observe_with_handles_of by done.
  subst s2. unfold observe_attributes. rewrite observe_with_handles_of by done.
  replace (handles_of s1 e c) with (handles_of s e c) by done.
  rewrite !length_app.
  destruct (decide (e = el)) as [->|Hne].
  - rewrite handles_of_not_reactive by done.
    destruct c; try done; simpl;
      repeat (destruct (decide _) as [[? ?]|?]; try done; simpl);
      exfalso; auto.
  - assert (Hold : e ∈ reactiveElements s).
    { simpl in He. apply JsSet.elem_of_add in He as [?|?]; done. }
    rewrite (H1 e c Hold Hc).
    repeat (destruct (decide _) as [[? ?]|?]; [congruence|]). done.
Qed.

Lemma makeReactive_all_inv options els s :
  inv s → inv (foldl (λ s el, makeReactive el options s) s els).
Proof.
  revert s. induction els as [|el els IH]; intros s Hinv; simpl; [done|].
  by apply IH, makeReactive_inv.
Qed.

Lemma makeReactive_all_reactiveElements options els s e :
  e ∈ reactiveElements (foldl (λ s el, makeReactive el options s) s els)
  ↔ e ∈ els ∨ e ∈ reactiveElements s.
Proof.
  revert s. induction els as [|el els IH]; intros s; simpl.
  - split; [auto | by intros [?%elem_of_nil|]].
  - rewrite IH, makeReactive_reactiveElements, elem_of_cons. tauto.
Qed.

Lemma makeReactiveSubtree_reactiveElements doc root options s e :
  e ∈ reactiveElements (makeReactiveSubtree doc root options s)
  ↔ e = root ∨ e ∈ querySelectorAll doc root ∨ e ∈ reactiveElements s.
Proof.
  unfold makeReactiveSubtree, observeNewElements.
  rewrite observe_with_reactiveElements, makeReactive_all_reactiveElements,
    makeReactive_reactiveElements. tauto.
Qed.

Lemma makeReactiveSubtree_inv doc root options s :
  inv s → inv (makeReactiveSubtree doc root options s).
Proof.
  intros Hinv. unfold makeReactiveSubtree.
  set (s2 := foldl _ _ _).
  assert (Hinv2 : inv s2) by by apply makeReactive_all_inv, makeReactive_inv.
  assert (Hroot : root ∈ reactiveElements s2).
  { subst s2. apply makeReactive_all_reactiveElements. right.
    apply makeReactive_reactiveElements. by left. }
  destruct Hinv2 as [Hb2 H2]. split.
  - by apply observe_with_base.
  - intros e c He Hc. unfold observeNewElements.
    rewrite observe_with_handles_of by done.
    rewrite decide_False by (intros [_ ?]; congruence).
    rewrite app_nil_r. by apply H2.
Qed.

(** Disconnecting a list of handles. *)

Lemma disconnect_all_connected hs s ho :
  ho ∈ connected (foldl disconnect s hs) ↔ ho ∈ connected s ∧ ho.1 ∉ hs.
Proof.
  revert s. induction hs as [|h hs IH]; intros s; simpl.
  - split; [intros ?; split; [done | apply not_elem_of_nil] | by intros [? _]].
  - rewrite IH. simpl. rewrite JsMap.elem_of_map_delete, not_elem_of_cons.
    tauto.
Qed.

Lemma disconnect_all_frame hs s :
  nextObserver (foldl disconnect s hs) = nextObserver s
  ∧ observers (foldl disconnect s hs) = observers s
  ∧ reactiveElements (foldl disconnect s hs) = reactiveElements s
  ∧ updateQueue (foldl disconnect s hs) = updateQueue s
  ∧ isUpdating (foldl disconnect s hs) = isUpdating s
  ∧ microtasks (foldl disconnect s hs) = microtasks s
  ∧ trace (foldl disconnect s hs) = trace s ++ (Disconnect <$> hs).
Proof.
  revert s. induction hs as [|h hs IH]; intros s; csimpl.
  - by rewrite app_nil_r.
  - destruct (IH (disconnect s h)) as (-> & -> & -> & -> & -> & -> & ->).
    simpl. by rewrite <- app_assoc.
Qed.

Lemma cleanupElement_reactiveElements el s e :
  e ∈ reactiveElements (cleanupElement el s) ↔ e ≠ el ∧ e ∈ reactiveElements s.
Proof.
  unfold cleanupElement. simpl. rewrite JsSet.elem_of_delete.
  destruct (JsMap.get el (observers s)) as [hs|]; [|done]. simpl.
  by destruct (disconnect_all_frame hs s) as (_ & _ & -> & _).
Qed.

Lemma cleanupElement_updateQueue el s e :
  e ∈ updateQueue (cleanupElement el s) ↔ e ≠ el ∧ e ∈ updateQueue s.
Proof.
  unfold cleanupElement. simpl. rewrite JsSet.elem_of_delete.
  destruct (JsMap.get el (observers s)) as [hs|]; [|done]. simpl.
  by destruct (disconnect_all_frame hs s) as (_ & _ & _ & -> & _).
Qed.

Lemma cleanupElement_observers el s e :
  JsMap.get e (observers (cleanupElement el s))
  = if decide (el = e) then None else JsMap.get e (observers s).
Proof.
  unfold cleanupElement. simpl.
  destruct (JsMap.get el (observers s)) as [hs|] eqn:E; simpl.
  - destruct (disconnect_all_frame hs s) as (_ & -> & _).
    destruct (decide (el = e)) as [<-|Hne].
    + apply JsMap.get_delete_eq.
    + by apply JsMap.get_delete_ne.
  - destruct (decide (el = e)) as [<-|Hne]; done.
Qed.

Lemma cleanupElement_connected el s ho :
  ho ∈ connected (cleanupElement el s)
  ↔ ho ∈ connected s
    ∧ ho.1 ∉ default [] (JsMap.get el (observers s)).
Proof.
  unfold cleanupElement. simpl.
  destruct (JsMap.get el (observers s)) as [hs|]; simpl.
  - apply disconnect_all_connected.
  - split; [intros ?; split; [done | apply not_elem_of_nil] | by intros [? _]].
Qed.

Lemma cleanupElement_nextObserver el s :
  nextObserver (cleanupElement el s) = nextObserver s.
Proof.
  unfold cleanupElement. simpl.
  destruct (JsMap.get el (observers s)) as [hs|]; [|done]. simpl.
  by destruct (disconnect_all_frame hs s) as (-> & _).
Qed.

Lemma cleanupElement_base el s : base s → base (cleanupElement el s).
Proof.
  intros [F1 F2 F3 F4 F5]. split.
  - intros h o [Hin _]%cleanupElement_connected.
    rewrite cleanupElement_nextObserver. eauto.
  - intros e hs h. rewrite cleanupElement_observers, cleanupElement_nextObserver.
    destruct (decide (el = e)); [done | eauto].
  - intros h o [Hin Hnot]%cleanupElement_connected. simpl in Hnot.
    destruct (F3 _ _ Hin) as (hs & Hg & Hh).
    rewrite cleanupElement_observers.
    destruct (decide (el = o_owner o)) as [->|Hne]; [|eauto].
    rewrite Hg in Hnot. done.
  - intros e hs h o. rewrite cleanupElement_observers.
    destruct (decide (el = e)); [done|].
    intros Hg Hh [Hin _]%cleanupElement_connected. eauto.
  - intros e He. rewrite cleanupElement_observers.
    destruct (decide (el = e)) as [|Hne]; [done|].
    apply F5. intros Hin. apply He, cleanupElement_reactiveElements. auto.
Qed.

Lemma cleanupElement_handles_of el s e c :
  base s → e ≠ el →
  handles_of (cleanupElement el s) e c = handles_of s e c.
Proof.
  intros Hb Hne. unfold handles_of, cleanupElement. simpl.
  destruct (JsMap.get el (observers s)) as [hs|] eqn:E; [|done]. simpl.
  assert (Hgen : ∀ hs' s',
    connected s' ⊆ connected s → hs' ⊆ hs →
    filter (λ ho, o_owner ho.2 = e ∧ o_concern ho.2 = c)
      (connected (foldl disconnect s' hs'))
    = filter (λ ho, o_owner ho.2 = e ∧ o_concern ho.2 = c) (connected s')).
  { induction hs' as [|h hs' IH]; intros s' Hsub Hhs; simpl; [done|].
    rewrite IH.
    - simpl. generalize (connected s') Hsub. clear -Hb E Hhs Hne.
      intros m Hsub. induction m as [|[h' o'] m IHm]; simpl; [done|].
      assert (Hm : m ⊆ connected s).
      { intros x Hx. apply Hsub. by apply list_elem_of_further. }
      destruct (decide (h' = h)) as [->|Hh].
      + rewrite IHm by done. rewrite filter_cons_False; [done|].
        simpl. intros [Ho _]. apply Hne. rewrite <- Ho.
        eapply (inv_owner s Hb el hs h o'); [done | |].
        * apply Hhs, list_elem_of_here.
        * apply Hsub, list_elem_of_here.
      + rewrite !filter_cons. simpl. rewrite IHm by done. done.
    - simpl. intros x [Hx _]%JsMap.elem_of_map_delete. by apply Hsub.
    - intros x Hx. by apply Hhs, list_elem_of_further. }
  by apply Hgen.
Qed.

Lemma cleanupElement_inv el s : inv s → inv (cleanupElement el s).
Proof.
  intros [Hb H1]. split; [by apply cleanupElement_base|].
  intros e c [Hne He]%cleanupElement_reactiveElements Hc.
  rewrite cleanupElement_handles_of by done. by apply H1.
Qed.

Lemma queueUpdate_inv el s : inv s → inv (queueUpdate el s).
Proof.
  unfold queueUpdate. simpl. destruct (isUpdating s); by apply inv_ext.
Qed.

Lemma for_elements_inv f nodes s :
  (∀ el s, inv s → inv (f el s)) → inv s → inv (for_elements f nodes s).
Proof.
  intros Hf. unfold for_elements. revert s.
  induction nodes as [|[n b] nodes IH]; intros s Hinv; simpl; [done|].
  apply IH. destruct b; auto.
Qed.

Lemma on_mutation_inv o doc s m : inv s → inv (on_mutation o doc s m).
Proof.
  intros Hinv. unfold on_mutation.
  destruct (o_concern o); case_decide; try done.
  - unfold handleAttributeChange. eapply inv_ext; [..|by apply queueUpdate_inv]; done.
  - unfold handleContentChange. eapply inv_ext; [..|by apply queueUpdate_inv]; done.
  - apply for_elements_inv; [|apply for_elements_inv; [|done]].
    + intros el s' Hs'. unfold handleElementRemoved.
      eapply inv_ext; [..|by apply queueUpdate_inv, cleanupElement_inv]; done.
    + intros el s' Hs'. unfold handleElementAdded.
      eapply inv_ext; [..|by apply queueUpdate_inv, makeReactive_inv]; done.
  - apply for_elements_inv; [|done].
    intros el s' Hs'. by apply makeReactiveSubtree_inv.
Qed.

Lemma deliver_inv h records doc s : inv s → inv (deliver h records doc s).
Proof.
  intros Hinv. unfold deliver. destruct (JsMap.get h (connected s)) as [o|]; [|done].
  revert s Hinv. induction records as [|m records IH]; intros s Hinv; simpl; [done|].
  by apply IH, on_mutation_inv.
Qed.

Lemma perform_all_frame els s :
  connected (foldl performUpdate s els) = connected s
  ∧ nextObserver (foldl performUpdate s els) = nextObserver s
  ∧ observers (foldl performUpdate s els) = observers s
  ∧ reactiveElements (foldl performUpdate s els) = reactiveElements s
  ∧ microtasks (foldl performUpdate s els) = microtasks s
  ∧ trace (foldl performUpdate s els)
    = trace s ++ ((λ el, DispatchEvent el "alphabet:update" DNone) <$> els).
Proof.
  revert s. induction els as [|el els IH]; intros s; csimpl.
  - by rewrite app_nil_r.
  - destruct (IH (performUpdate s el)) as (-> & -> & -> & -> & -> & ->).
    simpl. by rewrite <- app_assoc.
Qed.

Lemma processUpdateQueue_inv s : inv s → inv (processUpdateQueue s).
Proof.
  intros Hinv. unfold processUpdateQueue.
  destruct (perform_all_frame (updateQueue s) s) as (Hc & Hn & Ho & Hr & _).
  by apply (inv_ext s).
Qed.

Lemma drain_inv s : inv s → inv (drain s).
Proof.
  intros Hinv. unfold drain. destruct (microtasks s) as [|k]; [done|].
  apply processUpdateQueue_inv. by apply (inv_ext s).
Qed.

Lemma destroy_all_connected entries s ho :
  ho ∈ connected (foldl (λ s (kv : node * list nat), foldl disconnect s kv.2) s entries)
  ↔ ho ∈ connected s ∧ ∀ kv, kv ∈ entries → ho.1 ∉ kv.2.
Proof.
  revert s. induction entries as [|[e hs] entries IH]; intros s; simpl.
  - split; [intros ?; split; [done | by intros ? ?%elem_of_nil] | by intros [? _]].
  - rewrite IH, disconnect_all_connected. simpl. split.
    + intros [[Hin Hnot] Hall]. split; [done|].
      intros kv [->|Hkv]%elem_of_cons; [done | by apply Hall].
    + intros [Hin Hall]. split_and!; [done | |].
      * apply (Hall (e, hs)), list_elem_of_here.
      * intros kv Hkv. by apply Hall, list_elem_of_further.
Qed.

Lemma destroy_connected s : base s → connected (destroy s) = [].
Proof.
  intros Hb. unfold destroy. simpl.
  destruct (connected (foldl _ s (observers s))) as [|[h o] m] eqn:E; [done|].
  assert (Hin : (h, o) ∈ connected
            (foldl (λ s (kv : node * list nat), foldl disconnect s kv.2) s (observers s))).
  { rewrite E. apply list_elem_of_here. }
  apply destroy_all_connected in Hin as [Hin Hall].
  destruct (inv_listed s Hb h o Hin) as (hs & Hg & Hh).
  apply JsMap.get_Some_elem_of in Hg. by apply Hall in Hg.
Qed.

Lemma destroy_inv s : inv s → inv (destroy s).
Proof.
  intros [Hb _]. pose proof (destroy_connected s Hb) as Hc.
  split; [split|].
  - intros h o. rewrite Hc. by intros ?%elem_of_nil.
  - done.
  - intros h o. rewrite Hc. by intros ?%elem_of_nil.
  - done.
  - done.
  - intros e c He. by apply elem_of_nil in He.
Qed.

Lemma init_inv : inv init.
Proof.
  split; [split|]; try done.
  - intros h o ?%elem_of_nil. done.
  - intros h o ?%elem_of_nil. done.
  - intros e c ?%elem_of_nil. done.
Qed.

Lemma run_step_inv s st : inv s → inv (run_step s st).
Proof.
  intros Hinv. destruct st; simpl.
  - by apply makeReactive_inv.
  - by apply makeReactiveSubtree_inv.
  - by apply deliver_inv.
  - by apply drain_inv.
  - by apply destroy_inv.
Qed.

Lemma reachable_inv s : reachable s → inv s.
Proof.
  induction 1 as [|s st _ IH]; [apply init_inv | by apply run_step_inv].
Qed.

(** *** What the layer emits *)

Definition semantic_names : list string :=
  ["alphabet:attribute-change"; "alphabet:content-change";
   "alphabet:child-added"; "alphabet:child-removed"; "alphabet:update"].

Definition is_semantic_event (e : effect) : bool :=
  match e with
  | DispatchEvent _ name _ => bool_decide (name ∈ semantic_names)
  | _ => false
  end.

(** Attaching or disconnecting a handle, the log line of [makeReactive]
    and the microtask request of [queueUpdate]. *)
Definition is_bookkeeping (e : effect) : bool :=
  match e with
  | Observe _ _ _ | Disconnect _ | ConsoleLog _ | QueueMicrotask => true
  | _ => false
  end.

(** The reactions the specification names: the microtask request of the
    intent queue and a semantic event. *)
Definition is_queue_or_event (e : effect) : bool :=
  match e with
  | QueueMicrotask => true
  | _ => is_semantic_event e
  end.

Definition target_ok (Q : node → Prop) (e : effect) : Prop :=
  match e with
  | DispatchEvent el _ _ => Q el
  | _ => True
  end.

(** An effect of the layer: bookkeeping, or a semantic event on a node
    that satisfies [Q]. *)
Definition ok (Q : node → Prop) (e : effect) : Prop :=
  is_bookkeeping e || is_semantic_event e = true ∧ target_ok Q e.

(** [s'] extends the trace of [s] by effects that satisfy [P]. *)
Definition emits (P : effect → Prop) (s s' : ReactiveDOM) : Prop :=
  ∃ es, trace s' = trace s ++ es ∧ Forall P es.

Lemma emits_refl P s s' : trace s' = trace s → emits P s s'.
Proof. intros Ht. exists []. by rewrite app_nil_r. Qed.

Lemma emits_trans P s1 s2 s3 : emits P s1 s2 → emits P s2 s3 → emits P s1 s3.
Proof.
  intros (es1 & H1 & F1) (es2 & H2 & F2). exists (es1 ++ es2).
  rewrite H2, H1, app_assoc. split; [done | by apply Forall_app].
Qed.

Lemma emits_emit P es s s' :
  Forall P es → emits P s s' → emits P s (emit es s').
Proof.
  intros Hes He. eapply emits_trans; [exact He|]. by exists es.
Qed.

Lemma emits_new_effects P s s' : emits P s s' → Forall P (new_effects s s').
Proof.
  intros (es & Ht & Hes). unfold new_effects.
  by rewrite Ht, drop_app_length.
Qed.

Lemma emits_foldl {A} P (f : ReactiveDOM → A → ReactiveDOM) (I : ReactiveDOM → Prop)
    (l : list A) s :
  (∀ s x, x ∈ l → I s → I (f s x) ∧ emits P s (f s x)) →
  I s → I (foldl f s l) ∧ emits P s (foldl f s l).
Proof.
  revert s. induction l as [|x l IH]; intros s Hf Hs; simpl.
  - split; [done | by apply emits_refl].
  - destruct (Hf s x) as [Hi He]; [apply list_elem_of_here | done |].
    destruct (IH (f s x)) as [Hi' He']; [|done|].
    + intros s' y Hy. apply Hf. by apply list_elem_of_further.
    + split; [done | by eapply emits_trans].
Qed.

Section Emits.
Variable Q : node → Prop.

Lemma observe_with_emits c el options cfg s :
  emits (ok Q) s (observe_with c el options cfg s).
Proof. exists [Observe (nextObserver s) el cfg]. split; [done|]. by repeat constructor. Qed.

Lemma makeReactive_emits el options s :
  emits (ok Q) s (makeReactive el options s).
Proof.
  unfold makeReactive. destruct (JsSet.has el (reactiveElements s)).
  - by apply emits_refl.
  - apply emits_emit; [by repeat constructor|].
    eapply emits_trans; [|apply observe_with_emits].
    eapply emits_trans; [|apply observe_with_emits].
    eapply emits_trans; [|apply observe_with_emits].
    by apply emits_refl.
Qed.

Lemma makeReactive_all_emits options els s :
  emits (ok Q) s (foldl (λ s el, makeReactive el options s) s els).
Proof.
  apply (emits_foldl _ _ (λ _, True)); [|done].
  intros s' x _ _. split; [done | apply makeReactive_emits].
Qed.

Lemma makeReactiveSubtree_emits doc root options s :
  emits (ok Q) s (makeReactiveSubtree doc root options s).
Proof.
  unfold makeReactiveSubtree.
  eapply emits_trans; [|apply observe_with_emits].
  eapply emits_trans; [apply makeReactive_emits | apply makeReactive_all_emits].
Qed.

Lemma cleanupElement_trace el s :
  trace (cleanupElement el s)
  = trace s ++ (Disconnect <$> default [] (JsMap.get el (observers s))).
Proof.
  unfold cleanupElement. simpl.
  destruct (JsMap.get el (observers s)) as [hs|]; simpl.
  - by destruct (disconnect_all_frame hs s) as (_ & _ & _ & _ & _ & _ & ->).
  - by rewrite app_nil_r.
Qed.

Lemma cleanupElement_emits el s : emits (ok Q) s (cleanupElement el s).
Proof.
  eexists. split; [apply cleanupElement_trace|].
  apply Forall_fmap, Forall_true. by intros h.
Qed.

Lemma queueUpdate_emits el s : emits (ok Q) s (queueUpdate el s).
Proof.
  unfold queueUpdate. simpl. destruct (isUpdating s).
  - by apply emits_refl.
  - exists [QueueMicrotask]. split; [done|]. by repeat constructor.
Qed.

Lemma for_elements_emits (I : ReactiveDOM → Prop) (R : node → Prop) f nodes s :
  (∀ el s, R el → I s → I (f el s) ∧ emits (ok Q) s (f el s)) →
  Forall (λ nb : node * bool, nb.2 = true → R nb.1) nodes →
  I s → I (for_elements f nodes s) ∧ emits (ok Q) s (for_elements f nodes s).
Proof.
  intros Hf Hall. unfold for_elements. apply emits_foldl.
  intros s' [n b] Hin Hs'. simpl. destruct b.
  - apply Hf; [|done]. rewrite Forall_forall in Hall. by apply (Hall (n, true)).
  - split; [done | by apply emits_refl].
Qed.
End Emits.

Lemma disconnect_all_emits Q hs s : emits (ok Q) s (foldl disconnect s hs).
Proof.
  eexists. split.
  - by destruct (disconnect_all_frame hs s) as (_ & _ & _ & _ & _ & _ & ->).
  - apply Forall_fmap, Forall_true. by intros h.
Qed.

Lemma destroy_emits Q s : emits (ok Q) s (destroy s).
Proof.
  unfold destroy.
  eapply emits_trans; [|by apply emits_refl].
  apply (emits_foldl _ _ (λ _, True)); [|done].
  intros s' kv _ _. split; [done | apply disconnect_all_emits].
Qed.

Lemma processUpdateQueue_trace s :
  trace (processUpdateQueue s)
  = trace s ++ ((λ el, DispatchEvent el "alphabet:update" DNone) <$> updateQueue s).
Proof.
  unfold processUpdateQueue. simpl.
  by destruct (perform_all_frame (updateQueue s) s) as (_ & _ & _ & _ & _ & ->).
Qed.

Lemma drain_emits (Q : node → Prop) s :
  Forall Q (updateQueue s) → emits (ok Q) s (drain s).
Proof.
  intros HQ. unfold drain. destruct (microtasks s) as [|k]; [by apply emits_refl|].
  eexists. split; [apply (processUpdateQueue_trace (set_microtasks k s))|].
  simpl. apply Forall_fmap. eapply Forall_impl; [exact HQ|].
  intros el Hel. by split.
Qed.

(** *** After [cleanupElement] *)

(** [n] is neither tracked nor queued. *)
Definition silent (n : node) (s : ReactiveDOM) : Prop :=
  (n ∉ reactiveElements s) ∧ (n ∉ updateQueue s).

Lemma adds_false doc n nodes :
  adds doc n nodes = false →
  Forall (λ nb : node * bool,
            nb.2 = true → nb.1 ≠ n ∧ n ∉ querySelectorAll doc nb.1) nodes.
Proof.
  unfold adds. induction nodes as [|[x b] nodes IH]; simpl; [by constructor|].
  intros [Hx Hrest]%orb_false_elim. constructor; [|by apply IH].
  simpl. intros ->. simpl in Hx. apply orb_false_elim in Hx as [H1 H2].
  by apply bool_decide_eq_false in H1, H2.
Qed.

Section Silent.
Variable n : node.

Let J (s : ReactiveDOM) : Prop := inv s ∧ silent n s.
Let P : effect → Prop := ok (λ el, el ≠ n).

Lemma makeReactive_silent el options s :
  el ≠ n → J s → J (makeReactive el options s) ∧ emits P s (makeReactive el options s).
Proof.
  intros Hne [Hinv [Hr Hq]]. split; [|apply makeReactive_emits].
  split; [by apply makeReactive_inv|]. split.
  - rewrite makeReactive_reactiveElements. by intros [?|?].
  - unfold makeReactive. by destruct (JsSet.has el (reactiveElements s)).
Qed.

Lemma makeReactive_all_updateQueue options els s :
  updateQueue (foldl (λ s el, makeReactive el options s) s els) = updateQueue s.
Proof.
  revert s. induction els as [|el els IH]; intros s; simpl; [done|].
  rewrite IH. unfold makeReactive. by destruct (JsSet.has el (reactiveElements s)).
Qed.

Lemma makeReactiveSubtree_silent doc root options s :
  root ≠ n → n ∉ querySelectorAll doc root → J s →
  J (makeReactiveSubtree doc root options s)
  ∧ emits P s (makeReactiveSubtree doc root options s).
Proof.
  intros Hne Hq [Hinv [Hr Hu]]. split; [|apply makeReactiveSubtree_emits].
  split; [by apply makeReactiveSubtree_inv|]. split.
  - rewrite makeReactiveSubtree_reactiveElements. by intros [?|[?|?]].
  - unfold makeReactiveSubtree. simpl. rewrite makeReactive_all_updateQueue.
    unfold makeReactive. by destruct (JsSet.has root (reactiveElements s)).
Qed.

Lemma cleanupElement_silent el s :
  J s → J (cleanupElement el s) ∧ emits P s (cleanupElement el s).
Proof.
  intros [Hinv [Hr Hu]]. split; [|apply cleanupElement_emits].
  split; [by apply cleanupElement_inv|]. split.
  - rewrite cleanupElement_reactiveElements. by intros [_ ?].
  - rewrite cleanupElement_updateQueue. by intros [_ ?].
Qed.

Lemma queueUpdate_silent el s :
  el ≠ n → J s → J (queueUpdate el s) ∧ emits P s (queueUpdate el s).
Proof.
  intros Hne [Hinv [Hr Hu]]. split; [|apply queueUpdate_emits].
  split; [by apply queueUpdate_inv|].
  assert (Hq : n ∉ JsSet.add el (updateQueue s)).
  { rewrite JsSet.elem_of_add. by intros [?|?]. }
  unfold queueUpdate. simpl. by destruct (isUpdating s).
Qed.

Lemma dispatch_silent el name d s0 s :
  el ≠ n → name ∈ semantic_names →
  J s ∧ emits P s0 s →
  J (emit [DispatchEvent el name d] s)
  ∧ emits P s0 (emit [DispatchEvent el name d] s).
Proof.
  intros Hne Hname [[Hinv Hs] He]. split.
  - split; [by apply (inv_ext s) | done].
  - apply emits_emit; [|done]. constructor; [|done].
    split; [|done]. simpl. by apply bool_decide_eq_true.
Qed.

Lemma on_mutation_silent o doc s m :
  o_owner o ≠ n → adds doc n (m_addedNodes m) = false →
  J s → J (on_mutation o doc s m) ∧ emits P s (on_mutation o doc s m).
Proof.
  intros Ho Hadd HJ. apply adds_false in Hadd.
  assert (Hrefl : emits P s s) by by apply emits_refl.
  unfold on_mutation. destruct (o_concern o); case_decide; try done.
  - apply dispatch_silent; [done | set_solver |]. by apply queueUpdate_silent.
  - apply dispatch_silent; [done | set_solver |]. by apply queueUpdate_silent.
  - destruct (for_elements_emits (λ el, el ≠ n) J
                (λ el, el ≠ n ∧ n ∉ querySelectorAll doc el)
                (handleElementAdded (o_owner o)) (m_addedNodes m) s)
      as [HJ1 He1]; [|done|done|].
    { intros el s' [Hel _] Hs'. apply dispatch_silent; [done | set_solver |].
      destruct (makeReactive_silent el no_options s' Hel Hs') as [HJa Hea].
      destruct (queueUpdate_silent (o_owner o) _ Ho HJa) as [HJb Heb].
      split; [done | by eapply emits_trans]. }
    destruct (for_elements_emits (λ el, el ≠ n) J (λ _, True)
                (handleElementRemoved (o_owner o)) (m_removedNodes m)
                (for_elements (handleElementAdded (o_owner o)) (m_addedNodes m) s))
      as [HJ2 He2]; [| |done|].
    { intros el s' _ Hs'. apply dispatch_silent; [done | set_solver |].
      destruct (cleanupElement_silent el s' Hs') as [HJa Hea].
      destruct (queueUpdate_silent (o_owner o) _ Ho HJa) as [HJb Heb].
      split; [done | by eapply emits_trans]. }
    { by apply Forall_true. }
    split; [done | by eapply emits_trans].
  - apply (for_elements_emits (λ el, el ≠ n) J
             (λ el, el ≠ n ∧ n ∉ querySelectorAll doc el)); [|done|done].
    intros el s' [Hel Hq] Hs'. by apply makeReactiveSubtree_silent.
Qed.

Lemma run_step_silent s st :
  registers n st = false → J s → J (run_step s st) ∧ emits P s (run_step s st).
Proof.
  intros Hreg HJ. destruct st as [el options|doc root options|h records doc| |];
    simpl in *.
  - apply makeReactive_silent; [|done]. by apply bool_decide_eq_false in Hreg.
  - apply orb_false_elim in Hreg as [H1 H2].
    apply bool_decide_eq_false in H1, H2. by apply makeReactiveSubtree_silent.
  - unfold deliver. destruct (JsMap.get h (connected s)) as [o|] eqn:E.
    + assert (Ho : o_owner o ≠ n).
      { destruct HJ as [[Hb _] [Hr _]].
        eapply base_no_handles; [done | done |].
        by apply JsMap.get_Some_elem_of. }
      apply emits_foldl; [|done].
      intros s' m Hm Hs'. apply on_mutation_silent; [done | | done].
      destruct (adds doc n (m_addedNodes m)) eqn:Ea; [|done].
      assert (existsb (λ m, adds doc n (m_addedNodes m)) records = true)
        as Hex; [|congruence].
      apply existsb_exists. exists m. split; [|done].
      by apply list_elem_of_In.
    + split; [done | by apply emits_refl].
  - destruct HJ as [Hinv [Hr Hu]]. split.
    + split; [by apply drain_inv|]. split.
      * unfold drain. destruct (microtasks s); [done|].
        unfold processUpdateQueue. simpl.
        by destruct (perform_all_frame (updateQueue s) (set_microtasks n0 s))
          as (_ & _ & _ & -> & _).
      * unfold drain. destruct (microtasks s); [done|].
        unfold processUpdateQueue. simpl. apply not_elem_of_nil.
    + apply drain_emits. apply Forall_forall. by intros el Hel ->.
  - destruct HJ as [Hinv [Hr Hu]]. split; [|apply destroy_emits].
    split; [by apply destroy_inv|]. split; simpl; apply not_elem_of_nil.
Qed.

Lemma run_silent s sts :
  Forall (λ st, registers n st = false) sts →
  J s → J (run s sts) ∧ emits P s (run s sts).
Proof.
  intros Hreg. unfold run. apply emits_foldl.
  intros s' st Hst Hs'. apply run_step_silent; [|done].
  rewrite Forall_forall in Hreg. by apply Hreg.
Qed.
End Silent.

(** *** Reactions to any batch of records *)

Lemma ok_dispatch (Q : node → Prop) el name d :
  Q el → name ∈ semantic_names → Forall (ok Q) [DispatchEvent el name d].
Proof.
  intros HQ Hname. constructor; [|done]. split; [|done].
  simpl. by apply bool_decide_eq_true.
Qed.

Lemma on_mutation_emits o doc s m :
  emits (ok (λ _, True)) s (on_mutation o doc s m).
Proof.
  unfold on_mutation. destruct (o_concern o); case_decide;
    try (by apply emits_refl).
  - apply emits_emit; [apply ok_dispatch; [done | set_solver]|].
    apply queueUpdate_emits.
  - apply emits_emit; [apply ok_dispatch; [done | set_solver]|].
    apply queueUpdate_emits.
  - eapply emits_trans.
    + apply (for_elements_emits _ (λ _, True) (λ _, True)
               (handleElementAdded (o_owner o))); [| |done].
      * intros el s' _ _. split; [done|]. unfold handleElementAdded.
        apply emits_emit; [apply ok_dispatch; [done | set_solver]|].
        eapply emits_trans; [apply makeReactive_emits | apply queueUpdate_emits].
      * by apply Forall_true.
    + apply (for_elements_emits _ (λ _, True) (λ _, True)
               (handleElementRemoved (o_owner o))); [| |done].
      * intros el s' _ _. split; [done|]. unfold handleElementRemoved.
        apply emits_emit; [apply ok_dispatch; [done | set_solver]|].
        eapply emits_trans; [apply cleanupElement_emits | apply queueUpdate_emits].
      * by apply Forall_true.
  - apply (for_elements_emits _ (λ _, True) (λ _, True)); [| |done].
    + intros el s' _ _. split; [done | apply makeReactiveSubtree_emits].
    + by apply Forall_true.
Qed.

Lemma deliver_emits h records doc s :
  emits (ok (λ _, True)) s (deliver h records doc s).
Proof.
  unfold deliver. destruct (JsMap.get h (connected s)) as [o|];
    [|by apply emits_refl].
  apply (emits_foldl _ _ (λ _, True)); [|done].
  intros s' m _ _. split; [done | apply on_mutation_emits].
Qed.

Lemma ok_not_a_write Q e :
  ok Q e → is_document_write e = false ∧ is_scheduler_request e = false.
Proof. intros [He _]. by destruct e. Qed.

(** The callbacks of the attribute and content concerns touch the intent
    queue only. *)
Definition queue_only (owner : node) (s s' : ReactiveDOM) : Prop :=
  connected s' = connected s ∧ observers s' = observers s
  ∧ reactiveElements s' = reactiveElements s
  ∧ nextObserver s' = nextObserver s
  ∧ (∀ x, x ∈ updateQueue s' → x = owner ∨ x ∈ updateQueue s)
  ∧ emits (λ e, is_queue_or_event e = true) s s'.

Lemma queue_only_refl owner s : queue_only owner s s.
Proof. split_and!; try done; [auto | by apply emits_refl]. Qed.

Lemma queue_only_trans owner s1 s2 s3 :
  queue_only owner s1 s2 → queue_only owner s2 s3 → queue_only owner s1 s3.
Proof.
  intros (A1 & A2 & A3 & A4 & A5 & A6) (B1 & B2 & B3 & B4 & B5 & B6).
  split_and!; try congruence.
  - intros x [->|Hx]%B5; auto.
  - by eapply emits_trans.
Qed.

Lemma queue_only_dispatch owner name d s :
  name ∈ semantic_names →
  queue_only owner s (emit [DispatchEvent owner name d] (queueUpdate owner s)).
Proof.
  intros Hname.
  assert (Hev : Forall (λ e, is_queue_or_event e = true)
                  [DispatchEvent owner name d]).
  { constructor; [|done]. simpl. by apply bool_decide_eq_true. }
  unfold queueUpdate. simpl. destruct (isUpdating s); simpl.
  - split_and!; try done.
    + intros x [->|?]%JsSet.elem_of_add; auto.
    + by exists [DispatchEvent owner name d].
  - split_and!; try done.
    + intros x [->|?]%JsSet.elem_of_add; auto.
    + exists [QueueMicrotask; DispatchEvent owner name d]. split.
      * simpl. by rewrite <- app_assoc.
      * by constructor.
Qed.

Lemma deliver_queue_only h o records doc s :
  JsMap.get h (connected s) = Some o →
  o_concern o = Attributes ∨ o_concern o = Content →
  queue_only (o_owner o) s (deliver h records doc s).
Proof.
  intros Hget Hc. unfold deliver. rewrite Hget. clear Hget.
  revert s. induction records as [|m records IH]; intros s; simpl.
  - apply queue_only_refl.
  - eapply queue_only_trans; [|apply IH].
    unfold on_mutation. destruct Hc as [-> | ->]; case_decide;
      try apply queue_only_refl.
    + apply queue_only_dispatch. set_solver.
    + apply queue_only_dispatch. set_solver.
Qed.

(** *** The intent queue is a set *)

Lemma makeReactive_updateQueue el options s :
  updateQueue (makeReactive el options s) = updateQueue s.
Proof. unfold makeReactive. by destruct (JsSet.has el (reactiveElements s)). Qed.

Lemma cleanup_queue_NoDup el s :
  NoDup (updateQueue s) → NoDup (updateQueue (cleanupElement el s)).
Proof.
  intros Hnd. unfold cleanupElement. simpl. apply NoDup_filter.
  destruct (JsMap.get el (observers s)) as [hs|]; [|done]. simpl.
  by destruct (disconnect_all_frame hs s) as (_ & _ & _ & -> & _).
Qed.

Lemma queueUpdate_queue_NoDup el s :
  NoDup (updateQueue s) → NoDup (updateQueue (queueUpdate el s)).
Proof.
  intros Hnd. unfold queueUpdate. simpl.
  destruct (isUpdating s); by apply JsSet.NoDup_add.
Qed.

Lemma for_elements_pres (I : ReactiveDOM → Prop) f nodes s :
  (∀ el s, I s → I (f el s)) → I s → I (for_elements f nodes s).
Proof.
  intros Hf. unfold for_elements. revert s.
  induction nodes as [|[x b] nodes IH]; intros s Hs; simpl; [done|].
  apply IH. destruct b; auto.
Qed.

Lemma run_step_queue_NoDup s st :
  NoDup (updateQueue s) → NoDup (updateQueue (run_step s st)).
Proof.
  intros Hnd. destruct st as [el options|doc root options|h records doc| |];
    simpl.
  - by rewrite makeReactive_updateQueue.
  - unfold makeReactiveSubtree. simpl.
    by rewrite makeReactive_all_updateQueue, makeReactive_updateQueue.
  - unfold deliver. destruct (JsMap.get h (connected s)) as [o|]; [|done].
    revert s Hnd. induction records as [|m records IH]; intros s Hnd; simpl;
      [done|].
    apply IH. unfold on_mutation.
    destruct (o_concern o); case_decide; try done.
    + by apply queueUpdate_queue_NoDup.
    + by apply queueUpdate_queue_NoDup.
    + apply (for_elements_pres (λ s, NoDup (updateQueue s)));
        [|apply (for_elements_pres (λ s, NoDup (updateQueue s))); [|done]].
      * intros el s' Hs'. simpl. by apply queueUpdate_queue_NoDup, cleanup_queue_NoDup.
      * intros el s' Hs'. simpl. apply queueUpdate_queue_NoDup.
        by rewrite makeReactive_updateQueue.
    + apply (for_elements_pres (λ s, NoDup (updateQueue s))); [|done].
      intros el s' Hs'. unfold makeReactiveSubtree. simpl.
      by rewrite makeReactive_all_updateQueue, makeReactive_updateQueue.
  - unfold drain. destruct (microtasks s); [done|]. simpl. apply NoDup_nil_2.
  - simpl. apply NoDup_nil_2.
Qed.

Lemma reachable_queue_NoDup s : reachable s → NoDup (updateQueue s).
Proof.
  induction 1 as [|s st _ IH]; [apply NoDup_nil_2 | by apply run_step_queue_NoDup].
Qed.

(** *** Concrete documents and records *)

Definition empty_document : document :=
  {| getAttribute := λ _ _, None; querySelectorAll := λ _, [] |}.

Definition child_added (parent el : node) : MutationRecord :=
  {| m_type := childList_type; m_target := parent; m_attributeName := "";
     m_addedNodes := [(el, true)]; m_removedNodes := [];
     m_textContent := None |}.

Definition child_removed (parent el : node) : MutationRecord :=
  {| m_type := childList_type; m_target := parent; m_attributeName := "";
     m_addedNodes := []; m_removedNodes := [(el, true)];
     m_textContent := None |}.

Definition attribute_changed (el : node) (name : string) : MutationRecord :=
  {| m_type := attributes_type; m_target := el; m_attributeName := name;
     m_addedNodes := []; m_removedNodes := []; m_textContent := None |}.

(** *** The claims about the observation layer *)

(** C10.  In every state the layer can reach, [makeReactive] on an
    element that is already reactive returns the state as it is, and for
    each concern of [makeReactive] (attributes, content, child list) a
    reactive element has exactly one observing handle, which is listed
    under the element. *)
Theorem makeReactive_idempotent (s : ReactiveDOM) (el : node) :
  reachable s → isReactive el s = true →
  (∀ options, makeReactive el options s = s)
  ∧ (∀ c, c ≠ NewElements →
       ∃ h o, handles_of s el c = [(h, o)]
              ∧ ∃ hs, JsMap.get el (observers s) = Some hs ∧ h ∈ hs).
Proof.
  intros [Hb H1]%reachable_inv Hel%has_true. split.
  - intros options. by apply makeReactive_already.
  - intros c Hc. specialize (H1 el c Hel Hc).
    destruct (handles_of s el c) as [|[h o] [|? ?]] eqn:E; try done.
    exists h, o. split; [done|].
    assert (Hin : (h, o) ∈ handles_of s el c) by (rewrite E; apply list_elem_of_here).
    apply list_elem_of_filter in Hin as [[Ho _] Hin]. simpl in Ho.
    rewrite <- Ho. by apply (inv_listed s Hb).
Qed.



(** C3, as the code has it.  Whatever batch of records an observer of the
    layer receives, each thing the layer does is a semantic event or
    bookkeeping of its own (attaching handles to an added element,
    disconnecting those of a removed one, the log line, the microtask
    request): never a document write, never a frame request.  The
    callbacks of the attribute and content concerns only queue their
    element and dispatch a semantic event.  The drain dispatches one
    ["alphabet:update"] per queued node, empties the queue and does
    nothing else; the queue of a reachable state holds each node once. *)
Theorem observation_layer_never_writes
    (s : ReactiveDOM) (h : nat) (records : list MutationRecord) (doc : document) :
  let s' := deliver h records doc s in
  Forall (λ e, is_bookkeeping e || is_semantic_event e = true) (new_effects s s')
  ∧ Forall (λ e, is_document_write e = false ∧ is_scheduler_request e = false)
      (new_effects s s')
  ∧ (∀ o, JsMap.get h (connected s) = Some o →
          o_concern o = Attributes ∨ o_concern o = Content →
          Forall (λ e, is_queue_or_event e = true) (new_effects s s')
          ∧ connected s' = connected s ∧ observers s' = observers s
          ∧ reactiveElements s' = reactiveElements s
          ∧ ∀ x, x ∈ updateQueue s' → x = o_owner o ∨ x ∈ updateQueue s)
  ∧ trace (processUpdateQueue s)
    = trace s ++ ((λ el, DispatchEvent el "alphabet:update" DNone) <$> updateQueue s)
  ∧ updateQueue (processUpdateQueue s) = []
  ∧ isUpdating (processUpdateQueue s) = false
  ∧ connected (processUpdateQueue s) = connected s
  ∧ observers (processUpdateQueue s) = observers s
  ∧ reactiveElements (processUpdateQueue s) = reactiveElements s
  ∧ (reachable s → NoDup (updateQueue s)).
Proof.
  intros s'.
  pose proof (emits_new_effects _ _ _ (deliver_emits h records doc s)) as Hok.
  destruct (perform_all_frame (updateQueue s) s) as (Hc & _ & Ho & Hr & _).
  split_and!; try done.
  - eapply Forall_impl; [exact Hok|]. by intros e [He _].
  - eapply Forall_impl; [exact Hok|]. intros e. apply ok_not_a_write.
  - intros o Hget Hconcern.
    destruct (deliver_queue_only h o records doc s Hget Hconcern)
      as (A1 & A2 & A3 & _ & A5 & A6).
    split_and!; try done. by apply emits_new_effects.
  - apply processUpdateQueue_trace.
  - apply reachable_queue_NoDup.
Qed.

(** C3, as stated, fails: when an element is added under a reactive
    parent, the layer also attaches three observation handles to the new
    element and logs, besides queueing the parent and dispatching. *)
Lemma child_added_attaches_handles :
  let s := run init [MakeReactive 1%nat no_options] in
  reachable s
  ∧ ¬ Forall (λ e, is_queue_or_event e = true)
        (new_effects s (deliver 2%nat [child_added 1%nat 2%nat] empty_document s)).
Proof.
  split.
  - apply (reachable_step _ (MakeReactive 1%nat no_options)), reachable_init.
  - intros HF. rewrite Forall_forall in HF.
    specialize (HF (ConsoleLog 2%nat)).
    assert (Hin : ConsoleLog 2%nat
                  ∈ new_effects (run init [MakeReactive 1%nat no_options])
                      (deliver 2%nat [child_added 1%nat 2%nat] empty_document
                         (run init [MakeReactive 1%nat no_options]))).
    { vm_compute.
      repeat first [apply list_elem_of_here | apply list_elem_of_further]. }
    specialize (HF Hin). done.
Qed.

(** *** The theorems at concrete states *)

Lemma makeReactive_idempotent_witness :
  let s := run init [MakeReactive 1%nat no_options] in
  reachable s ∧ isReactive 1%nat s = true
  ∧ makeReactive 1%nat no_options s = s.
Proof.
  assert (Hr : reachable (run init [MakeReactive 1%nat no_options])).
  { apply (reachable_step _ (MakeReactive 1%nat no_options)), reachable_init. }
  split_and!; [exact Hr | reflexivity |].
  apply (makeReactive_idempotent _ 1%nat Hr); reflexivity.
Defined.


Lemma observation_layer_never_writes_witness :
  let s := run init [MakeReactive 1%nat no_options] in
  let o := {| o_concern := Attributes; o_owner := 1%nat; o_options := no_options |} in
  let s' := deliver 0%nat [attribute_changed 1%nat "x"] empty_document s in
  JsMap.get 0%nat (connected s) = Some o
  ∧ (o_concern o = Attributes ∨ o_concern o = Content)
  ∧ Forall (λ e, is_queue_or_event e = true) (new_effects s s')
  ∧ connected s' = connected s.
Proof.
  destruct (observation_layer_never_writes
              (run init [MakeReactive 1%nat no_options]) 0%nat
              [attribute_changed 1%nat "x"] empty_document)
    as (_ & _ & H & _).
  destruct (H _ eq_refl (or_introl eq_refl)) as (H1 & H2 & _).
  split_and!; [reflexivity | left; reflexivity | exact H1 | exact H2].
Defined.

(** ** Further properties of the observation layer *)

(** *** [destroy] *)

Lemma destroy_trace s :
  ∃ hs, trace (destroy s) = trace s ++ (Disconnect <$> hs).
Proof.
  unfold destroy. simpl. generalize (observers s) at 1. intros entries.
  revert s. induction entries as [|[e hs] entries IH]; intros s; simpl.
  - exists []. by rewrite app_nil_r.
  - destruct (IH (foldl disconnect s hs)) as [hs' ->].
    destruct (disconnect_all_frame hs s) as (_ & _ & _ & _ & _ & _ & ->).
    exists (hs ++ hs'). by rewrite fmap_app, app_assoc.
Qed.

(** X10.  [destroy] silences the layer: in every state a run reaches it
    disconnects every observing handle and does nothing else to the host,
    and it empties the tracking set, the handle lists and the intent queue.
    Afterwards a delivery to any handle changes nothing, and the microtask
    that may still be pending dispatches no event. *)
Theorem destroy_silences_the_layer (s : ReactiveDOM) :
  reachable s →
  let s' := destroy s in
  connected s' = [] ∧ observers s' = []
  ∧ reactiveElements s' = [] ∧ updateQueue s' = []
  ∧ (∃ hs, new_effects s s' = Disconnect <$> hs)
  ∧ (∀ h records doc, deliver h records doc s' = s')
  ∧ new_effects s' (drain s') = [].
Proof.
  intros [Hb _]%reachable_inv s'.
  assert (Hc : connected s' = []) by by apply destroy_connected.
  split_and!; try done.
  - destruct (destroy_trace s) as [hs Hhs]. exists hs.
    unfold new_effects. subst s'. by rewrite Hhs, drop_app_length.
  - intros h records doc. unfold deliver. by rewrite Hc.
  - unfold new_effects, drain. destruct (microtasks s') as [|k].
    + by rewrite drop_all.
    + rewrite processUpdateQueue_trace. simpl. rewrite app_nil_r.
      by rewrite drop_all.
Qed.

(** *** The intent queue is flushed by one microtask *)

(** One microtask is pending while [isUpdating] holds and none otherwise,
    and a queued node has its microtask pending. *)
Definition coalesced (s : ReactiveDOM) : Prop :=
  microtasks s = (if isUpdating s then 1 else 0)%nat
  ∧ (updateQueue s ≠ [] → isUpdating s = true).

Lemma coalesced_ext s s' :
  microtasks s' = microtasks s → isUpdating s' = isUpdating s →
  updateQueue s' = updateQueue s → coalesced s → coalesced s'.
Proof. intros Hm Hi Hq [H1 H2]. split; rewrite ?Hm, ?Hi, ?Hq; done. Qed.

Lemma makeReactive_coalesced el options s :
  coalesced s → coalesced (makeReactive el options s).
Proof.
  unfold makeReactive. destruct (JsSet.has el (reactiveElements s)); [done|].
  by apply coalesced_ext.
Qed.

Lemma makeReactiveSubtree_coalesced doc root options s :
  coalesced s → coalesced (makeReactiveSubtree doc root options s).
Proof.
  intros Hs. unfold makeReactiveSubtree.
  eapply coalesced_ext; [done | done | done |].
  apply makeReactive_coalesced with (el := root) (options := options) in Hs.
  revert Hs. generalize (makeReactive root options s).
  induction (querySelectorAll doc root) as [|el els IH]; intros s0 Hs0; simpl;
    [done|].
  by apply IH, makeReactive_coalesced.
Qed.

Lemma cleanupElement_coalesced el s :
  coalesced s → coalesced (cleanupElement el s).
Proof.
  intros [H1 H2].
  assert (Hf : microtasks (cleanupElement el s) = microtasks s
               ∧ isUpdating (cleanupElement el s) = isUpdating s
               ∧ updateQueue (cleanupElement el s)
                 = JsSet.delete el (updateQueue s)).
  { unfold cleanupElement. simpl.
    destruct (JsMap.get el (observers s)) as [hs|]; simpl; [|done].
    by destruct (disconnect_all_frame hs s) as (_ & _ & _ & -> & -> & -> & _). }
  destruct Hf as (Hm & Hi & Hq). split; rewrite ?Hm, ?Hi, ?Hq; [done|].
  intros Hne. apply H2. intros Hnil. by rewrite Hnil in Hne.
Qed.

Lemma queueUpdate_coalesced el s : coalesced s → coalesced (queueUpdate el s).
Proof.
  intros [H1 H2]. unfold queueUpdate. simpl.
  destruct (isUpdating s) eqn:E; simpl; split; simpl; try done.
  - by rewrite E.
  - by rewrite H1.
Qed.

Lemma for_elements_coalesced f nodes s :
  (∀ el s, coalesced s → coalesced (f el s)) →
  coalesced s → coalesced (for_elements f nodes s).
Proof.
  intros Hf. unfold for_elements. revert s.
  induction nodes as [|[el b] nodes IH]; intros s Hs; simpl; [done|].
  apply IH. destruct b; [by apply Hf | done].
Qed.

Lemma on_mutation_coalesced o doc s m :
  coalesced s → coalesced (on_mutation o doc s m).
Proof.
  intros Hs. unfold on_mutation.
  destruct (o_concern o); case_decide; try done.
  - unfold handleAttributeChange.
    eapply coalesced_ext; [done | done | done | by apply queueUpdate_coalesced].
  - unfold handleContentChange.
    eapply coalesced_ext; [done | done | done | by apply queueUpdate_coalesced].
  - apply for_elements_coalesced.
    + intros el s0 Hs0. unfold handleElementRemoved.
      eapply coalesced_ext; [done | done | done |].
      by apply queueUpdate_coalesced, cleanupElement_coalesced.
    + apply for_elements_coalesced; [|done].
      intros el s0 Hs0. unfold handleElementAdded.
      eapply coalesced_ext; [done | done | done |].
      by apply queueUpdate_coalesced, makeReactive_coalesced.
  - apply for_elements_coalesced; [|done].
    intros el s0 Hs0. by apply makeReactiveSubtree_coalesced.
Qed.

Lemma deliver_coalesced h records doc s :
  coalesced s → coalesced (deliver h records doc s).
Proof.
  intros Hs. unfold deliver. destruct (JsMap.get h (connected s)) as [o|]; [|done].
  revert s Hs. induction records as [|m records IH]; intros s Hs; simpl; [done|].
  by apply IH, on_mutation_coalesced.
Qed.

Lemma drain_resets s :
  coalesced s →
  updateQueue (drain s) = [] ∧ isUpdating (drain s) = false
  ∧ microtasks (drain s) = 0%nat.
Proof.
  intros [H1 H2]. unfold drain. destruct (microtasks s) as [|k] eqn:E.
  - destruct (isUpdating s) eqn:Hi; [done|].
    split_and!; try done.
    destruct (updateQueue s) as [|x q] eqn:Hq; [done|].
    by specialize (H2 ltac:(done)).
  - unfold processUpdateQueue. simpl.
    destruct (perform_all_frame (updateQueue s) (set_microtasks k s))
      as (_ & _ & _ & _ & -> & _). simpl.
    destruct (isUpdating s); [|done]. by injection H1 as ->.
Qed.

Lemma destroy_coalesced s : coalesced s → coalesced (destroy s).
Proof.
  intros [H1 H2].
  assert (Hf : microtasks (destroy s) = microtasks s
               ∧ isUpdating (destroy s) = isUpdating s).
  { unfold destroy. simpl. generalize (observers s) at 1 2. intros entries.
    revert s H1 H2. induction entries as [|[e hs] entries IH]; intros s H1 H2;
      simpl; [done|].
    destruct (disconnect_all_frame hs s) as (_ & _ & _ & Hq & Hi & Hm & _).
    rewrite <- Hm, <- Hi. apply IH; rewrite ?Hm, ?Hi, ?Hq; done. }
  destruct Hf as [Hm Hi]. split; [by rewrite Hm, Hi | done].
Qed.

Lemma run_step_coalesced s st : coalesced s → coalesced (run_step s st).
Proof.
  intros Hs. destruct st; simpl.
  - by apply makeReactive_coalesced.
  - by apply makeReactiveSubtree_coalesced.
  - by apply deliver_coalesced.
  - destruct (drain_resets s Hs) as (Hq & Hi & Hm). split; rewrite ?Hq, ?Hi, ?Hm; done.
  - by apply destroy_coalesced.
Qed.

Lemma reachable_coalesced s : reachable s → coalesced s.
Proof. induction 1 as [|s st _ IH]; [done | by apply run_step_coalesced]. Qed.

(** X11.  The intent queue is flushed by one microtask: in every state a
    run reaches, one microtask is pending while [isUpdating] is set and
    none otherwise, a node in the queue always has that microtask pending,
    and the microtask leaves the queue empty and [isUpdating] reset. *)
Theorem one_microtask_flushes_the_queue (s : ReactiveDOM) :
  reachable s →
  microtasks s = (if isUpdating s then 1 else 0)%nat
  ∧ (updateQueue s ≠ [] → isUpdating s = true ∧ microtasks s = 1%nat)
  ∧ updateQueue (drain s) = [] ∧ isUpdating (drain s) = false
  ∧ microtasks (drain s) = 0%nat.
Proof.
  intros Hs%reachable_coalesced.
  destruct (drain_resets s Hs) as (Hq & Hi & Hm). destruct Hs as [H1 H2].
  split_and!; try done. intros Hne. specialize (H2 Hne). by rewrite H1, H2.
Qed.


(** *** [cleanupElement] *)

Lemma set_delete_twice {K} `{EqDecision K} (k : K) (l : list K) :
  JsSet.delete k (JsSet.delete k l) = JsSet.delete k l.
Proof.
  unfold JsSet.delete. rewrite list_filter_filter.
  apply list_filter_iff. tauto.
Qed.

(** X12.  [cleanupElement] is idempotent: a second call for the same
    element, be it tracked or not, leaves the state as the first call left
    it and disconnects nothing. *)
Theorem cleanupElement_twice (el : node) (s : ReactiveDOM) :
  cleanupElement el (cleanupElement el s) = cleanupElement el s.
Proof.
  unfold cleanupElement at 1.
  rewrite cleanupElement_observers, decide_True by done. simpl.
  unfold cleanupElement. simpl.
  destruct (JsMap.get el (observers s)) as [hs|]; simpl;
    by rewrite !set_delete_twice.
Qed.

(** *** [makeReactive] on an element that is not tracked *)

Section MapSuffix.
Context {K V : Type} `{EqDecision K}.

Lemma map_set_app (k : K) (v : V) m1 m2 :
  k ∉ JsMap.keys m1 → JsMap.set k v (m1 ++ m2) = m1 ++ JsMap.set k v m2.
Proof.
  unfold JsMap.keys. induction m1 as [|[k' v'] m1 IH]; csimpl; [done|].
  intros [Hne Hk]%not_elem_of_cons.
  rewrite decide_False by done. by rewrite IH.
Qed.

Lemma map_delete_app (k : K) (m1 m2 : list (K * V)) :
  k ∉ JsMap.keys m1 → JsMap.delete k (m1 ++ m2) = m1 ++ JsMap.delete k m2.
Proof.
  unfold JsMap.keys. induction m1 as [|[k' v'] m1 IH]; csimpl; [done|].
  intros [Hne Hk]%not_elem_of_cons.
  rewrite decide_False by done. by rewrite IH.
Qed.

Lemma map_get_app_fresh (k : K) (m1 m2 : list (K * V)) :
  k ∉ JsMap.keys m1 → JsMap.get k (m1 ++ m2) = JsMap.get k m2.
Proof.
  intros Hk%JsMap.get_None. by rewrite JsMap.get_app, Hk.
Qed.
End MapSuffix.

Lemma base_keys_bound s h :
  base s → (nextObserver s ≤ h)%nat → h ∉ JsMap.keys (connected s).
Proof.
  intros Hb Hle [[h' o] [-> Hin]]%list_elem_of_fmap.
  apply (inv_fresh s Hb) in Hin. simpl in *. lia.
Qed.

Lemma base_not_listed s el :
  base s → el ∉ reactiveElements s → el ∉ JsMap.keys (observers s).
Proof. intros Hb Hel. apply JsMap.get_None. by apply (inv_keys s Hb). Qed.

Lemma observe_with_observers_fresh c el options cfg s pre hs :
  observers s = pre ++ [(el, hs)] → el ∉ JsMap.keys pre →
  observers (observe_with c el options cfg s)
  = pre ++ [(el, hs ++ [nextObserver s])].
Proof.
  intros Ho Hel. unfold observe_with, addObserver. simpl. rewrite Ho.
  rewrite map_get_app_fresh, map_set_app by done. simpl.
  by rewrite !decide_True.
Qed.

(** What [makeReactive] does for an element that is not tracked: three
    handles, one per concern, the entry of the element, and the log line. *)
Lemma makeReactive_fresh el options s :
  base s → el ∉ reactiveElements s →
  let h := nextObserver s in
  let s' := makeReactive el options s in
  reactiveElements s' = reactiveElements s ++ [el]
  ∧ observers s' = observers s ++ [(el, [h; S h; S (S h)])]
  ∧ connected s'
    = connected s
      ++ [ (h, {| o_concern := Attributes; o_owner := el; o_options := options |});
           (S h, {| o_concern := Content; o_owner := el; o_options := options |});
           (S (S h), {| o_concern := Children; o_owner := el; o_options := options |}) ]
  ∧ nextObserver s' = S (S (S h))
  ∧ updateQueue s' = updateQueue s ∧ isUpdating s' = isUpdating s
  ∧ microtasks s' = microtasks s.
Proof.
  intros Hb Hel h s'. subst s'. unfold makeReactive.
  pose proof Hel as Hhas. apply has_false in Hhas. rewrite Hhas.
  set (s1 := set_reactiveElements (JsSet.add el (reactiveElements s)) s).
  assert (Hb1 : base s1).
  { destruct Hb as [F1 F2 F3 F4 F5]. split; try done.
    intros e He. apply F5. intros Hin. apply He. subst s1. simpl.
    apply JsSet.elem_of_add. by right. }
  assert (Hel1 : el ∈ reactiveElements s1).
  { subst s1. simpl. apply JsSet.elem_of_add. by left. }
  set (s2 := observe_attributes el options s1).
  assert (Hb2 : base s2) by by apply observe_with_base.
  set (s3 := observeContent el options s2).
  assert (Hb3 : base s3) by by apply observe_with_base.
  set (s4 := observeChildren el options s3).
  assert (Hk : el ∉ JsMap.keys (observers s)) by by apply base_not_listed.
  assert (Ho2 : observers s2 = observers s ++ [(el, [h])]).
  { subst s2. unfold observe_attributes, observe_with, addObserver. simpl.
    apply JsMap.get_None in Hk as Hg. rewrite Hg. simpl.
    by rewrite JsMap.set_fresh. }
  assert (Ho3 : observers s3 = observers s ++ [(el, [h; S h])]).
  { subst s3. unfold observeContent.
    by rewrite (observe_with_observers_fresh _ _ _ _ _ _ _ Ho2 Hk). }
  assert (Ho4 : observers s4 = observers s ++ [(el, [h; S h; S (S h)])]).
  { subst s4. unfold observeChildren.
    by rewrite (observe_with_observers_fresh _ _ _ _ _ _ _ Ho3 Hk). }
  assert (Hc4 : connected s4
    = connected s
      ++ [ (h, {| o_concern := Attributes; o_owner := el; o_options := options |});
           (S h, {| o_concern := Content; o_owner := el; o_options := options |});
           (S (S h), {| o_concern := Children; o_owner := el; o_options := options |}) ]).
  { subst s4. unfold observeChildren. rewrite observe_with_connected by done.
    subst s3. unfold observeContent. rewrite observe_with_connected by done.
    subst s2. unfold observe_attributes. rewrite observe_with_connected by done.
    by rewrite <- !app_assoc. }
  split_and!; try done.
  simpl. unfold JsSet.add. by rewrite Hhas.
Qed.

(** X13.  [cleanupElement] undoes the bookkeeping of [makeReactive]: for
    an element that was neither tracked nor queued, [makeReactive] followed
    by [cleanupElement] leaves the tracking set, the handle lists, the
    observing handles and the intent queue as they were, and disconnects
    the three handles that were attached, no other. *)
Theorem cleanupElement_undoes_makeReactive
    (s : ReactiveDOM) (el : node) (options : ReactiveOptions) :
  reachable s → el ∉ reactiveElements s → el ∉ updateQueue s →
  let s1 := makeReactive el options s in
  let s2 := cleanupElement el s1 in
  let h := nextObserver s in
  reactiveElements s2 = reactiveElements s
  ∧ observers s2 = observers s
  ∧ connected s2 = connected s
  ∧ updateQueue s2 = updateQueue s
  ∧ new_effects s1 s2 = [Disconnect h; Disconnect (S h); Disconnect (S (S h))].
Proof.
  intros [Hb _]%reachable_inv Hel Hq s1 s2 h.
  destruct (makeReactive_fresh el options s Hb Hel)
    as (Hr1 & Ho1 & Hc1 & _ & Hq1 & _).
  fold s1 h in Hr1, Ho1, Hc1, Hq1.
  assert (Hk : el ∉ JsMap.keys (observers s)) by by apply base_not_listed.
  assert (Hg : JsMap.get el (observers s1) = Some [h; S h; S (S h)]).
  { rewrite Ho1, map_get_app_fresh by done. simpl. by rewrite decide_True. }
  assert (Hfilter : ∀ l : list node, el ∉ l → JsSet.delete el (l ++ [el]) = l).
  { intros l Hl. unfold JsSet.delete. rewrite filter_app.
    rewrite filter_cons_False, filter_nil, app_nil_r by (by intros ?).
    apply filter_all, Forall_forall. by intros x Hx ->. }
  split_and!.
  - subst s2. unfold cleanupElement. rewrite Hg. simpl.
    rewrite Hr1. by apply Hfilter.
  - subst s2. unfold cleanupElement. rewrite Hg. simpl.
    rewrite Ho1, map_delete_app by done. simpl.
    by rewrite decide_True, app_nil_r.
  - subst s2. unfold cleanupElement. rewrite Hg. simpl. rewrite Hc1.
    rewrite !map_delete_app by (apply base_keys_bound; [done | subst h; lia]).
    simpl. repeat (rewrite ?decide_True by done; rewrite ?decide_False by lia; simpl).
    by rewrite app_nil_r.
  - subst s2. unfold cleanupElement. rewrite Hg. simpl.
    rewrite Hq1. unfold JsSet.delete. apply filter_all, Forall_forall. by intros x Hx ->.
  - unfold new_effects. subst s2. rewrite cleanupElement_trace, Hg.
    by rewrite drop_app_length.
Qed.


(** *** [makeReactiveSubtree] *)

(** X14.  After [makeReactiveSubtree(root)] the tracked elements are the
    root, the elements [root.querySelectorAll('*')] returned, and the
    elements that were tracked before, which keep their place at the front
    of the insertion order that [getReactiveElements] returns. *)
Theorem makeReactiveSubtree_tracks_the_subtree
    (doc : document) (root : node) (options : ReactiveOptions) (s : ReactiveDOM) :
  let s' := makeReactiveSubtree doc root options s in
  (∀ e, isReactive e s' = true
        ↔ e = root ∨ e ∈ querySelectorAll doc root ∨ isReactive e s = true)
  ∧ getReactiveElements s `prefix_of` getReactiveElements s'.
Proof.
  intros s'. split.
  - intros e. unfold isReactive. rewrite !has_true.
    apply makeReactiveSubtree_reactiveElements.
  - subst s'. unfold makeReactiveSubtree, getReactiveElements. simpl.
    assert (Hone : ∀ el s0, reactiveElements s0
                            `prefix_of` reactiveElements (makeReactive el options s0)).
    { intros el s0. unfold makeReactive.
      destruct (JsSet.has el (reactiveElements s0)) eqn:E; [done|].
      simpl. unfold JsSet.add. rewrite E. by apply prefix_app_r. }
    etrans; [apply (Hone root)|].
    generalize (makeReactive root options s). intros s0.
    revert s0. induction (querySelectorAll doc root) as [|el els IH]; intros s0;
      simpl; [done|].
    etrans; [apply (Hone el) | apply IH].
Qed.

Lemma makeReactive_new_element_handles el options s e :
  base s →
  handles_of (makeReactive el options s) e NewElements
  = handles_of s e NewElements.
Proof.
  intros Hb. destruct (decide (el ∈ reactiveElements s)) as [Hel|Hel].
  - by rewrite makeReactive_already.
  - destruct (makeReactive_fresh el options s Hb Hel) as (_ & _ & Hc & _).
    unfold handles_of. rewrite Hc, filter_app.
    rewrite !filter_cons_False, filter_nil, app_nil_r by (by intros [_ ?]).
    done.
Qed.

(** X15.  [makeReactiveSubtree] is not idempotent: in every state a run
    reaches, each call attaches one more observer of new elements to the
    root, also when the root and its subtree are tracked already. *)
Theorem makeReactiveSubtree_adds_an_observer
    (doc : document) (root : node) (options : ReactiveOptions) (s : ReactiveDOM) :
  reachable s →
  let s' := makeReactiveSubtree doc root options s in
  ∃ h, handles_of s' root NewElements
       = handles_of s root NewElements
         ++ [(h, {| o_concern := NewElements; o_owner := root;
                    o_options := options |})]
       ∧ Observe h root
           {| cfg_attributes := false; cfg_attributeFilter := None;
              cfg_characterData := false; cfg_childList := true;
              cfg_subtree := true |} ∈ new_effects s s'.
Proof.
  intros Hinv%reachable_inv s'. subst s'. unfold makeReactiveSubtree.
  set (s1 := makeReactive root options s).
  assert (H1 : inv s1) by by apply makeReactive_inv.
  assert (Hh1 : handles_of s1 root NewElements = handles_of s root NewElements).
  { apply makeReactive_new_element_handles, Hinv. }
  assert (He1 : emits (λ _, True) s s1).
  { destruct (makeReactive_emits (λ _, True) root options s) as (es & Hes & _).
    exists es. split; [done | by apply Forall_true]. }
  clearbody s1. revert s1 H1 Hh1 He1.
  induction (querySelectorAll doc root) as [|el els IH]; intros s1 H1 Hh1 He1;
    simpl.
  - exists (nextObserver s1). split.
    + unfold observeNewElements. rewrite observe_with_handles_of by apply H1.
      by rewrite Hh1, decide_True.
    + destruct He1 as (es & Hes & _). unfold new_effects, observeNewElements.
      simpl. rewrite Hes, <- app_assoc, drop_app_length.
      rewrite elem_of_app, list_elem_of_singleton. by right.
  - apply IH.
    + by apply makeReactive_inv.
    + rewrite makeReactive_new_element_handles by apply H1. done.
    + eapply emits_trans; [exact He1|].
      destruct (makeReactive_emits (λ _, True) el options s1) as (es & Hes & _).
      exists es. split; [done | by apply Forall_true].
Qed.

(** *** The detail of an attribute change *)

(** What the [detail] of an event says about an attribute: both values are
    the same. *)
Definition reports_one_value (e : effect) : Prop :=
  match e with
  | DispatchEvent _ _ (DAttribute _ newValue oldValue) => oldValue = newValue
  | _ => True
  end.

Lemma emits_bookkeeping s s' :
  emits (ok (λ _, False)) s s' → emits reports_one_value s s'.
Proof.
  intros (es & Hes & Hall). exists es. split; [done|].
  eapply Forall_impl; [exact Hall|]. intros e [_ He]. by destruct e.
Qed.

Lemma queueUpdate_one_value el s : emits reports_one_value s (queueUpdate el s).
Proof. apply emits_bookkeeping, queueUpdate_emits. Qed.

Lemma for_elements_one_value f nodes s :
  (∀ el s, emits reports_one_value s (f el s)) →
  emits reports_one_value s (for_elements f nodes s).
Proof.
  intros Hf. unfold for_elements.
  apply (emits_foldl _ _ (λ _, True)); [|done].
  intros s' [el b] _ _. split; [done|]. simpl.
  destruct b; [apply Hf | by apply emits_refl].
Qed.

Lemma on_mutation_one_value o doc s m :
  emits reports_one_value s (on_mutation o doc s m).
Proof.
  unfold on_mutation. destruct (o_concern o); case_decide;
    try by apply emits_refl.
  - unfold handleAttributeChange.
    apply emits_emit; [by repeat constructor | apply queueUpdate_one_value].
  - unfold handleContentChange.
    apply emits_emit; [by repeat constructor | apply queueUpdate_one_value].
  - eapply emits_trans; apply for_elements_one_value; intros el s0.
    + unfold handleElementAdded. apply emits_emit; [by repeat constructor|].
      eapply emits_trans; [|apply queueUpdate_one_value].
      apply emits_bookkeeping, makeReactive_emits.
    + unfold handleElementRemoved. apply emits_emit; [by repeat constructor|].
      eapply emits_trans; [|apply queueUpdate_one_value].
      apply emits_bookkeeping, cleanupElement_emits.
  - apply for_elements_one_value. intros el s0.
    apply emits_bookkeeping, makeReactiveSubtree_emits.
Qed.

Lemma run_step_one_value s st : emits reports_one_value s (run_step s st).
Proof.
  destruct st; simpl.
  - apply emits_bookkeeping, makeReactive_emits.
  - apply emits_bookkeeping, makeReactiveSubtree_emits.
  - unfold deliver. destruct (JsMap.get h (connected s)) as [o|];
      [|by apply emits_refl].
    apply (emits_foldl _ _ (λ _, True)); [|done].
    intros s' m _ _. split; [done | apply on_mutation_one_value].
  - unfold drain. destruct (microtasks s) as [|k]; [by apply emits_refl|].
    eexists. split; [apply (processUpdateQueue_trace (set_microtasks k s))|].
    apply Forall_fmap, Forall_true. by intros el.
  - apply emits_bookkeeping, destroy_emits.
Qed.

(** X16.  The [oldValue] of an ["alphabet:attribute-change"] event is not
    the old value: [handleAttributeChange] reads it from the element when
    the observer runs, as the caller read [newValue], so in every event the
    layer ever dispatches the two are the same. *)
Theorem attribute_change_reports_one_value
    (s : ReactiveDOM) (el : node) (name attributeName : string)
    (newValue oldValue : option string) :
  reachable s →
  DispatchEvent el name (DAttribute attributeName newValue oldValue) ∈ trace s →
  oldValue = newValue.
Proof.
  intros Hs Hin.
  assert (Hall : Forall reports_one_value (trace s)).
  { clear Hin. induction Hs as [|s st _ IH]; [constructor|].
    destruct (run_step_one_value s st) as (es & -> & Hes).
    by apply Forall_app. }
  rewrite Forall_forall in Hall. apply (Hall _ Hin).
Qed.

(** *** The theorems at concrete states *)

Definition two_elements : ReactiveDOM :=
  run init [MakeReactive 1%nat no_options; MakeReactive 2%nat no_options].

Lemma two_elements_reachable : reachable two_elements.
Proof.
  apply (reachable_step _ (MakeReactive 2%nat no_options)).
  apply (reachable_step _ (MakeReactive 1%nat no_options)), reachable_init.
Qed.

(** A document in which every attribute holds ["v"]. *)
Definition constant_document : document :=
  {| getAttribute := λ _ _, Some "v"; querySelectorAll := λ _, [] |}.

Definition after_attribute_change : ReactiveDOM :=
  run_step two_elements
    (Deliver 0%nat [attribute_changed 1%nat "x"] constant_document).

Lemma after_attribute_change_reachable : reachable after_attribute_change.
Proof. apply reachable_step, two_elements_reachable. Qed.

Lemma destroy_silences_the_layer_witness :
  reachable two_elements ∧ connected two_elements ≠ []
  ∧ connected (destroy two_elements) = [].
Proof.
  split_and!; [exact two_elements_reachable | discriminate |].
  apply (destroy_silences_the_layer _ two_elements_reachable).
Defined.

Lemma one_microtask_flushes_the_queue_witness :
  reachable after_attribute_change
  ∧ updateQueue after_attribute_change = [1%nat]
  ∧ microtasks after_attribute_change = 1%nat
  ∧ updateQueue (drain after_attribute_change) = [].
Proof.
  destruct (one_microtask_flushes_the_queue _ after_attribute_change_reachable)
    as (_ & H1 & H2 & _).
  assert (Hq : updateQueue after_attribute_change ≠ []) by discriminate.
  split_and!; [exact after_attribute_change_reachable | reflexivity | | exact H2].
  exact (proj2 (H1 Hq)).
Defined.

Lemma cleanupElement_undoes_makeReactive_witness :
  reachable two_elements
  ∧ (3%nat ∉ reactiveElements two_elements)
  ∧ (3%nat ∉ updateQueue two_elements)
  ∧ connected (cleanupElement 3%nat (makeReactive 3%nat no_options two_elements))
    = connected two_elements.
Proof.
  assert (H1 : 3%nat ∉ reactiveElements two_elements).
  { apply (bool_decide_unpack _). reflexivity. }
  assert (H2 : 3%nat ∉ updateQueue two_elements).
  { apply (bool_decide_unpack _). reflexivity. }
  split_and!; [exact two_elements_reachable | exact H1 | exact H2 |].
  apply (cleanupElement_undoes_makeReactive _ 3%nat no_options
           two_elements_reachable H1 H2).
Defined.

Lemma makeReactiveSubtree_adds_an_observer_witness :
  reachable two_elements
  ∧ ∃ h, handles_of (makeReactiveSubtree empty_document 1%nat no_options two_elements)
           1%nat NewElements
         = [(h, {| o_concern := NewElements; o_owner := 1%nat;
                   o_options := no_options |})].
Proof.
  split; [exact two_elements_reachable|].
  destruct (makeReactiveSubtree_adds_an_observer empty_document 1%nat no_options
              _ two_elements_reachable) as (h & Hh & _).
  exists h. exact Hh.
Defined.

Lemma attribute_change_reports_one_value_witness :
  reachable after_attribute_change
  ∧ DispatchEvent 1%nat "alphabet:attribute-change"
      (DAttribute "x" (Some "v") (Some "v")) ∈ trace after_attribute_change
  ∧ Some "v" = Some "v".
Proof.
  assert (Hin : DispatchEvent 1%nat "alphabet:attribute-change"
                  (DAttribute "x" (Some "v") (Some "v"))
                ∈ trace after_attribute_change).
  { vm_compute.
    repeat first [apply list_elem_of_here | apply list_elem_of_further]. }
  split_and!; [exact after_attribute_change_reachable | exact Hin |].
  apply (attribute_change_reports_one_value _ _ _ _ _ _
           after_attribute_change_reachable Hin).
Defined.


(** *** A child added under a reactive element *)

(** X29.  When an element that is not tracked is added under a reactive
    element, the observer of the child list makes it reactive with the
    default options, whatever options its parent was made reactive with:
    it gets one handle per concern, each closed over [{}]; the parent is
    queued and ["alphabet:child-added"] is dispatched on the parent. *)
Theorem added_child_gets_default_options
    (s : ReactiveDOM) (h : nat) (o : observer) (el : node) (doc : document) :
  reachable s → JsMap.get h (connected s) = Some o → o_concern o = Children →
  el ∉ reactiveElements s →
  let s' := deliver h [child_added (o_owner o) el] doc s in
  isReactive el s' = true
  ∧ (∀ c, c ≠ NewElements →
       ∃ h', handles_of s' el c
             = [(h', {| o_concern := c; o_owner := el; o_options := no_options |})])
  ∧ o_owner o ∈ updateQueue s'
  ∧ DispatchEvent (o_owner o) "alphabet:child-added" (DElement el)
    ∈ new_effects s s'.
Proof.
  intros [Hb _]%reachable_inv Hget Hc Hel s'.
  assert (Hs' : s' = handleElementAdded (o_owner o) el s).
  { subst s'. unfold deliver. rewrite Hget. simpl. unfold on_mutation.
    by rewrite Hc. }
  destruct (makeReactive_fresh el no_options s Hb Hel)
    as (Hr & _ & Hconn & _).
  set (s1 := makeReactive el no_options s) in *.
  assert (Hframe : reactiveElements s' = reactiveElements s1
                   ∧ connected s' = connected s1
                   ∧ updateQueue s' = JsSet.add (o_owner o) (updateQueue s1)
                   ∧ ∃ es, trace s'
                           = trace s1 ++ es
                             ++ [DispatchEvent (o_owner o) "alphabet:child-added"
                                   (DElement el)]).
  { rewrite Hs'. unfold handleElementAdded, queueUpdate. fold s1. simpl.
    destruct (isUpdating s1); simpl; split_and!; try done.
    - by exists [].
    - exists [QueueMicrotask]. by rewrite <- app_assoc. }
  destruct Hframe as (Hr' & Hc' & Hq' & es & Ht').
  split_and!.
  - unfold isReactive. apply has_true. rewrite Hr', Hr.
    rewrite elem_of_app, list_elem_of_singleton. by right.
  - intros c Hne. unfold handles_of. rewrite Hc', Hconn, filter_app.
    fold (handles_of s el c). rewrite handles_of_not_reactive by done.
    destruct c; try done; eexists;
      repeat first [ rewrite filter_cons_True by done
                   | rewrite filter_cons_False by (by intros [_ ?]) ];
      by rewrite filter_nil.
  - rewrite Hq'. apply JsSet.elem_of_add. by left.
  - destruct (makeReactive_emits (λ _, True) el no_options s) as (es1 & Hes1 & _).
    fold s1 in Hes1. unfold new_effects.
    rewrite Ht', Hes1, <- !app_assoc, drop_app_length.
    rewrite !elem_of_app, list_elem_of_singleton. auto.
Qed.

Lemma added_child_gets_default_options_witness :
  let o := {| o_concern := Children; o_owner := 1%nat; o_options := no_options |} in
  reachable two_elements ∧ JsMap.get 2%nat (connected two_elements) = Some o
  ∧ (3%nat ∉ reactiveElements two_elements)
  ∧ isReactive 3%nat
      (deliver 2%nat [child_added 1%nat 3%nat] empty_document two_elements) = true.
Proof.
  assert (H1 : 3%nat ∉ reactiveElements two_elements).
  { apply (bool_decide_unpack _). reflexivity. }
  split_and!; [exact two_elements_reachable | reflexivity | exact H1 |].
  apply (added_child_gets_default_options two_elements 2%nat _ 3%nat
           empty_document two_elements_reachable eq_refl eq_refl H1).
Defined.

End Dom.

(** ** The change registry: [class ReactiveProxy]

    The data the registry wraps lives in a heap of objects.  An object has
    its own properties; an array also has its [length] and inherits the
    methods of [Array.prototype].  The methods every object inherits from
    [Object.prototype] are known by name only, and a run that would need
    more of the host than this (the [__proto__] accessor, the properties of
    a function, a call of a built-in other than [push] and [unshift], a
    proxy stored as a value) throws [Unmodelled].  Numbers are integers. *)

Module Proxy.

(** A heap location. *)
Abbreviation loc := nat (only parsing).

Inductive val :=
| VUndefined
| VNull
| VBool (b : bool)
| VNum (n : Z)
| VStr (s : string)
| VNative (name : string)
| VRef (l : loc).

#[global] Instance val_eq_dec : EqDecision val.
Proof. solve_decision. Defined.

Record obj := {
  is_array : bool;
  len : N;
  props : list (string * val) }.

Definition empty_object : obj := {| is_array := false; len := 0; props := [] |}.
Definition empty_array : obj := {| is_array := true; len := 0; props := [] |}.

(** An observer callback is a host function, known by its identity. *)
Definition ObserverCallback := nat.

(** What the code holds in its hands: a raw value, or one of the [Proxy]
    objects [createProxy] makes for the object at [l] under [path]. *)
Inductive pval :=
| Raw (v : val)
| Proxied (l : loc) (path : string).

(** The fields of the class ([proxy] is [createProxy target ""], see
    [getProxy]), followed by the host: the heap, the calls the observers
    received, tagged with the path they were notified for, and what was
    logged by [console.error]. *)
Record ReactiveProxy := {
  observers : list (string * list ObserverCallback);
  target : val;
  heap : list obj;
  calls : list (string * ObserverCallback * val * val);
  console : list (string * exn) }.

Definition set_observers v (s : ReactiveProxy) : ReactiveProxy :=
  {| observers := v; target := target s; heap := heap s; calls := calls s;
     console := console s |}.
Definition set_target v (s : ReactiveProxy) : ReactiveProxy :=
  {| observers := observers s; target := v; heap := heap s; calls := calls s;
     console := console s |}.
Definition set_heap v (s : ReactiveProxy) : ReactiveProxy :=
  {| observers := observers s; target := target s; heap := v; calls := calls s;
     console := console s |}.
Definition log_call c (s : ReactiveProxy) : ReactiveProxy :=
  {| observers := observers s; target := target s; heap := heap s;
     calls := calls s ++ [c]; console := console s |}.
Definition log_error e (s : ReactiveProxy) : ReactiveProxy :=
  {| observers := observers s; target := target s; heap := heap s;
     calls := calls s; console := console s ++ [e] |}.

(** *** Strings: paths and property keys *)

(** [path.split('.')] *)
Fixpoint split_dot (s : string) : list string :=
  match s with
  | EmptyString => [""]
  | String c s' =>
      if Ascii.eqb c "."%char then "" :: split_dot s'
      else match split_dot s' with
           | k :: ks => String c k :: ks
           | [] => [String c ""]
           end
  end.

Definition in_range (lo hi : nat) (c : ascii) : bool :=
  (lo <=? nat_of_ascii c)%nat && (nat_of_ascii c <=? hi)%nat.

(** [\d] *)
Definition is_digit (c : ascii) : bool := in_range 48 57 c.

(** [\w] *)
Definition is_word_char (c : ascii) : bool :=
  in_range 48 57 c || in_range 65 90 c || in_range 97 122 c
  || (nat_of_ascii c =? 95)%nat.

(** The longest prefix of characters that satisfy [p], and the rest. *)
Fixpoint span (p : ascii → bool) (s : string) : string * string :=
  match s with
  | EmptyString => ("", "")
  | String c s' =>
      if p c then let '(a, b) := span p s' in (String c a, b)
      else ("", s)
  end.

(** [key.match(/^(\w+)\[(\d+)\]$/)]: the two groups. *)
Definition arrayMatch (key : string) : option (string * string) :=
  let '(arrayName, rest) := span is_word_char key in
  match rest with
  | String c rest1 =>
      let '(index, rest2) := span is_digit rest1 in
      if Ascii.eqb c "["%char && negb (String.eqb arrayName "")
         && negb (String.eqb index "") && String.eqb rest2 "]"
      then Some (arrayName, index)
      else None
  | EmptyString => None
  end.

Fixpoint parse_digits (acc : N) (s : string) : option N :=
  match s with
  | EmptyString => Some acc
  | String c s' =>
      if is_digit c then parse_digits (10 * acc + (N_of_ascii c - 48))%N s'
      else None
  end.

(** [ToString(n)] *)
Definition to_key (n : N) : string := pretty n.

(** An array index: the canonical decimal form of a number below 2^32 - 1. *)
Definition is_index (key : string) : option N :=
  match key with
  | EmptyString => None
  | _ =>
      match parse_digits 0 key with
      | Some n =>
          if String.eqb (to_key n) key && (n <? 4294967295)%N then Some n
          else None
      | None => None
      end
  end.

(** The keys [array.length = n] keeps. *)
Definition kept_by_length (n : N) (key : string) : bool :=
  match is_index key with
  | Some i => (i <? n)%N
  | None => true
  end.

(** [path ? `${path}.${prop}` : prop] *)
Definition join_path (path prop : string) : string :=
  if String.eqb path "" then prop else path +:+ "." +:+ prop.

(** *** Values *)

(** [ToBoolean] *)
Definition truthy (v : val) : bool :=
  match v with
  | VUndefined | VNull => false
  | VBool b => b
  | VNum n => negb (n =? 0)
  | VStr s => negb (String.eqb s "")
  | VNative _ | VRef _ => true
  end.

(** [typeof v === 'object' && v !== null] *)
Definition is_object (v : val) : bool :=
  match v with
  | VRef _ => true
  | _ => false
  end.

Definition ptruthy (p : pval) : bool :=
  match p with
  | Raw v => truthy v
  | Proxied _ _ => true
  end.

(** [typeof p === 'object'], which holds for [null]. *)
Definition typeof_object (p : pval) : bool :=
  match p with
  | Raw VNull | Raw (VRef _) | Proxied _ _ => true
  | Raw _ => false
  end.

(** [p == null] *)
Definition nullish (p : pval) : bool :=
  match p with
  | Raw VUndefined | Raw VNull => true
  | _ => false
  end.

(** [createProxy(target, path)] *)
Definition createProxy (v : val) (path : string) : pval :=
  match v with
  | VRef l => Proxied l path
  | _ => Raw v
  end.

(** *** Raw property access *)

Definition array_prototype_names : list string :=
  ["at"; "concat"; "copyWithin"; "entries"; "every"; "fill"; "filter"; "find";
   "findIndex"; "findLast"; "findLastIndex"; "flat"; "flatMap"; "forEach";
   "includes"; "indexOf"; "join"; "keys"; "lastIndexOf"; "map"; "pop"; "push";
   "reduce"; "reduceRight"; "reverse"; "shift"; "slice"; "some"; "sort";
   "splice"; "toLocaleString"; "toReversed"; "toSorted"; "toSpliced";
   "toString"; "unshift"; "values"; "with"].

Definition object_prototype_names : list string :=
  ["constructor"; "hasOwnProperty"; "isPrototypeOf"; "propertyIsEnumerable";
   "toLocaleString"; "toString"; "valueOf"; "__defineGetter__";
   "__defineSetter__"; "__lookupGetter__"; "__lookupSetter__"].

Definition own_get (o : obj) (prop : string) : option val :=
  if is_array o && String.eqb prop "length" then Some (VNum (Z.of_N (len o)))
  else JsMap.get prop (props o).

(** A property that is not an own property. *)
Definition inherited (array : bool) (prop : string) : res val :=
  if array && bool_decide (prop ∈ array_prototype_names)
  then Ok (VNative ("Array.prototype." +:+ prop))
  else if String.eqb prop "__proto__" then Throw (Unmodelled "__proto__")
  else if bool_decide (prop ∈ object_prototype_names)
  then Ok (VNative ("Object.prototype." +:+ prop))
  else Ok VUndefined.

Definition string_get (s prop : string) : res val :=
  if String.eqb prop "length" then Ok (VNum (Z.of_nat (String.length s)))
  else match is_index prop with
       | Some i =>
           match (if (i <? N.of_nat (String.length s))%N
                  then String.get (N.to_nat i) s else None) with
           | Some c => Ok (VStr (String c ""))
           | None => inherited false prop
           end
       | None => inherited false prop
       end.

(** [v[prop]] on a raw value. *)
Definition value_get (h : list obj) (v : val) (prop : string) : res val :=
  match v with
  | VUndefined | VNull => Throw (TypeError "Cannot read properties of undefined")
  | VRef l =>
      match h !! l with
      | Some o =>
          match own_get o prop with
          | Some x => Ok x
          | None => inherited (is_array o) prop
          end
      | None => Throw (Unmodelled "dangling reference")
      end
  | VStr s => string_get s prop
  | VBool _ | VNum _ | VNative _ => inherited false prop
  end.

(** [array.length = n]: the elements from [n] on are deleted. *)
Definition set_length (n : N) (o : obj) : obj :=
  {| is_array := true; len := n;
     props := filter (λ kv, kept_by_length n kv.1 = true) (props o) |}.

(** [o[prop] = x] on a heap object, in strict mode. *)
Definition object_set (o : obj) (prop : string) (x : val) : res obj :=
  if String.eqb prop "__proto__" then Throw (Unmodelled "__proto__")
  else if is_array o then
    if String.eqb prop "length" then
      match x with
      | VNum n =>
          if (0 <=? n) && (n <? 4294967296) then Ok (set_length (Z.to_N n) o)
          else Throw (RangeError "Invalid array length")
      | _ => Throw (Unmodelled "array length from a value that is not a number")
      end
    else
      Ok {| is_array := true;
            len := match is_index prop with
                   | Some i => N.max (len o) (N.succ i)
                   | None => len o
                   end;
            props := JsMap.set prop x (props o) |}
  else
    Ok {| is_array := false; len := len o; props := JsMap.set prop x (props o) |}.

(** [delete o[prop]] on a heap object, in strict mode. *)
Definition object_delete (o : obj) (prop : string) : res obj :=
  if is_array o && String.eqb prop "length"
  then Throw (TypeError "Cannot delete property 'length'")
  else Ok {| is_array := is_array o; len := len o;
             props := JsMap.delete prop (props o) |}.

(** *** Heap operations *)

Definition lift {A} (f : ReactiveProxy → res A) : M ReactiveProxy A :=
  λ s, (f s, s).

(** [v[prop]] *)
Definition raw_get (v : val) (prop : string) : M ReactiveProxy val :=
  lift (λ s, value_get (heap s) v prop).

Definition lookup_obj (l : loc) : M ReactiveProxy obj :=
  lift (λ s, match heap s !! l with
             | Some o => Ok o
             | None => Throw (Unmodelled "dangling reference")
             end).

(** An object literal, [{}] or [[]]. *)
Definition alloc (o : obj) : M ReactiveProxy loc :=
  λ s, (Ok (length (heap s)), set_heap (heap s ++ [o]) s).

Definition update_obj (l : loc) (f : obj → res obj) : M ReactiveProxy unit :=
  o ← lookup_obj l;
  match f o with
  | Ok o' => modify (λ s, set_heap (<[l := o']> (heap s)) s)
  | Throw e => throw e
  end.

(** [v[prop] = x] on a raw value, in strict mode. *)
Definition raw_set (v : val) (prop : string) (x : val) : M ReactiveProxy unit :=
  match v with
  | VRef l => update_obj l (λ o, object_set o prop x)
  | VUndefined | VNull => throw (TypeError "Cannot set properties of undefined")
  | VNative _ => throw (Unmodelled "property of a function")
  | VBool _ | VNum _ | VStr _ => throw (TypeError "Cannot create property on a primitive")
  end.

(** [delete v[prop]] on a raw value, in strict mode. *)
Definition raw_delete (v : val) (prop : string) : M ReactiveProxy bool :=
  match v with
  | VRef l => update_obj l (λ o, object_delete o prop);; mret true
  | VUndefined | VNull => throw (TypeError "Cannot convert undefined to object")
  | VNative _ => throw (Unmodelled "property of a function")
  | VBool _ | VNum _ | VStr _ => mret true
  end.

(** [Array.isArray(obj)] *)
Definition isArray (v : val) : M ReactiveProxy bool :=
  match v with
  | VRef l => o ← lookup_obj l; mret (is_array o)
  | _ => mret false
  end.

(** *** The class *)

Section Callbacks.
(** What an observer callback does when called: [None] when it returns,
    [Some e] when it throws [e]. *)
Variable callback_throws : ObserverCallback → val → val → option exn.

Definition call_callback (path : string) (cb : ObserverCallback)
    (value oldValue : val) : M ReactiveProxy unit :=
  modify (log_call (path, cb, value, oldValue));;
  match callback_throws cb value oldValue with
  | Some e => throw e
  | None => mret tt
  end.

(** [notify(path, value, oldValue)] *)
Definition notify (path : string) (value oldValue : val) : M ReactiveProxy unit :=
  registry ← gets observers;
  match JsMap.get path registry with
  | Some cbs =>
      forEach cbs (λ cb,
        try_catch (call_callback path cb value oldValue)
                  (λ e, modify (log_error (path, e))))
  | None => mret tt
  end.

(** The [get] trap of [createProxy]. *)
Definition get_trap (l : loc) (path prop : string) : M ReactiveProxy pval :=
  value ← raw_get (VRef l) prop;
  mret (createProxy value (join_path path prop)).

(** The [set] trap of [createProxy]; the result is what the trap returns,
    as a boolean.  The array proxy of [createArrayProxy] has no [set]
    trap, so [arrayProxy[prop] = value] writes to the array itself. *)
Definition set_trap (l : loc) (path prop : string) (value : val)
    : M ReactiveProxy bool :=
  oldValue ← raw_get (VRef l) prop;
  array ← isArray (VRef l);
  if array : bool then
    raw_set (VRef l) prop value;;
    mret (truthy value)
  else
    raw_set (VRef l) prop value;;
    notify (join_path path prop) value oldValue;;
    (if String.eqb path "" then mret tt else notify path (VRef l) (VRef l));;
    mret true.

(** The [deleteProperty] trap of [createProxy]. *)
Definition delete_trap (l : loc) (path prop : string) : M ReactiveProxy bool :=
  oldValue ← raw_get (VRef l) prop;
  deleted ← raw_delete (VRef l) prop;
  (if deleted : bool then notify (join_path path prop) VUndefined oldValue
   else mret tt);;
  mret deleted.

(** [p[prop]] *)
Definition pget (p : pval) (prop : string) : M ReactiveProxy pval :=
  match p with
  | Proxied l path => get_trap l path prop
  | Raw v => x ← raw_get v prop; mret (Raw x)
  end.

(** [p[prop] = value] in strict mode: a trap that returns a falsy value
    makes the assignment throw. *)
Definition pset (p : pval) (prop : string) (value : val) : M ReactiveProxy unit :=
  match p with
  | Proxied l path =>
      ok ← set_trap l path prop value;
      if ok : bool then mret tt
      else throw (TypeError "'set' on proxy: trap returned falsish")
  | Raw v => raw_set v prop value
  end.

(** [delete p[prop]] in strict mode. *)
Definition pdelete (p : pval) (prop : string) : M ReactiveProxy unit :=
  match p with
  | Proxied l path =>
      ok ← delete_trap l path prop;
      if ok : bool then mret tt
      else throw (TypeError "'deleteProperty' on proxy: trap returned falsish")
  | Raw v => raw_delete v prop;; mret tt
  end.

(** [observe(path, callback)] *)
Definition observe (path : string) (callback : ObserverCallback)
    (s : ReactiveProxy) : ReactiveProxy :=
  let cbs := default [] (JsMap.get path (observers s)) in
  set_observers (JsMap.set path (JsSet.add callback cbs) (observers s)) s.

(** The function [observe] returns. *)
Definition unsubscribe (path : string) (callback : ObserverCallback)
    (s : ReactiveProxy) : ReactiveProxy :=
  match JsMap.get path (observers s) with
  | Some cbs =>
      set_observers (JsMap.set path (JsSet.delete callback cbs) (observers s)) s
  | None => s
  end.

(** [getProxy()] *)
Definition getProxy (s : ReactiveProxy) : pval := createProxy (target s) "".

(** [getTarget()] *)
Definition getTarget (s : ReactiveProxy) : val := target s.

(** The loop and the last assignment of [set(path, value)], on the keys
    that are left. *)
Fixpoint set_keys (current : pval) (keys : list string) (value : val)
    : M ReactiveProxy unit :=
  match keys with
  | [] => pset current "undefined" value
  | [lastKey] => pset current lastKey value
  | key :: rest =>
      match arrayMatch key with
      | Some (arrayName, index) =>
          a ← pget current arrayName;
          (if ptruthy a then mret tt
           else arr ← alloc empty_array; pset current arrayName (VRef arr));;
          a ← pget current arrayName;
          e ← pget a index;
          (if ptruthy e then mret tt
           else a ← pget current arrayName;
                o ← alloc empty_object;
                pset a index (VRef o));;
          a ← pget current arrayName;
          next ← pget a index;
          set_keys next rest value
      | None =>
          c ← pget current key;
          replace ← (if ptruthy c
                     then c ← pget current key; mret (negb (typeof_object c))
                     else mret true);
          (if replace : bool
           then o ← alloc empty_object; pset current key (VRef o)
           else mret tt);;
          next ← pget current key;
          set_keys next rest value
      end
  end.

(** [set(path, value)] *)
Definition set (path : string) (value : val) : M ReactiveProxy unit :=
  p ← gets getProxy;
  set_keys p (split_dot path) value.

(** [obj?.[key]] *)
Definition opt_get (p : pval) (key : string) : M ReactiveProxy pval :=
  if nullish p then mret (Raw VUndefined) else pget p key.

(** The callback of the [reduce] in [get(path)]. *)
Definition get_key (p : pval) (key : string) : M ReactiveProxy pval :=
  match arrayMatch key with
  | Some (arrayName, index) => a ← opt_get p arrayName; opt_get a index
  | None => opt_get p key
  end.

Fixpoint get_keys (p : pval) (keys : list string) : M ReactiveProxy pval :=
  match keys with
  | [] => mret p
  | key :: rest => q ← get_key p key; get_keys q rest
  end.

(** [get(path)] *)
Definition get (path : string) : M ReactiveProxy pval :=
  p ← gets getProxy;
  get_keys p (split_dot path).

(** *** Built-in array methods called on a proxy *)

(** [ToLength(Get(O, "length"))] *)
Definition length_of (O : pval) : M ReactiveProxy N :=
  lenv ← pget O "length";
  match lenv with
  | Raw (VNum n) => mret (Z.to_N n)
  | _ => throw (Unmodelled "length that is not a number")
  end.

(** [Set(O, ToString(len), E, true)] for each argument. *)
Fixpoint set_items (O : pval) (k : N) (items : list val) : M ReactiveProxy N :=
  match items with
  | [] => mret k
  | E :: rest => pset O (to_key k) E;; set_items O (N.succ k) rest
  end.

(** [Array.prototype.push.call(O, ...items)] *)
Definition array_push (O : pval) (items : list val) : M ReactiveProxy val :=
  len ← length_of O;
  len' ← set_items O len items;
  pset O "length" (VNum (Z.of_N len'));;
  mret (VNum (Z.of_N len')).

(** [HasProperty(O, key)] for an index key: a proxy without a [has] trap
    asks its target. *)
Definition has_index (O : pval) (key : string) : M ReactiveProxy bool :=
  match O with
  | Proxied l _ | Raw (VRef l) =>
      o ← lookup_obj l; mret (JsMap.has key (props o))
  | Raw _ => mret false
  end.

(** The loop of [unshift] that moves the elements up, from index [k - 1]
    down to 0. *)
Fixpoint unshift_move (O : pval) (k : nat) (argCount : N) : M ReactiveProxy unit :=
  match k with
  | O => mret tt
  | S from =>
      let from_key := to_key (N.of_nat from) in
      let to := to_key (N.of_nat from + argCount) in
      fromPresent ← has_index O from_key;
      (if fromPresent : bool then
         fromValue ← pget O from_key;
         match fromValue with
         | Raw v => pset O to v
         | Proxied _ _ => throw (Unmodelled "a proxy stored as a value")
         end
       else pdelete O to);;
      unshift_move O from argCount
  end.

(** [Array.prototype.unshift.call(O, ...items)] *)
Definition array_unshift (O : pval) (items : list val) : M ReactiveProxy val :=
  len ← length_of O;
  let argCount := N.of_nat (length items) in
  (if (0 <? argCount)%N then
     unshift_move O (N.to_nat len) argCount;;
     set_items O 0 items;; mret tt
   else mret tt);;
  pset O "length" (VNum (Z.of_N (len + argCount)));;
  mret (VNum (Z.of_N (len + argCount))).

(** [p[name](...args)] *)
Definition call_method (p : pval) (name : string) (args : list val)
    : M ReactiveProxy val :=
  f ← pget p name;
  match f with
  | Raw (VNative native) =>
      if String.eqb native "Array.prototype.push" then array_push p args
      else if String.eqb native "Array.prototype.unshift" then array_unshift p args
      else throw (Unmodelled native)
  | _ => throw (TypeError "is not a function")
  end.

(** *** What the caller does with the wrapper *)

(** [p.k1.k2...] *)
Fixpoint navigate (p : pval) (ks : list string) : M ReactiveProxy pval :=
  match ks with
  | [] => mret p
  | k :: ks' => q ← pget p k; navigate q ks'
  end.

Inductive action :=
| ASet (path : string) (value : val)
| AGet (path : string)
| AWrite (ks : list string) (prop : string) (value : val)
| ADelete (ks : list string) (prop : string)
| ACall (ks : list string) (name : string) (args : list val)
| AObserve (path : string) (callback : ObserverCallback)
| AUnsubscribe (path : string) (callback : ObserverCallback)
| ANew (o : obj).

(** [rp.set(path, value)], [rp.get(path)], [proxy.k1...kn[prop] = value],
    [delete proxy.k1...kn[prop]], [proxy.k1...kn.name(...args)],
    [rp.observe(path, callback)], the function it returned, and an object
    literal the caller evaluates. *)
Definition run_action (a : action) : M ReactiveProxy pval :=
  match a with
  | ASet path value => set path value;; mret (Raw VUndefined)
  | AGet path => get path
  | AWrite ks prop value =>
      p ← gets getProxy; q ← navigate p ks; pset q prop value;;
      mret (Raw value)
  | ADelete ks prop =>
      p ← gets getProxy; q ← navigate p ks; pdelete q prop;;
      mret (Raw (VBool true))
  | ACall ks name args =>
      p ← gets getProxy; q ← navigate p ks; r ← call_method q name args;
      mret (Raw r)
  | AObserve path callback => modify (observe path callback);; mret (Raw VUndefined)
  | AUnsubscribe path callback =>
      modify (unsubscribe path callback);; mret (Raw VUndefined)
  | ANew o => l ← alloc o; mret (Raw (VRef l))
  end.

(** The caller goes on after an action that threw. *)
Definition run_actions (s : ReactiveProxy) (actions : list action) : ReactiveProxy :=
  foldl (λ s a, exec (run_action a) s) s actions.

(** *** Cloning and construction *)

(** [deepClone(obj)].  [depth] is the call depth the host still allows.
    The [for ... in] loop visits the keys in the order of [props]; the host
    visits integer keys first, which changes the order of allocation only. *)
Fixpoint deepClone (depth : nat) (v : val) : M ReactiveProxy val :=
  match depth with
  | O => throw (RangeError "Maximum call stack size exceeded")
  | S depth' =>
      match v with
      | VRef l =>
          o ← lookup_obj l;
          if is_array o then
            match JsMap.get "map" (props o) with
            | Some (VNative _) => throw (Unmodelled "a call of a built-in")
            | Some _ => throw (TypeError "obj.map is not a function")
            | None => mret tt
            end;;
            a ← alloc {| is_array := true; len := len o; props := [] |};
            forEach (seq 0 (N.to_nat (len o))) (λ k,
              let key := to_key (N.of_nat k) in
              match JsMap.get key (props o) with
              | Some item =>
                  c ← deepClone depth' item;
                  raw_set (VRef a) key c
              | None => mret tt
              end);;
            mret (VRef a)
          else
            cloned ← alloc empty_object;
            forEach (props o) (λ kv,
              match JsMap.get "hasOwnProperty" (props o) with
              | Some (VNative _) => throw (Unmodelled "a call of a built-in")
              | Some _ => throw (TypeError "obj.hasOwnProperty is not a function")
              | None =>
                  c ← deepClone depth' kv.2;
                  raw_set (VRef cloned) kv.1 c
              end);;
            mret (VRef cloned)
      | _ => mret v
      end
  end.

(** [constructor(target = {})] *)
Definition constructor (depth : nat) (input : val) : M ReactiveProxy unit :=
  input' ← match input with
           | VUndefined => l ← alloc empty_object; mret (VRef l)
           | _ => mret input
           end;
  t ← deepClone depth input';
  modify (set_target t).

(** The state of the host before [new ReactiveProxy(...)]. *)
Definition host (h : list obj) : ReactiveProxy :=
  {| observers := []; target := VUndefined; heap := h; calls := [];
     console := [] |}.

End Callbacks.

(** *** Invariants of computations

    [pres I m Q]: from a state that satisfies [I], the computation [m]
    ends, whether it returns or throws, in a state that satisfies [I], and
    what it returns satisfies [Q]. *)

Definition pres {A} (I : ReactiveProxy → Prop) (m : M ReactiveProxy A)
    (Q : A → Prop) : Prop :=
  ∀ s, I s → I (m s).2 ∧ ∀ a, (m s).1 = Ok a → Q a.

Section Pres.
Variable I : ReactiveProxy → Prop.

Lemma pres_ret {A} (a : A) (Q : A → Prop) : Q a → pres I (mret a) Q.
Proof. intros HQ s Hs. split; [done|]. by intros a' [= <-]. Qed.

Lemma pres_throw {A} e (Q : A → Prop) : pres I (throw e) Q.
Proof. intros s Hs. split; [done|]. by intros a. Qed.

Lemma pres_bind {A B} (m : M ReactiveProxy A) (k : A → M ReactiveProxy B) Q R :
  pres I m Q → (∀ a, Q a → pres I (k a) R) → pres I (m ≫= k) R.
Proof.
  intros Hm Hk s Hs. destruct (Hm s Hs) as [Hi Hq].
  unfold mbind, M_bind, bind. destruct (m s) as [[a|e] s']; simpl in *.
  - by apply Hk; [apply Hq|].
  - by split.
Qed.

Lemma pres_weaken {A} (m : M ReactiveProxy A) (Q R : A → Prop) :
  pres I m Q → (∀ a, Q a → R a) → pres I m R.
Proof. intros Hm HQR s Hs. destruct (Hm s Hs) as [Hi Hq]. split; auto. Qed.

Lemma pres_try_catch {A} (body : M ReactiveProxy A) handler Q :
  pres I body Q → (∀ e, pres I (handler e) Q) → pres I (try_catch body handler) Q.
Proof.
  intros Hb Hh s Hs. destruct (Hb s Hs) as [Hi Hq].
  unfold try_catch. destruct (body s) as [[a|e] s']; simpl in *.
  - by split.
  - by apply Hh.
Qed.

Lemma pres_forEach {A} (l : list A) (f : A → M ReactiveProxy unit) :
  (∀ x, x ∈ l → pres I (f x) (λ _, True)) → pres I (forEach l f) (λ _, True).
Proof.
  induction l as [|x l IH]; intros Hf; simpl.
  - by apply pres_ret.
  - apply (pres_bind _ _ (λ _, True)).
    + apply Hf, list_elem_of_here.
    + intros _ _. apply IH. intros y Hy. by apply Hf, list_elem_of_further.
Qed.

Lemma pres_lift {A} (f : ReactiveProxy → res A) (Q : A → Prop) :
  (∀ s a, I s → f s = Ok a → Q a) → pres I (lift f) Q.
Proof. intros Hf s Hs. split; [done|]. simpl. intros a. by apply Hf. Qed.

Lemma pres_gets {A} (f : ReactiveProxy → A) (Q : A → Prop) :
  (∀ s, I s → Q (f s)) → pres I (gets f) Q.
Proof. intros Hf s Hs. split; [done|]. simpl. intros a [= <-]. by apply Hf. Qed.

Lemma pres_modify (f : ReactiveProxy → ReactiveProxy) :
  (∀ s, I s → I (f s)) → pres I (modify f) (λ _, True).
Proof. intros Hf s Hs. split; [by apply Hf | done]. Qed.

Lemma pres_if {A} (b : bool) (m1 m2 : M ReactiveProxy A) Q :
  pres I m1 Q → pres I m2 Q → pres I (if b then m1 else m2) Q.
Proof. by destruct b. Qed.
End Pres.

(** *** Running the primitives *)

Lemma run_bind {A B} (m : M ReactiveProxy A) (k : A → M ReactiveProxy B) s a s' :
  m s = (Ok a, s') → (m ≫= k) s = k a s'.
Proof. intros Hm. unfold mbind, M_bind, bind. by rewrite Hm. Qed.

Lemma run_bind_throw {A B} (m : M ReactiveProxy A) (k : A → M ReactiveProxy B) s e s' :
  m s = (Throw e, s') → (m ≫= k) s = (Throw e, s').
Proof. intros Hm. unfold mbind, M_bind, bind. by rewrite Hm. Qed.

Lemma raw_get_run v prop s : raw_get v prop s = (value_get (heap s) v prop, s).
Proof. done. Qed.

Lemma lookup_obj_run l o s : heap s !! l = Some o → lookup_obj l s = (Ok o, s).
Proof. intros Hl. unfold lookup_obj, lift. by rewrite Hl. Qed.

Lemma isArray_run l o s :
  heap s !! l = Some o → isArray (VRef l) s = (Ok (is_array o), s).
Proof. intros Hl. unfold isArray. by rewrite (run_bind _ _ _ _ _ (lookup_obj_run _ _ _ Hl)). Qed.

Lemma update_obj_run l f o o' s :
  heap s !! l = Some o → f o = Ok o' →
  update_obj l f s = (Ok tt, set_heap (<[l := o']> (heap s)) s).
Proof.
  intros Hl Hf. unfold update_obj.
  rewrite (run_bind _ _ _ _ _ (lookup_obj_run _ _ _ Hl)). by rewrite Hf.
Qed.

Lemma update_obj_throw l f o e s :
  heap s !! l = Some o → f o = Throw e → update_obj l f s = (Throw e, s).
Proof.
  intros Hl Hf. unfold update_obj.
  rewrite (run_bind _ _ _ _ _ (lookup_obj_run _ _ _ Hl)). by rewrite Hf.
Qed.

(** *** Notification *)

Section NotifyFacts.
Variable callback_throws : ObserverCallback → val → val → option exn.

Definition subscribers (s : ReactiveProxy) (path : string) : list ObserverCallback :=
  default [] (JsMap.get path (observers s)).

(** The calls one notification makes. *)
Definition calls_for (path : string) (cbs : list ObserverCallback)
    (value oldValue : val) : list (string * ObserverCallback * val * val) :=
  (λ cb, (path, cb, value, oldValue)) <$> cbs.

(** The errors one notification logs. *)
Definition errors_for (path : string) (cbs : list ObserverCallback)
    (value oldValue : val) : list (string * exn) :=
  omap (λ cb, e ← callback_throws cb value oldValue; Some (path, e)) cbs.

Definition notified (path : string) (value oldValue : val)
    (s : ReactiveProxy) : ReactiveProxy :=
  {| observers := observers s; target := target s; heap := heap s;
     calls := calls s ++ calls_for path (subscribers s path) value oldValue;
     console := console s ++ errors_for path (subscribers s path) value oldValue |}.

Lemma notify_callbacks path cbs value oldValue s :
  forEach cbs (λ cb,
    try_catch (call_callback callback_throws path cb value oldValue)
              (λ e, modify (log_error (path, e)))) s
  = (Ok tt,
     {| observers := observers s; target := target s; heap := heap s;
        calls := calls s ++ calls_for path cbs value oldValue;
        console := console s ++ errors_for path cbs value oldValue |}).
Proof.
  revert s. induction cbs as [|cb cbs IH]; intros s; simpl.
  - unfold ret. destruct s. simpl. by rewrite !app_nil_r.
  - unfold bind, try_catch, call_callback, mbind, M_bind, bind, modify. simpl.
    unfold errors_for, calls_for. csimpl.
    destruct (callback_throws cb value oldValue) as [e|]; simpl;
      rewrite IH; simpl; by rewrite <- !app_assoc.
Qed.

Lemma notify_spec path value oldValue s :
  notify callback_throws path value oldValue s
  = (Ok tt, notified path value oldValue s).
Proof.
  unfold notify, notified, subscribers, mbind, M_bind, bind, gets. simpl.
  destruct (JsMap.get path (observers s)) as [cbs|].
  - by rewrite notify_callbacks.
  - unfold mret, M_ret, ret. destruct s. simpl.
    unfold calls_for, errors_for. simpl. by rewrite !app_nil_r.
Qed.
End NotifyFacts.

(** *** Writes through the proxy of a plain object *)

Lemma string_length_app (s1 s2 : string) :
  String.length (s1 +:+ s2) = (String.length s1 + String.length s2)%nat.
Proof. induction s1 as [|c s1 IH]; simpl; [done | by rewrite IH]. Qed.

Lemma join_path_ne path prop : path ≠ "" → join_path path prop ≠ path.
Proof.
  intros Hne Heq. unfold join_path in Heq.
  destruct (String.eqb path "") eqn:E; [by apply String.eqb_eq in E|].
  apply (f_equal String.length) in Heq.
  rewrite !string_length_app in Heq. simpl in Heq. lia.
Qed.

Lemma value_get_object h l o prop :
  h !! l = Some o → is_array o = false → prop ≠ "__proto__" →
  ∃ old, value_get h (VRef l) prop = Ok old.
Proof.
  intros Hl Ha Hp. simpl. rewrite Hl.
  destruct (own_get o prop) as [x|]; [by eexists|].
  unfold inherited. rewrite Ha. simpl.
  apply String.eqb_neq in Hp. rewrite Hp.
  case_bool_decide; by eexists.
Qed.

Section WriteFacts.
Variable callback_throws : ObserverCallback → val → val → option exn.

(** The state after the [set] trap ran for a plain object. *)
Definition written (l : loc) (o : obj) (path prop : string) (v old : val)
    (s : ReactiveProxy) : ReactiveProxy :=
  let o' := {| is_array := false; len := len o;
               props := JsMap.set prop v (props o) |} in
  let s1 := notified callback_throws (join_path path prop) v old
              (set_heap (<[l := o']> (heap s)) s) in
  if String.eqb path "" then s1
  else notified callback_throws path (VRef l) (VRef l) s1.

Lemma set_trap_object l o path prop v old s :
  heap s !! l = Some o → is_array o = false → prop ≠ "__proto__" →
  value_get (heap s) (VRef l) prop = Ok old →
  set_trap callback_throws l path prop v s
  = (Ok true, written l o path prop v old s).
Proof.
  intros Hl Ha Hp Hold. unfold set_trap, written.
  erewrite run_bind; [|by rewrite raw_get_run, Hold].
  erewrite run_bind; [|by apply isArray_run]. rewrite Ha.
  erewrite run_bind; cycle 1.
  { unfold raw_set. eapply update_obj_run; [done|].
    unfold object_set. apply String.eqb_neq in Hp. by rewrite Hp, Ha. }
  erewrite run_bind; [|apply notify_spec].
  destruct (String.eqb path ""); [done|].
  erewrite run_bind; [|apply notify_spec]. done.
Qed.

End WriteFacts.

(** *** The wrapper keeps to its own objects *)

(** A value that does not point below [n]. *)
Definition fresh_val (n : nat) (v : val) : Prop :=
  match v with
  | VRef l => (n ≤ l)%nat
  | _ => True
  end.

Definition fresh_obj (n : nat) (o : obj) : Prop :=
  Forall (fresh_val n) (props o).*2.

Definition fresh_pval (n : nat) (p : pval) : Prop :=
  match p with
  | Raw v => fresh_val n v
  | Proxied l _ => (n ≤ l)%nat
  end.

Definition fresh_action (n : nat) (a : action) : Prop :=
  match a with
  | ASet _ value | AWrite _ _ value => fresh_val n value
  | ACall _ _ args => Forall (fresh_val n) args
  | ANew o => fresh_obj n o
  | AGet _ | ADelete _ _ | AObserve _ _ | AUnsubscribe _ _ => True
  end.

(** The heap still starts with [h0], and from the target nothing below
    [length h0] can be reached: the objects from [length h0] on hold no
    reference to an object of [h0]. *)
Record separated (h0 : list obj) (s : ReactiveProxy) : Prop := {
  sep_old : take (length h0) (heap s) = h0;
  sep_closed : ∀ l o, (length h0 ≤ l)%nat → heap s !! l = Some o →
                      fresh_obj (length h0) o;
  sep_target : fresh_val (length h0) (target s) }.

Lemma separated_ext h0 s s' :
  heap s' = heap s → target s' = target s → separated h0 s → separated h0 s'.
Proof. intros Hh Ht [H1 H2 H3]. split; rewrite ?Hh, ?Ht; done. Qed.

Lemma separated_length h0 s : separated h0 s → (length h0 ≤ length (heap s))%nat.
Proof.
  intros [H1 _ _]. rewrite <- H1 at 1. rewrite length_take. lia.
Qed.

Lemma Forall_values_set {V} (P : V → Prop) (k : string) (v : V) m :
  P v → Forall P m.*2 → Forall P (JsMap.set k v m).*2.
Proof.
  intros Hv. induction m as [|[k' v'] m IH]; csimpl; intros Hm.
  - by repeat constructor.
  - apply Forall_cons in Hm as [Hv' Hm].
    destruct (decide (k' = k)); csimpl; constructor; auto.
Qed.

Lemma Forall_values_delete {V} (P : V → Prop) (k : string) m :
  Forall P m.*2 → Forall P (JsMap.delete k m).*2.
Proof.
  induction m as [|[k' v'] m IH]; csimpl; intros Hm; [done|].
  apply Forall_cons in Hm as [Hv' Hm].
  destruct (decide (k' = k)); csimpl; [auto | constructor; auto].
Qed.

Lemma Forall_values_get {V} (P : V → Prop) (k : string) (v : V) m :
  Forall P m.*2 → JsMap.get k m = Some v → P v.
Proof.
  intros Hm Hg. apply JsMap.get_Some_elem_of in Hg.
  rewrite Forall_forall in Hm. apply Hm.
  apply list_elem_of_fmap. by exists (k, v).
Qed.

Lemma inherited_fresh n array prop a : inherited array prop = Ok a → fresh_val n a.
Proof.
  unfold inherited. repeat case_match; intros [= <-]; done.
Qed.

Lemma object_set_fresh n o prop x o' :
  fresh_val n x → fresh_obj n o → object_set o prop x = Ok o' → fresh_obj n o'.
Proof.
  unfold object_set, fresh_obj. intros Hx Ho.
  repeat case_match; intros [= <-]; simpl; try by apply Forall_values_set.
  rewrite Forall_fmap, Forall_forall in Ho |- *.
  intros kv [_ Hin]%list_elem_of_filter. auto.
Qed.

Lemma object_delete_fresh n o prop o' :
  fresh_obj n o → object_delete o prop = Ok o' → fresh_obj n o'.
Proof.
  unfold object_delete, fresh_obj. intros Ho.
  case_match; intros [= <-]; simpl. by apply Forall_values_delete.
Qed.

Section Frame.
Variable callback_throws : ObserverCallback → val → val → option exn.
Variable h0 : list obj.

Let n := length h0.
Let I := separated h0.

Lemma raw_get_pres v prop :
  fresh_val n v → pres I (raw_get v prop) (fresh_val n).
Proof.
  intros Hv. apply pres_lift. intros s a Hs. unfold value_get.
  destruct v as [| | | |str| |l]; try by apply inherited_fresh.
  - done.
  - done.
  - unfold string_get.
    repeat case_match; try (by apply inherited_fresh); by intros [= <-].
  - destruct (heap s !! l) as [o|] eqn:El; [|done].
    destruct (own_get o prop) as [x|] eqn:Eo; [|by apply inherited_fresh].
    intros [= <-]. unfold own_get in Eo.
    destruct (is_array o && String.eqb prop "length"); [by injection Eo as <-|].
    eapply Forall_values_get; [|done]. by eapply (sep_closed h0 s Hs l).
Qed.

Lemma lookup_obj_pres l :
  (n ≤ l)%nat → pres I (lookup_obj l) (fresh_obj n).
Proof.
  intros Hl. apply pres_lift. intros s o Hs.
  destruct (heap s !! l) as [o'|] eqn:El; [|done].
  intros [= <-]. by eapply (sep_closed h0 s Hs l).
Qed.

Lemma alloc_pres o : fresh_obj n o → pres I (alloc o) (λ l, (n ≤ l)%nat).
Proof.
  intros Ho s Hs. pose proof (separated_length _ _ Hs) as Hlen.
  destruct Hs as [H1 H2 H3]. simpl. split.
  - split; simpl.
    + by rewrite take_app_le.
    + intros l o' Hl. rewrite lookup_app. destruct (heap s !! l) eqn:El.
      * intros [= <-]. by eapply H2.
      * destruct (l - length (heap s))%nat; [|done]. by intros [= <-].
    + done.
  - by intros a [= <-].
Qed.

Lemma update_obj_pres l (f : obj → res obj) :
  (n ≤ l)%nat →
  (∀ o o', fresh_obj n o → f o = Ok o' → fresh_obj n o') →
  pres I (update_obj l f) (λ _, True).
Proof.
  intros Hl Hf. unfold update_obj.
  eapply pres_bind; [by apply lookup_obj_pres|].
  intros o Ho. simpl. destruct (f o) as [o'|e] eqn:Ef; [|apply pres_throw].
  apply pres_modify. intros s [H1 H2 H3]. split; simpl.
  - by rewrite take_insert_ge.
  - intros l' o''. destruct (decide (l = l')) as [<-|Hne].
    + intros _ Hin. apply list_lookup_insert_Some in Hin as [(_ & <- & _)|[? _]];
        [by eapply Hf | done].
    + rewrite list_lookup_insert_ne by done. apply H2.
  - done.
Qed.

Lemma raw_set_pres v prop x :
  fresh_val n v → fresh_val n x → pres I (raw_set v prop x) (λ _, True).
Proof.
  intros Hv Hx. destruct v; simpl; try apply pres_throw.
  apply update_obj_pres; [done|]. intros o o' Ho. by apply object_set_fresh.
Qed.

Lemma raw_delete_pres v prop :
  fresh_val n v → pres I (raw_delete v prop) (λ _, True).
Proof.
  intros Hv. destruct v; simpl; try apply pres_throw; try by apply pres_ret.
  eapply pres_bind; [|intros; by apply pres_ret].
  apply update_obj_pres; [done|]. intros o o' Ho. by apply object_delete_fresh.
Qed.

Lemma isArray_pres v : pres I (isArray v) (λ _, True).
Proof.
  intros s Hs. split; [|done].
  destruct v; try done. simpl. unfold lookup_obj, lift, mbind, M_bind, bind.
  by destruct (heap s !! l).
Qed.

Lemma notify_pres path value oldValue :
  pres I (notify callback_throws path value oldValue) (λ _, True).
Proof.
  intros s Hs. rewrite notify_spec. simpl. split; [|done].
  by apply (separated_ext h0 s).
Qed.

Lemma get_trap_pres l path prop :
  (n ≤ l)%nat → pres I (get_trap l path prop) (fresh_pval n).
Proof.
  intros Hl. unfold get_trap.
  eapply pres_bind; [by apply raw_get_pres|].
  intros v Hv. apply pres_ret. by destruct v.
Qed.

Lemma set_trap_pres l path prop value :
  (n ≤ l)%nat → fresh_val n value →
  pres I (set_trap callback_throws l path prop value) (λ _, True).
Proof.
  intros Hl Hv. unfold set_trap.
  eapply pres_bind; [by apply raw_get_pres|]. intros old _.
  eapply pres_bind; [apply isArray_pres|]. intros array _.
  destruct array.
  - eapply pres_bind; [by apply raw_set_pres|]. intros _ _. by apply pres_ret.
  - eapply pres_bind; [by apply raw_set_pres|]. intros _ _.
    eapply pres_bind; [apply notify_pres|]. intros _ _.
    eapply (pres_bind _ _ _ (λ _, True)); [|intros; by apply pres_ret].
    apply pres_if; [by apply pres_ret | apply notify_pres].
Qed.

Lemma delete_trap_pres l path prop :
  (n ≤ l)%nat → pres I (delete_trap callback_throws l path prop) (λ _, True).
Proof.
  intros Hl. unfold delete_trap.
  eapply pres_bind; [by apply raw_get_pres|]. intros old _.
  eapply pres_bind; [by apply raw_delete_pres|]. intros deleted _.
  eapply (pres_bind _ _ _ (λ _, True)); [|intros; by apply pres_ret].
  apply pres_if; [apply notify_pres | by apply pres_ret].
Qed.

Lemma pget_pres p prop :
  fresh_pval n p → pres I (pget p prop) (fresh_pval n).
Proof.
  intros Hp. destruct p as [v|l path]; simpl.
  - eapply pres_bind; [by apply raw_get_pres|]. intros x Hx. by apply pres_ret.
  - by apply get_trap_pres.
Qed.

Lemma pset_pres p prop value :
  fresh_pval n p → fresh_val n value →
  pres I (pset callback_throws p prop value) (λ _, True).
Proof.
  intros Hp Hv. destruct p as [v|l path]; simpl.
  - by apply raw_set_pres.
  - eapply pres_bind; [by apply set_trap_pres|]. intros ok _.
    apply pres_if; [by apply pres_ret | apply pres_throw].
Qed.

Lemma pdelete_pres p prop :
  fresh_pval n p → pres I (pdelete callback_throws p prop) (λ _, True).
Proof.
  intros Hp. destruct p as [v|l path]; simpl.
  - eapply pres_bind; [by apply raw_delete_pres|]. intros; by apply pres_ret.
  - eapply pres_bind; [by apply delete_trap_pres|]. intros ok _.
    apply pres_if; [by apply pres_ret | apply pres_throw].
Qed.

Lemma getProxy_pres : pres I (gets getProxy) (fresh_pval n).
Proof.
  apply pres_gets. intros s [_ _ Ht]. unfold getProxy.
  by destruct (target s).
Qed.
End Frame.

Section FrameMethods.
Variable callback_throws : ObserverCallback → val → val → option exn.
Variable h0 : list obj.

Let n := length h0.
Let I := separated h0.

(** A step of a proof of [pres]: bind with the postcondition given. *)
Local Ltac seq Q := eapply (pres_bind _ _ _ Q).

Lemma alloc_object_pres (o : obj) (k : loc → M ReactiveProxy unit) :
  fresh_obj n o → (∀ l, (n ≤ l)%nat → pres I (k l) (λ _, True)) →
  pres I (alloc o ≫= k) (λ _, True).
Proof. intros Ho Hk. seq (λ l, (n ≤ l)%nat); [by apply alloc_pres | done]. Qed.

Lemma set_keys_pres keys current value :
  fresh_pval n current → fresh_val n value →
  pres I (set_keys callback_throws current keys value) (λ _, True).
Proof.
  intros Hc Hv. revert current Hc.
  induction keys as [|key rest IH]; intros current Hc.
  - by apply pset_pres.
  - simpl. destruct rest as [|key' rest']; [by apply pset_pres|].
    destruct (arrayMatch key) as [[arrayName index]|].
    + seq (fresh_pval n); [by apply pget_pres|]. intros a Ha.
      seq (λ _ : unit, True).
      { apply pres_if; [by apply pres_ret|].
        apply alloc_object_pres; [by constructor|].
        intros l Hl. by apply pset_pres. }
      intros _ _.
      seq (fresh_pval n); [by apply pget_pres|]. intros a1 Ha1.
      seq (fresh_pval n); [by apply pget_pres|]. intros e He.
      seq (λ _ : unit, True).
      { apply pres_if; [by apply pres_ret|].
        seq (fresh_pval n); [by apply pget_pres|]. intros a2 Ha2.
        apply alloc_object_pres; [by constructor|].
        intros l Hl. by apply pset_pres. }
      intros _ _.
      seq (fresh_pval n); [by apply pget_pres|]. intros a3 Ha3.
      seq (fresh_pval n); [by apply pget_pres|]. intros next Hnext.
      by apply IH.
    + seq (fresh_pval n); [by apply pget_pres|]. intros c Hcv.
      seq (λ _ : bool, True).
      { apply pres_if; [|by apply pres_ret].
        seq (fresh_pval n); [by apply pget_pres|]. intros; by apply pres_ret. }
      intros replace _.
      seq (λ _ : unit, True).
      { apply pres_if; [|by apply pres_ret].
        apply alloc_object_pres; [by constructor|].
        intros l Hl. by apply pset_pres. }
      intros _ _.
      seq (fresh_pval n); [by apply pget_pres|]. intros next Hnext.
      by apply IH.
Qed.

Lemma set_pres path value :
  fresh_val n value → pres I (set callback_throws path value) (λ _, True).
Proof.
  intros Hv. unfold set. seq (fresh_pval n); [apply getProxy_pres|].
  intros p Hp. by apply set_keys_pres.
Qed.

Lemma opt_get_pres p key :
  fresh_pval n p → pres I (opt_get p key) (fresh_pval n).
Proof.
  intros Hp. unfold opt_get. apply pres_if; [by apply pres_ret|].
  by apply pget_pres.
Qed.

Lemma get_keys_pres keys p :
  fresh_pval n p → pres I (get_keys p keys) (fresh_pval n).
Proof.
  revert p. induction keys as [|key rest IH]; intros p Hp; simpl.
  - by apply pres_ret.
  - seq (fresh_pval n); [|by apply IH].
    unfold get_key. destruct (arrayMatch key) as [[arrayName index]|].
    + seq (fresh_pval n); [by apply opt_get_pres|].
      intros a Ha. by apply opt_get_pres.
    + by apply opt_get_pres.
Qed.

Lemma get_pres path : pres I (get path) (fresh_pval n).
Proof.
  unfold get. seq (fresh_pval n); [apply getProxy_pres|].
  intros p Hp. by apply get_keys_pres.
Qed.

Lemma navigate_pres ks p :
  fresh_pval n p → pres I (navigate p ks) (fresh_pval n).
Proof.
  revert p. induction ks as [|k ks IH]; intros p Hp; simpl.
  - by apply pres_ret.
  - seq (fresh_pval n); [by apply pget_pres | by apply IH].
Qed.

Lemma length_of_pres O : fresh_pval n O → pres I (length_of O) (λ _, True).
Proof.
  intros HO. unfold length_of. seq (fresh_pval n); [by apply pget_pres|].
  intros lenv _. destruct lenv as [[]|]; try apply pres_throw. by apply pres_ret.
Qed.

Lemma set_items_pres O k items :
  fresh_pval n O → Forall (fresh_val n) items →
  pres I (set_items callback_throws O k items) (λ _, True).
Proof.
  intros HO Hitems. revert k.
  induction Hitems as [|E rest HE _ IH]; intros k; simpl.
  - by apply pres_ret.
  - seq (λ _ : unit, True); [by apply pset_pres | intros; apply IH].
Qed.

Lemma array_push_pres O items :
  fresh_pval n O → Forall (fresh_val n) items →
  pres I (array_push callback_throws O items) (λ _, True).
Proof.
  intros HO Hitems. unfold array_push.
  seq (λ _ : N, True); [by apply length_of_pres|]. intros len _.
  seq (λ _ : N, True); [by apply set_items_pres|]. intros len' _.
  seq (λ _ : unit, True); [by apply pset_pres|]. intros; by apply pres_ret.
Qed.

Lemma has_index_pres O key : pres I (has_index O key) (λ _, True).
Proof.
  intros s Hs. split; [|done].
  destruct O as [[]|]; try done; simpl;
    unfold lookup_obj, lift, mbind, M_bind, bind; by destruct (heap s !! _).
Qed.

Lemma unshift_move_pres O k argCount :
  fresh_pval n O →
  pres I (unshift_move callback_throws O k argCount) (λ _, True).
Proof.
  intros HO. induction k as [|from IH]; simpl.
  - by apply pres_ret.
  - seq (λ _ : bool, True); [apply has_index_pres|]. intros present _.
    seq (λ _ : unit, True); [|intros; apply IH].
    apply pres_if; [|by apply pdelete_pres].
    seq (fresh_pval n); [by apply pget_pres|]. intros fromValue Hf.
    destruct fromValue; [by apply pset_pres | apply pres_throw].
Qed.

Lemma array_unshift_pres O items :
  fresh_pval n O → Forall (fresh_val n) items →
  pres I (array_unshift callback_throws O items) (λ _, True).
Proof.
  intros HO Hitems. unfold array_unshift.
  seq (λ _ : N, True); [by apply length_of_pres|]. intros len _.
  seq (λ _ : unit, True).
  { apply pres_if; [|by apply pres_ret].
    seq (λ _ : unit, True); [by apply unshift_move_pres|]. intros _ _.
    seq (λ _ : N, True); [by apply set_items_pres|]. intros; by apply pres_ret. }
  intros _ _.
  seq (λ _ : unit, True); [by apply pset_pres|]. intros; by apply pres_ret.
Qed.

Lemma call_method_pres p name args :
  fresh_pval n p → Forall (fresh_val n) args →
  pres I (call_method callback_throws p name args) (λ _, True).
Proof.
  intros Hp Hargs. unfold call_method.
  seq (fresh_pval n); [by apply pget_pres|]. intros f _.
  destruct f as [[]|]; try apply pres_throw.
  apply pres_if; [by apply array_push_pres|].
  apply pres_if; [by apply array_unshift_pres | apply pres_throw].
Qed.

Lemma run_action_pres a :
  fresh_action n a → pres I (run_action callback_throws a) (λ _, True).
Proof.
  intros Ha. destruct a; simpl in *.
  - seq (λ _ : unit, True); [by apply set_pres|]. intros; by apply pres_ret.
  - eapply pres_weaken; [apply get_pres | done].
  - seq (fresh_pval n); [apply getProxy_pres|]. intros p Hp.
    seq (fresh_pval n); [by apply navigate_pres|]. intros q Hq.
    seq (λ _ : unit, True); [by apply pset_pres|]. intros; by apply pres_ret.
  - seq (fresh_pval n); [apply getProxy_pres|]. intros p Hp.
    seq (fresh_pval n); [by apply navigate_pres|]. intros q Hq.
    seq (λ _ : unit, True); [by apply pdelete_pres|]. intros; by apply pres_ret.
  - seq (fresh_pval n); [apply getProxy_pres|]. intros p Hp.
    seq (fresh_pval n); [by apply navigate_pres|]. intros q Hq.
    seq (λ _ : val, True); [by apply call_method_pres|]. intros; by apply pres_ret.
  - seq (λ _ : unit, True); [|intros; by apply pres_ret].
    apply pres_modify. intros s Hs. by apply (separated_ext h0 s).
  - seq (λ _ : unit, True); [|intros; by apply pres_ret].
    apply pres_modify. intros s Hs. unfold unsubscribe.
    destruct (JsMap.get path (observers s)); [|done].
    by apply (separated_ext h0 s).
  - seq (λ l : loc, True); [|intros; by apply pres_ret].
    eapply pres_weaken; [by apply alloc_pres | done].
Qed.

Lemma run_actions_separated actions s :
  Forall (fresh_action n) actions → separated h0 s →
  separated h0 (run_actions callback_throws s actions).
Proof.
  intros Hall. revert s. induction Hall as [|a actions Ha _ IH]; intros s Hs;
    simpl; [done|].
  apply IH. unfold exec. by apply (run_action_pres a Ha s).
Qed.

(** [deepClone] reads anywhere and writes to the objects it allocates. *)
Lemma deepClone_pres depth v : pres I (deepClone depth v) (fresh_val n).
Proof.
  revert v. induction depth as [|depth IH]; intros v; simpl; [apply pres_throw|].
  destruct v as [| | | | | |l]; try by apply pres_ret.
  seq (λ _ : obj, True).
  { intros s Hs. split; [|done]. unfold lookup_obj, lift. simpl.
    by destruct (heap s !! l). }
  intros o _.
  apply pres_if.
  - seq (λ _ : unit, True).
    { destruct (JsMap.get "map" (props o)) as [[]|];
        try apply pres_throw; by apply pres_ret. }
    intros _ _.
    seq (λ a : loc, (n ≤ a)%nat); [apply alloc_pres; by constructor|].
    intros a Ha.
    seq (λ _ : unit, True); [|intros; by apply pres_ret].
    apply pres_forEach. intros k _. simpl.
    destruct (JsMap.get (to_key (N.of_nat k)) (props o)); [|by apply pres_ret].
    seq (fresh_val n); [apply IH|]. intros c Hc.
    exact (raw_set_pres h0 (VRef a) _ c Ha Hc).
  - seq (λ a : loc, (n ≤ a)%nat); [apply alloc_pres; by constructor|].
    intros a Ha.
    seq (λ _ : unit, True); [|intros; by apply pres_ret].
    apply pres_forEach. intros kv _.
    destruct (JsMap.get "hasOwnProperty" (props o)) as [[]|];
      try apply pres_throw.
    seq (fresh_val n); [apply IH|]. intros c Hc.
    exact (raw_set_pres h0 (VRef a) _ c Ha Hc).
Qed.

Lemma constructor_pres depth input :
  pres I (constructor depth input) (λ _, True).
Proof.
  unfold constructor.
  seq (λ _ : val, True).
  { destruct input; try by apply pres_ret.
    seq (λ l : loc, True); [|intros; by apply pres_ret].
    eapply pres_weaken; [apply alloc_pres; by constructor | done]. }
  intros input' _.
  seq (fresh_val n); [apply deepClone_pres|]. intros t Ht.
  apply pres_modify. intros s [H1 H2 H3]. by split.
Qed.

Lemma host_separated : separated h0 (host h0).
Proof.
  split; simpl.
  - by rewrite take_ge.
  - intros l o Hl Hin. apply lookup_lt_Some in Hin. lia.
  - done.
Qed.
End FrameMethods.

(** *** Cloning succeeds and copies *)

Definition starts_with_digit (s : string) : Prop :=
  match s with
  | String c _ => is_digit c = true
  | EmptyString => False
  end.

Lemma pretty_N_char_digit x : is_digit (pretty_N_char x) = true.
Proof. unfold pretty_N_char. by repeat case_match. Qed.

Lemma pretty_N_go_digit x s :
  starts_with_digit s → starts_with_digit (pretty_N_go x s).
Proof.
  revert s. induction (N.lt_wf_0 x) as [x _ IH]; intros s Hs.
  destruct (decide (x = 0)%N) as [->|Hx]; [by rewrite pretty_N_go_0|].
  rewrite pretty_N_go_step by lia. apply IH.
  - apply N.div_lt; lia.
  - apply pretty_N_char_digit.
Qed.

Lemma to_key_digit k : starts_with_digit (to_key k).
Proof.
  unfold to_key, pretty, pretty_N. case_decide; [done|].
  rewrite pretty_N_go_step by lia. apply pretty_N_go_digit, pretty_N_char_digit.
Qed.

Lemma to_key_inj k1 k2 : to_key k1 = to_key k2 → k1 = k2.
Proof. unfold to_key. apply (inj pretty). Qed.

Lemma to_key_not_proto k : to_key k ≠ "__proto__".
Proof. intros Heq. pose proof (to_key_digit k) as H. by rewrite Heq in H. Qed.

Lemma to_key_not_length k : to_key k ≠ "length".
Proof. intros Heq. pose proof (to_key_digit k) as H. by rewrite Heq in H. Qed.

Lemma is_index_to_key k i : is_index (to_key k) = Some i → i = k.
Proof.
  unfold is_index. destruct (to_key k) eqn:Ek; [done|]. rewrite <- Ek.
  destruct (parse_digits 0 (to_key k)) as [m|]; [|done].
  destruct (String.eqb (to_key m) (to_key k)) eqn:E; [|done]. simpl.
  case_match; [|done]. intros [= <-].
  apply String.eqb_eq in E. by apply to_key_inj.
Qed.

(** An object that [deepClone] can clone within call depth [d]: the
    references lead to objects of [h0], the keys of an object are distinct
    and none is [__proto__], and no object shadows the method that
    [deepClone] calls on it. *)
Inductive clonable (h0 : list obj) : nat → val → Prop :=
| clonable_value d v : is_object v = false → clonable h0 (S d) v
| clonable_array d l o :
    h0 !! l = Some o → is_array o = true →
    JsMap.get "map" (props o) = None →
    (∀ k v, (k < len o)%N → JsMap.get (to_key k) (props o) = Some v →
            clonable h0 d v) →
    clonable h0 (S d) (VRef l)
| clonable_plain d l o :
    h0 !! l = Some o → is_array o = false →
    JsMap.get "hasOwnProperty" (props o) = None →
    NoDup (JsMap.keys (props o)) →
    (∀ key v, (key, v) ∈ props o → key ≠ "__proto__") →
    (∀ key v, (key, v) ∈ props o → clonable h0 d v) →
    clonable h0 (S d) (VRef l).

(** The keys [deepClone] copies: all keys of a plain object, the indexes
    below the length of an array. *)
Definition copied_key (o : obj) (key : string) : Prop :=
  if is_array o then ∃ k, (k < len o)%N ∧ key = to_key k else True.

(** [v'], in the heap [h], is a copy of [v], in the heap [h0], made of
    objects at [lo] or above: the same kind of object, the same length for
    an array, the copied keys, and under each key a copy made of objects
    above the copy itself. *)
Inductive copy (h0 h : list obj) : nat → val → val → Prop :=
| copy_value lo v : is_object v = false → copy h0 h lo v v
| copy_object lo l l' o o' :
    h0 !! l = Some o → h !! l' = Some o' → (lo ≤ l')%nat →
    is_array o' = is_array o →
    len o' = (if is_array o then len o else 0%N) →
    (∀ key, is_Some (JsMap.get key (props o'))
            ↔ copied_key o key ∧ is_Some (JsMap.get key (props o))) →
    (∀ key v v', JsMap.get key (props o) = Some v →
                 JsMap.get key (props o') = Some v' →
                 copy h0 h (S l') v v') →
    copy h0 h lo (VRef l) (VRef l').

Lemma copy_mono h0 h lo lo' v v' :
  copy h0 h lo v v' → (lo' ≤ lo)%nat → copy h0 h lo' v v'.
Proof.
  intros Hc Hle. destruct Hc; [by constructor|].
  econstructor; eauto. lia.
Qed.

Lemma copy_ext h0 h ext lo v v' :
  copy h0 h lo v v' → copy h0 (h ++ ext) lo v v'.
Proof.
  induction 1 as [|lo l l' o o' H0 H1 Hlo Ha Hl Hd Hc IH]; [by constructor|].
  econstructor; eauto. by apply lookup_app_l_Some.
Qed.

Lemma copy_insert h0 h a p lo v v' :
  copy h0 h lo v v' → (a < lo)%nat → copy h0 (<[a := p]> h) lo v v'.
Proof.
  induction 1 as [|lo l l' o o' H0 H1 Hlo Ha Hl Hd Hc IH]; intros Hlt;
    [by constructor|].
  econstructor; eauto.
  - rewrite list_lookup_insert_ne by lia. done.
  - intros key v v' Hv Hv'. eapply IH; [done | done | lia].
Qed.

(** The object after [p[key] = c], when the assignment neither throws nor
    moves the length. *)
Definition put (p : obj) (key : string) (c : val) : obj :=
  {| is_array := is_array p; len := len p;
     props := JsMap.set key c (props p) |}.

Lemma object_set_plain p key c :
  is_array p = false → key ≠ "__proto__" →
  object_set p key c = Ok (put p key c).
Proof.
  intros Ha Hk. unfold object_set, put.
  destruct (String.eqb_spec key "__proto__"); [done|]. by rewrite Ha.
Qed.

Lemma object_set_element p k c :
  is_array p = true → (k < len p)%N →
  object_set p (to_key k) c = Ok (put p (to_key k) c).
Proof.
  intros Ha Hk. unfold object_set, put.
  destruct (String.eqb_spec (to_key k) "__proto__") as [E|_];
    [by apply to_key_not_proto in E|].
  rewrite Ha.
  destruct (String.eqb_spec (to_key k) "length") as [E|_];
    [by apply to_key_not_length in E|].
  destruct (is_index (to_key k)) as [i|] eqn:Ei; [|done].
  apply is_index_to_key in Ei as ->.
  by replace (N.max (len p) (N.succ k)) with (len p) by lia.
Qed.

Lemma insert_middle {A} (hpre : list A) p p' rest :
  <[length hpre := p']> (hpre ++ p :: rest) = hpre ++ p' :: rest.
Proof. induction hpre as [|x hpre IH]; simpl; [done|]. by rewrite IH. Qed.

Lemma take_prefix {A} (h0 hpre rest : list A) :
  take (length h0) hpre = h0 → take (length h0) (hpre ++ rest) = h0.
Proof.
  intros Ht. rewrite take_app_le; [done|].
  rewrite <- Ht at 1. rewrite length_take. lia.
Qed.

Lemma set_heap_same s : set_heap (heap s) s = s.
Proof. by destruct s. Qed.

Lemma forEach_cons_run {A} (f : A → M ReactiveProxy unit) x l s s' :
  f x s = (Ok tt, s') → forEach (x :: l) f s = forEach l f s'.
Proof. intros Hf. simpl. unfold bind. by rewrite Hf. Qed.

Section CloneItems.
Variables (h0 : list obj) (d : nat) (b : bool) (L : N).
Hypothesis deepClone_d : ∀ v s,
  take (length h0) (heap s) = h0 → clonable h0 d v →
  ∃ v' ext, deepClone d v s = (Ok v', set_heap (heap s ++ ext) s)
            ∧ copy h0 (heap s ++ ext) (length (heap s)) v v'
            ∧ (is_object v = true → v' = VRef (length (heap s))).

(** One round of either loop of [deepClone]: clone the item, store the
    clone under the same key of the object at [a]. *)
Definition clone_item (a : loc) (kv : string * val) : M ReactiveProxy unit :=
  c ← deepClone d kv.2; raw_set (VRef a) kv.1 c.

(** A key that can be assigned on an object of kind [b] and length [L]
    without changing either. *)
Definition settable (key : string) : Prop :=
  ∀ p c, is_array p = b → len p = L → object_set p key c = Ok (put p key c).

(** The loop, from the point where the keys of [done] have been copied
    into the object [p] that sits right after [hpre]. *)
Lemma clone_items items : ∀ done p ext s hpre,
  heap s = hpre ++ p :: ext →
  take (length h0) hpre = h0 →
  NoDup (JsMap.keys (done ++ items)) →
  Forall (λ kv, clonable h0 d kv.2 ∧ settable kv.1) items →
  is_array p = b → len p = L →
  (∀ key, is_Some (JsMap.get key (props p)) ↔ is_Some (JsMap.get key done)) →
  (∀ key v v', JsMap.get key done = Some v → JsMap.get key (props p) = Some v' →
               copy h0 (heap s) (S (length hpre)) v v') →
  ∃ p' ext',
    forEach items (clone_item (length hpre)) s
      = (Ok tt, set_heap (hpre ++ p' :: ext') s)
    ∧ is_array p' = b ∧ len p' = L
    ∧ (∀ key, is_Some (JsMap.get key (props p'))
              ↔ is_Some (JsMap.get key (done ++ items)))
    ∧ (∀ key v v', JsMap.get key (done ++ items) = Some v →
                   JsMap.get key (props p') = Some v' →
                   copy h0 (hpre ++ p' :: ext') (S (length hpre)) v v').
Proof.
  induction items as [|[key v] rest IH]; intros done p ext s hpre Hh Hpre Hnd Hall Ha Hl Hdom Hcopy.
  - exists p, ext. rewrite app_nil_r. rewrite <- Hh. rewrite set_heap_same.
    split_and!; try done.
  - apply Forall_cons in Hall as [[Hv Hset] Hall]. simpl in Hv, Hset.
    destruct (deepClone_d v s) as (c & ext_c & Hrun & Hc & _); [|done|].
    { rewrite Hh. by apply take_prefix. }
    assert (Hkey : JsMap.get key done = None).
    { apply JsMap.get_None. unfold JsMap.keys in *. rewrite fmap_app in Hnd.
      apply NoDup_app in Hnd as (_ & Hnd & _). intros Hin.
      apply (Hnd _ Hin). csimpl. apply list_elem_of_here. }
    set (s2 := set_heap (hpre ++ put p key c :: (ext ++ ext_c)) s).
    assert (Hstep : clone_item (length hpre) (key, v) s = (Ok tt, s2)).
    { unfold clone_item. simpl. rewrite (run_bind _ _ _ _ _ Hrun).
      unfold raw_set. erewrite update_obj_run.
      - simpl. rewrite Hh. rewrite <- app_assoc. simpl. by rewrite insert_middle.
      - simpl. rewrite Hh. rewrite <- app_assoc. apply list_lookup_middle. done.
      - by apply Hset. }
    rewrite (forEach_cons_run _ _ _ _ _ Hstep).
    destruct (IH (done ++ [(key, v)]) (put p key c) (ext ++ ext_c) s2 hpre)
      as (p' & ext' & Hrun' & Ha' & Hl' & Hdom' & Hcopy'); try done.
    + by rewrite <- app_assoc.
    + intros k. simpl. rewrite JsMap.get_app. simpl.
      destruct (decide (key = k)) as [->|Hne].
      * rewrite JsMap.get_set_eq, Hkey. split; by eexists.
      * rewrite JsMap.get_set_ne by done. rewrite Hdom.
        destruct (JsMap.get k done); [done|]. split; by intros [? [=]].
    + intros k v0 v0'. simpl. rewrite JsMap.get_app. simpl.
      assert (Hc' : copy h0 (hpre ++ put p key c :: ext ++ ext_c) (S (length hpre)) v c).
      { rewrite <- (insert_middle hpre p). apply copy_insert; [|lia].
        replace (hpre ++ p :: ext ++ ext_c) with (heap s ++ ext_c)
          by (rewrite Hh, <- app_assoc; done).
        apply (copy_mono _ _ _ _ _ _ Hc). rewrite Hh, length_app. simpl. lia. }
      destruct (decide (key = k)) as [->|Hne].
      * rewrite JsMap.get_set_eq, Hkey. by intros [= ->] [= ->].
      * rewrite JsMap.get_set_ne by done.
        destruct (JsMap.get k done) as [x|] eqn:Ex; [|done].
        intros [= ->] Hv0'. rewrite <- (insert_middle hpre p).
        apply copy_insert; [|lia].
        replace (hpre ++ p :: ext ++ ext_c) with (heap s ++ ext_c)
          by (rewrite Hh, <- app_assoc; done).
        apply copy_ext. by eapply Hcopy.
    + exists p', ext'. rewrite <- app_assoc in Hdom', Hcopy'. simpl in *.
      split_and!; try done.
Qed.
End CloneItems.

(** The elements [obj.map] visits: the indexes below the length that the
    array has. *)
Definition array_items (o : obj) (ks : list nat) : list (string * val) :=
  omap (λ k, item ← JsMap.get (to_key (N.of_nat k)) (props o);
             Some (to_key (N.of_nat k), item)) ks.

Lemma forEach_array_items o (g : string → val → M ReactiveProxy unit) ks s :
  forEach ks (λ k, let key := to_key (N.of_nat k) in
                   match JsMap.get key (props o) with
                   | Some item => g key item
                   | None => mret tt
                   end) s
  = forEach (array_items o ks) (λ kv, g kv.1 kv.2) s.
Proof.
  revert s. induction ks as [|k ks IH]; intros s; [done|].
  cbn [forEach array_items omap list_omap].
  destruct (JsMap.get (to_key (N.of_nat k)) (props o)) as [item|]; cbn.
  - unfold bind. destruct (g _ item s) as [[[]|e] s']; [apply IH | done].
  - apply IH.
Qed.

Lemma elem_of_array_items o ks key v :
  (key, v) ∈ array_items o ks →
  ∃ k, k ∈ ks ∧ key = to_key (N.of_nat k) ∧ JsMap.get key (props o) = Some v.
Proof.
  unfold array_items. intros (k & Hk & Hkv)%list_elem_of_omap.
  destruct (JsMap.get (to_key (N.of_nat k)) (props o)) as [item|] eqn:E; [|done].
  injection Hkv as <- <-. eauto.
Qed.

Lemma get_array_items o ks k v :
  k ∈ ks → JsMap.get (to_key (N.of_nat k)) (props o) = Some v →
  JsMap.get (to_key (N.of_nat k)) (array_items o ks) = Some v.
Proof.
  intros Hk Hv. induction ks as [|k0 ks IH]; [by apply elem_of_nil in Hk|].
  cbn [array_items omap list_omap].
  destruct (JsMap.get (to_key (N.of_nat k0)) (props o)) as [item|] eqn:E; cbn.
  - destruct (decide (to_key (N.of_nat k0) = to_key (N.of_nat k))) as [Heq|Hne].
    + by rewrite Heq, Hv in E.
    + apply IH. apply elem_of_cons in Hk as [->|Hk]; done.
  - apply IH. apply elem_of_cons in Hk as [->|Hk]; [congruence | done].
Qed.

Lemma NoDup_array_items o ks : NoDup ks → NoDup (JsMap.keys (array_items o ks)).
Proof.
  unfold JsMap.keys. induction 1 as [|k ks Hk Hnd IH]; [constructor|].
  cbn [array_items omap list_omap].
  destruct (JsMap.get (to_key (N.of_nat k)) (props o)) as [item|]; cbn; [|done].
  constructor; [|done].
  intros ([key v] & Hkey & (k' & Hk' & -> & _)%elem_of_array_items)%list_elem_of_fmap.
  simpl in Hkey. apply to_key_inj, Nat2N.inj in Hkey. congruence.
Qed.

Lemma lookup_prefix {A} (h0 h : list A) l o :
  take (length h0) h = h0 → h0 !! l = Some o → h !! l = Some o.
Proof.
  intros Ht Hl. rewrite <- Ht in Hl. by apply lookup_take_Some in Hl as [Hl _].
Qed.

(** From a heap that starts with [h0], [deepClone] returns a copy of a
    clonable value, made of new objects only, and leaves the heap it found
    as it was. *)
Lemma deepClone_ok h0 d : ∀ v s,
  take (length h0) (heap s) = h0 → clonable h0 d v →
  ∃ v' ext, deepClone d v s = (Ok v', set_heap (heap s ++ ext) s)
            ∧ copy h0 (heap s ++ ext) (length (heap s)) v v'
            ∧ (is_object v = true → v' = VRef (length (heap s))).
Proof.
  induction d as [|d IH]; intros v s Hpre Hcl; inversion Hcl as
    [d' v0 Hv | d' l o Hl Harr Hmap Hitems | d' l o Hl Harr Hhas Hnd Hproto Hitems];
    subst.
  - exists v, []. rewrite app_nil_r, set_heap_same.
    split_and!; [by destruct v | by constructor | by rewrite Hv].
  - pose proof (lookup_prefix _ _ _ _ Hpre Hl) as Hl'.
    set (p := {| is_array := true; len := len o; props := [] |}).
    set (s1 := set_heap (heap s ++ [p]) s).
    destruct (clone_items h0 d true (len o) IH
                (array_items o (seq 0 (N.to_nat (len o)))) [] p [] s1 (heap s))
      as (p' & ext' & Hrun & Ha' & Hl'' & Hdom & Hcopy); try done.
    { apply NoDup_array_items, NoDup_seq. }
    { apply Forall_forall. intros [key v] (k & Hk%elem_of_seq & -> & Hv)%elem_of_array_items.
      split; simpl.
      - apply (Hitems (N.of_nat k)); [lia | done].
      - intros q c Hq Hlen. apply object_set_element; [done | lia]. }
    exists (VRef (length (heap s))), (p' :: ext').
    split_and!; [| |done].
    + cbn [deepClone]. rewrite (run_bind _ _ _ _ _ (lookup_obj_run _ _ _ Hl')).
      rewrite Harr, Hmap.
      erewrite run_bind; [|reflexivity].
      erewrite run_bind; [|reflexivity].
      erewrite run_bind; [reflexivity|].
      rewrite (forEach_array_items o
                 (λ key item, c ← deepClone d item; raw_set (VRef (length (heap s))) key c)).
      exact Hrun.
    + eapply (copy_object _ _ _ l (length (heap s)) o p'); try done.
      * by apply list_lookup_middle.
      * congruence.
      * by rewrite Harr.
      * intros key. rewrite Hdom. unfold copied_key. rewrite Harr. simpl. split.
        -- intros [v Hv]. apply JsMap.get_Some_elem_of in Hv.
           apply elem_of_array_items in Hv as (k & Hk%elem_of_seq & -> & Hv).
           split; [|by eexists]. exists (N.of_nat k). split; [lia | done].
        -- intros [(k & Hk & ->) [v Hv]]. exists v.
           rewrite <- (N2Nat.id k) in Hv |- *. apply get_array_items; [|done].
           apply elem_of_seq. lia.
      * intros key v v' Hv Hv'. eapply Hcopy; [|done]. simpl.
        destruct (proj1 (Hdom key)) as [v2 Hv2]; [by eexists|].
        simpl in Hv2. rewrite Hv2. f_equal.
        apply JsMap.get_Some_elem_of in Hv2.
        apply elem_of_array_items in Hv2 as (k & _ & _ & Hv2). congruence.
  - pose proof (lookup_prefix _ _ _ _ Hpre Hl) as Hl'.
    set (s1 := set_heap (heap s ++ [empty_object]) s).
    destruct (clone_items h0 d false 0%N IH (props o) [] empty_object [] s1 (heap s))
      as (p' & ext' & Hrun & Ha' & Hl'' & Hdom & Hcopy); try done.
    { apply Forall_forall. intros [key v] Hkv. split; simpl.
      - by eapply Hitems.
      - intros q c Hq _. apply object_set_plain; [done | by eapply Hproto]. }
    exists (VRef (length (heap s))), (p' :: ext').
    split_and!; [| |done].
    + cbn [deepClone]. rewrite (run_bind _ _ _ _ _ (lookup_obj_run _ _ _ Hl')).
      rewrite Harr, Hhas.
      erewrite run_bind; [|reflexivity].
      erewrite run_bind; [reflexivity|].
      exact Hrun.
    + eapply (copy_object _ _ _ l (length (heap s)) o p'); try done.
      * by apply list_lookup_middle.
      * congruence.
      * by rewrite Harr.
      * intros key. rewrite Hdom. unfold copied_key. rewrite Harr. simpl. tauto.
Qed.


(** *** Concrete wrappers *)

Definition never_throws : ObserverCallback → val → val → option exn :=
  λ _ _ _, None.

(** [{items: [1, 2]}] as the caller holds it, and wrapped. *)
Definition items_heap : list obj :=
  [ {| is_array := false; len := 0; props := [("items", VRef 1%nat)] |};
    {| is_array := true; len := 2; props := [("0", VNum 1); ("1", VNum 2)] |} ].

Definition items_wrapped : ReactiveProxy :=
  exec (constructor 8 (VRef 0%nat)) (host items_heap).

(** [{}] wrapped, and [{a: 5}] wrapped. *)
Definition empty_wrapped : ReactiveProxy :=
  exec (constructor 8 VUndefined) (host []).

Definition a5_wrapped : ReactiveProxy :=
  exec (constructor 8 (VRef 0%nat))
    (host [ {| is_array := false; len := 0; props := [("a", VNum 5)] |} ]).

(** *** The claims about the change registry, at concrete wrappers *)

(** C1 at the scenario of the specification.  [{items: [1, 2]}] is wrapped
    and observed at ["items"] and at ["items[2]"].  [proxy.items.push(3)]
    returns 3 and the array becomes [[1, 2, 3]], but no observer is
    called; the same holds for [proxy.items.unshift(5)].  The [set] trap
    of [createProxy] hands every write on an array to the proxy of
    [createArrayProxy], whose [get] trap, the one that notifies, is never
    reached. *)
Theorem push_through_proxy_calls_no_observer :
  let s := observe "items[2]" 1%nat (observe "items" 0%nat items_wrapped) in
  let pushed := run_action never_throws (ACall ["items"] "push" [VNum 3]) s in
  let unshifted := run_action never_throws (ACall ["items"] "unshift" [VNum 5]) s in
  subscribers s "items" = [0%nat] ∧ subscribers s "items[2]" = [1%nat]
  ∧ getProxy s = Proxied 2%nat ""
  ∧ heap s !! 2%nat = Some {| is_array := false; len := 0;
                              props := [("items", VRef 3%nat)] |}
  ∧ heap s !! 3%nat = Some {| is_array := true; len := 2;
                              props := [("0", VNum 1); ("1", VNum 2)] |}
  ∧ pushed.1 = Ok (Raw (VNum 3))
  ∧ heap pushed.2 !! 3%nat
    = Some {| is_array := true; len := 3;
              props := [("0", VNum 1); ("1", VNum 2); ("2", VNum 3)] |}
  ∧ calls pushed.2 = []
  ∧ unshifted.1 = Ok (Raw (VNum 3))
  ∧ heap unshifted.2 !! 3%nat
    = Some {| is_array := true; len := 3;
              props := [("0", VNum 5); ("1", VNum 1); ("2", VNum 2)] |}
  ∧ calls unshifted.2 = [].
Proof. vm_compute. repeat split. Qed.

(** C2 at two wrappers.  On [{}], [set("a[0]", 5)] writes the own property
    named ["a[0]"] of the root, and [get("a[0]")] then reads element 0 of
    the missing property ["a"]: it returns [undefined].  For comparison,
    the same round trip with the bracket in a middle segment returns 5.
    On [{a: 5}], [set("a[0].b", 1)] throws a [TypeError] instead of
    creating containers. *)
Theorem set_then_get_loses_bracket_key :
  let round path :=
    (set never_throws path (VNum 5);; get path) empty_wrapped in
  (round "a[0]").1 = Ok (Raw VUndefined)
  ∧ heap (round "a[0]").2
    = [ empty_object;
        {| is_array := false; len := 0; props := [("a[0]", VNum 5)] |} ]
  ∧ (round "a.b[2].c").1 = Ok (Raw (VNum 5))
  ∧ (set never_throws "a[0].b" (VNum 1) a5_wrapped).1
    = Throw (TypeError "Cannot create property on a primitive").
Proof. vm_compute. repeat split. Qed.



Lemma items_heap_clonable : clonable items_heap 8 (VRef 0%nat).
Proof.
  eapply clonable_plain; [reflexivity | done | done | | |].
  - apply (bool_decide_unpack _). by vm_compute.
  - intros key v [[= -> ->]|[]%elem_of_nil]%elem_of_cons. done.
  - intros key v [[= -> ->]|[]%elem_of_nil]%elem_of_cons.
    eapply clonable_array; [reflexivity | done | done |].
    intros k v Hk. simpl in Hk.
    assert (k = 0 ∨ k = 1)%N as [-> | ->] by lia; vm_compute; intros [= <-];
      by constructor.
Qed.



(** ** Further properties of the change registry *)

(** *** Subscribing and unsubscribing *)

Lemma subscribers_observe path cb s path' :
  subscribers (observe path cb s) path'
  = if decide (path = path') then JsSet.add cb (subscribers s path)
    else subscribers s path'.
Proof.
  unfold subscribers, observe. simpl.
  destruct (decide (path = path')) as [<-|Hne].
  - by rewrite JsMap.get_set_eq.
  - by rewrite JsMap.get_set_ne.
Qed.

Lemma subscribers_unsubscribe path cb s path' :
  subscribers (unsubscribe path cb s) path'
  = if decide (path = path') then JsSet.delete cb (subscribers s path)
    else subscribers s path'.
Proof.
  unfold subscribers, unsubscribe.
  destruct (JsMap.get path (observers s)) as [cbs|] eqn:E; simpl.
  - destruct (decide (path = path')) as [<-|Hne].
    + by rewrite JsMap.get_set_eq.
    + by rewrite JsMap.get_set_ne.
  - destruct (decide (path = path')) as [<-|Hne]; [|done]. by rewrite E.
Qed.

Lemma set_delete_add (cb : ObserverCallback) cbs :
  JsSet.delete cb (JsSet.add cb cbs) = JsSet.delete cb cbs.
Proof.
  unfold JsSet.delete, JsSet.add. destruct (JsSet.has cb cbs); [done|].
  rewrite filter_app, filter_cons_False, filter_nil by (by intros ?).
  apply app_nil_r.
Qed.

(** X17.  [observe] registers a callback once per path, however often it
    is called, and the function it returns takes the callback off that
    path and no other: after it ran, a notification for the path calls the
    other subscribers, in subscription order, and not the callback. *)
Theorem unsubscribe_stops_the_notifications
    (callback_throws : ObserverCallback → val → val → option exn)
    (path : string) (cb : ObserverCallback) (s : ReactiveProxy)
    (value oldValue : val) :
  let s1 := observe path cb s in
  let s2 := unsubscribe path cb s1 in
  let others := filter (λ x, x ≠ cb) (subscribers s path) in
  cb ∈ subscribers s1 path
  ∧ observe path cb s1 = s1
  ∧ subscribers s2 path = others
  ∧ (∀ path', path' ≠ path →
       subscribers s1 path' = subscribers s path'
       ∧ subscribers s2 path' = subscribers s path')
  ∧ calls (exec (notify callback_throws path value oldValue) s2)
    = calls s ++ calls_for path others value oldValue.
Proof.
  intros s1 s2 others.
  assert (H2 : subscribers s2 path = others).
  { subst s2 s1 others. rewrite subscribers_unsubscribe, decide_True by done.
    rewrite subscribers_observe, decide_True by done. apply set_delete_add. }
  split_and!.
  - subst s1. rewrite subscribers_observe, decide_True by done.
    apply JsSet.elem_of_add. by left.
  - subst s1. unfold observe. simpl. rewrite JsMap.get_set_eq. simpl.
    assert (Hadd : ∀ cbs : list ObserverCallback,
              JsSet.add cb (JsSet.add cb cbs) = JsSet.add cb cbs).
    { intros cbs. unfold JsSet.add at 1.
      assert (Hin : cb ∈ JsSet.add cb cbs) by (apply JsSet.elem_of_add; by left).
      unfold JsSet.has. by rewrite bool_decide_eq_true_2. }
    rewrite Hadd. unfold set_observers. simpl. f_equal.
    generalize (JsSet.add cb (default [] (JsMap.get path (observers s)))).
    intros v. induction (observers s) as [|[k w] m IH]; simpl.
    + by rewrite decide_True.
    + destruct (decide (k = path)) as [->|Hne]; simpl.
      * by rewrite decide_True.
      * by rewrite decide_False, IH.
  - done.
  - intros path' Hne. subst s2 s1.
    rewrite subscribers_unsubscribe, decide_False by done.
    by rewrite subscribers_observe, decide_False.
  - assert (Hc : calls s2 = calls s).
    { subst s2. unfold unsubscribe.
      by destruct (JsMap.get path (observers s1)). }
    unfold exec. rewrite notify_spec. simpl. by rewrite H2, Hc.
Qed.

(** X18.  A notification isolates the observers from one another and from
    the writer: [notify] always returns, every subscriber of the path is
    called, in subscription order, with the two values, each subscriber
    that throws costs one [console.error] line for the path, and the heap,
    the registry and the target are as before. *)
Theorem observer_exception_is_isolated
    (callback_throws : ObserverCallback → val → val → option exn)
    (path : string) (value oldValue : val) (s : ReactiveProxy) :
  let out := notify callback_throws path value oldValue s in
  out.1 = Ok tt
  ∧ calls out.2 = calls s ++ calls_for path (subscribers s path) value oldValue
  ∧ console out.2
    = console s
      ++ omap (λ cb, e ← callback_throws cb value oldValue; Some (path, e))
           (subscribers s path)
  ∧ heap out.2 = heap s ∧ observers out.2 = observers s
  ∧ target out.2 = target s.
Proof. intros out. subst out. by rewrite notify_spec. Qed.

(** *** Reading *)

Lemma inherited_error array prop e :
  inherited array prop = Throw e → ∃ what, e = Unmodelled what.
Proof.
  unfold inherited. repeat case_match; try done. intros [= <-]. by eexists.
Qed.

Lemma value_get_error h v prop e :
  nullish (Raw v) = false → value_get h v prop = Throw e →
  ∃ what, e = Unmodelled what.
Proof.
  intros Hv. destruct v; simpl; try done; try apply inherited_error.
  - unfold string_get. repeat case_match; try done; apply inherited_error.
  - repeat case_match; try done; [apply inherited_error|].
    intros [= <-]. by eexists.
Qed.

(** A read leaves the state alone, and fails only where the run leaves
    what is modelled. *)
Definition reads {A} (m : M ReactiveProxy A) : Prop :=
  ∀ s, (m s).2 = s ∧ ∀ e, (m s).1 = Throw e → ∃ what, e = Unmodelled what.

Lemma reads_ret {A} (a : A) : reads (mret a).
Proof. intros s. split; [done|]. by intros e. Qed.

Lemma reads_bind {A B} (m : M ReactiveProxy A) (k : A → M ReactiveProxy B) :
  reads m → (∀ a, reads (k a)) → reads (m ≫= k).
Proof.
  intros Hm Hk s. destruct (Hm s) as [Hs He].
  unfold mbind, M_bind, bind. destruct (m s) as [[a|e] s']; simpl in *; subst.
  - apply Hk.
  - split; [done|]. intros e' [= <-]. by apply He.
Qed.

Lemma pget_reads p prop : nullish p = false → reads (pget p prop).
Proof.
  intros Hp. destruct p as [v|l path]; simpl.
  - apply reads_bind; [|intros; apply reads_ret].
    intros s. rewrite raw_get_run. split; [done|]. simpl.
    intros e. by apply value_get_error.
  - unfold get_trap. apply reads_bind; [|intros; apply reads_ret].
    intros s. rewrite raw_get_run. split; [done|].
    intros e. by apply (value_get_error (heap s) (VRef l)).
Qed.

Lemma opt_get_reads p key : reads (opt_get p key).
Proof.
  unfold opt_get. destruct (nullish p) eqn:E; [apply reads_ret|].
  by apply pget_reads.
Qed.

Lemma get_keys_reads keys : ∀ p, reads (get_keys p keys).
Proof.
  induction keys as [|key rest IH]; intros p; simpl; [apply reads_ret|].
  apply reads_bind; [|done]. unfold get_key.
  destruct (arrayMatch key) as [[arrayName index]|].
  - apply reads_bind; intros; apply opt_get_reads.
  - apply opt_get_reads.
Qed.

Lemma get_keys_undefined keys s :
  get_keys (Raw VUndefined) keys s = (Ok (Raw VUndefined), s).
Proof.
  induction keys as [|key rest IH]; simpl; [done|].
  unfold get_key. by destruct (arrayMatch key) as [[arrayName index]|].
Qed.



(** *** Deleting and writing through the proxy *)

Lemma value_get_own h l o prop :
  h !! l = Some o → prop ≠ "__proto__" →
  ∃ old, value_get h (VRef l) prop = Ok old.
Proof.
  intros Hl Hp. simpl. rewrite Hl.
  destruct (own_get o prop) as [x|]; [by eexists|].
  unfold inherited. apply String.eqb_neq in Hp. rewrite Hp.
  repeat case_match; by eexists.
Qed.

(** X20.  [delete proxy.a.b] notifies the subscribers of that path once,
    with [undefined] and the value the property read as, for a plain
    object and for an array alike, and also when the object has no such
    property; unlike a write, it does not notify the parent path. *)
Theorem delete_notifies_once
    (callback_throws : ObserverCallback → val → val → option exn)
    (s : ReactiveProxy) (l : loc) (o : obj) (path prop : string) :
  heap s !! l = Some o → prop ≠ "__proto__" →
  (is_array o = true → prop ≠ "length") →
  ∃ old s',
    value_get (heap s) (VRef l) prop = Ok old
    ∧ pdelete callback_throws (Proxied l path) prop s = (Ok tt, s')
    ∧ heap s'
      = <[l := {| is_array := is_array o; len := len o;
                  props := JsMap.delete prop (props o) |}]> (heap s)
    ∧ calls s'
      = calls s
        ++ calls_for (join_path path prop) (subscribers s (join_path path prop))
             VUndefined old.
Proof.
  intros Hl Hp Hlen.
  destruct (value_get_own _ _ _ _ Hl Hp) as [old Hold]. exists old.
  assert (Hdel : object_delete o prop
                 = Ok {| is_array := is_array o; len := len o;
                         props := JsMap.delete prop (props o) |}).
  { unfold object_delete. destruct (is_array o) eqn:Ha; [|done]. simpl.
    specialize (Hlen eq_refl). apply String.eqb_neq in Hlen. by rewrite Hlen. }
  eexists. split; [done|].
  unfold pdelete, delete_trap.
  erewrite run_bind; cycle 1.
  { erewrite run_bind; [|by rewrite raw_get_run, Hold].
    erewrite run_bind; cycle 1.
    { unfold raw_delete. erewrite run_bind; [reflexivity|].
      by eapply update_obj_run. }
    erewrite run_bind; [reflexivity|]. apply notify_spec. }
  done.
Qed.

(** X21.  A write to a property of an array through the proxy is passed
    on to the array and notifies nobody, whatever is observed.  The trap
    returns the written value, so a write of a falsy value ([0], [""],
    [false], [null], [undefined]) throws a [TypeError] after the array was
    changed. *)
Theorem array_write_notifies_nobody
    (callback_throws : ObserverCallback → val → val → option exn)
    (s : ReactiveProxy) (l : loc) (o o' : obj) (path prop : string) (v : val) :
  heap s !! l = Some o → is_array o = true → object_set o prop v = Ok o' →
  pset callback_throws (Proxied l path) prop v s
  = (if truthy v then Ok tt
     else Throw (TypeError "'set' on proxy: trap returned falsish"),
     set_heap (<[l := o']> (heap s)) s).
Proof.
  intros Hl Ha Hset.
  assert (Hp : prop ≠ "__proto__").
  { intros ->. unfold object_set in Hset. by simpl in Hset. }
  destruct (value_get_own _ _ _ _ Hl Hp) as [old Hold].
  unfold pset, set_trap.
  erewrite run_bind; cycle 1.
  { erewrite run_bind; [|by rewrite raw_get_run, Hold].
    erewrite run_bind; [|by apply isArray_run]. rewrite Ha.
    erewrite run_bind; [reflexivity|].
    unfold raw_set. by eapply update_obj_run. }
  by destruct (truthy v).
Qed.

(** *** Path segments *)

(** [s] is made of characters that satisfy [p]. *)
Fixpoint all_chars (p : ascii → bool) (s : string) : bool :=
  match s with
  | EmptyString => true
  | String c s' => p c && all_chars p s'
  end.

(** [s] does not start with a character that satisfies [p]. *)
Definition stops (p : ascii → bool) (s : string) : bool :=
  match s with
  | EmptyString => true
  | String c _ => negb (p c)
  end.

Lemma string_app_cons c (a b : string) : String c a +:+ b = String c (a +:+ b).
Proof. done. Qed.

Lemma string_app_nil_l (b : string) : "" +:+ b = b.
Proof. done. Qed.

Lemma span_spec p s a b :
  span p s = (a, b) ↔ s = a +:+ b ∧ all_chars p a = true ∧ stops p b = true.
Proof.
  revert a b. induction s as [|c s IH]; intros a b; simpl.
  - split.
    + by intros [= <- <-].
    + intros (Hs & _ & _). destruct a; [|done].
      rewrite string_app_nil_l in Hs. by subst b.
  - destruct (p c) eqn:Hc.
    + destruct (span p s) as [a0 b0] eqn:E. split.
      * intros [= <- <-]. destruct (proj1 (IH a0 b0) eq_refl) as (-> & Ha & Hb).
        simpl. by rewrite Hc.
      * intros (Hs & Ha & Hb). destruct a as [|c' a].
        -- rewrite string_app_nil_l in Hs. subst b. simpl in Hb.
           by rewrite Hc in Hb.
        -- rewrite string_app_cons in Hs. injection Hs as <- ->.
           simpl in Ha. apply andb_true_iff in Ha as [_ Ha].
           assert (E' : (a0, b0) = (a, b)) by by apply IH.
           by injection E' as -> ->.
    + split.
      * intros [= <- <-]. simpl. by rewrite Hc.
      * intros (Hs & Ha & Hb). destruct a as [|c' a].
        -- rewrite string_app_nil_l in Hs. by subst b.
        -- rewrite string_app_cons in Hs. injection Hs as <- ->.
           simpl in Ha. by rewrite Hc in Ha.
Qed.

(** X22.  A path segment is read as an array access exactly when it is one
    or more word characters, a bracket, one or more digits and a closing
    bracket, with nothing before or after; the name is the word and the
    index is the digits, as they are written. *)
Theorem arrayMatch_reads_name_and_index (key arrayName index : string) :
  arrayMatch key = Some (arrayName, index)
  ↔ key = arrayName +:+ "[" +:+ index +:+ "]"
    ∧ arrayName ≠ "" ∧ all_chars is_word_char arrayName = true
    ∧ index ≠ "" ∧ all_chars is_digit index = true.
Proof.
  unfold arrayMatch. split.
  - destruct (span is_word_char key) as [a rest] eqn:Ea.
    apply span_spec in Ea as (-> & Ha & _).
    destruct rest as [|c rest1]; [done|].
    destruct (span is_digit rest1) as [i rest2] eqn:Ei.
    apply span_spec in Ei as (-> & Hi & _).
    destruct (Ascii.eqb_spec c "["%char) as [->|]; [|done]. simpl.
    destruct (String.eqb_spec a ""); [done|]. simpl.
    destruct (String.eqb_spec i ""); [done|]. simpl.
    destruct (String.eqb_spec rest2 "]") as [->|]; [|done].
    by intros [= <- <-].
  - intros (-> & Hn & Ha & Hi & Hd).
    assert (E1 : span is_word_char (arrayName +:+ "[" +:+ index +:+ "]")
                 = (arrayName, "[" +:+ index +:+ "]")) by by apply span_spec.
    rewrite E1, string_app_cons, string_app_nil_l.
    assert (E2 : span is_digit (index +:+ "]") = (index, "]")) by by apply span_spec.
    rewrite E2. simpl.
    apply String.eqb_neq in Hn, Hi. by rewrite Hn, Hi.
Qed.

(** [keys.join('.')] *)
Fixpoint join_dot (keys : list string) : string :=
  match keys with
  | [] => ""
  | [k] => k
  | k :: rest => k +:+ "." +:+ join_dot rest
  end.

Definition dot_free (k : string) : Prop :=
  all_chars (λ c, negb (Ascii.eqb c "."%char)) k = true.

Lemma split_dot_not_nil s : split_dot s ≠ [].
Proof.
  induction s as [|c s IH]; simpl; [done|].
  destruct (Ascii.eqb c "."); [done|]. by destruct (split_dot s).
Qed.

Lemma split_dot_cons_key k keys :
  dot_free k → keys ≠ [] →
  split_dot (k +:+ "." +:+ join_dot keys) = k :: split_dot (join_dot keys).
Proof.
  intros Hk Hne. induction k as [|c k IH]; simpl; [done|].
  unfold dot_free in Hk. simpl in Hk. apply andb_true_iff in Hk as [Hc Hk].
  apply negb_true_iff in Hc. rewrite Hc. by rewrite IH.
Qed.

Lemma split_dot_key k : dot_free k → split_dot k = [k].
Proof.
  intros Hk. induction k as [|c k IH]; simpl; [done|].
  unfold dot_free in Hk. simpl in Hk. apply andb_true_iff in Hk as [Hc Hk].
  apply negb_true_iff in Hc. rewrite Hc. by rewrite IH.
Qed.

Lemma split_dot_join keys :
  keys ≠ [] → Forall dot_free keys → split_dot (join_dot keys) = keys.
Proof.
  induction keys as [|k [|k' rest] IH]; intros Hne Hall; [done | |].
  - apply Forall_cons in Hall as [Hk _]. by apply split_dot_key.
  - apply Forall_cons in Hall as [Hk Hall].
    change (join_dot (k :: k' :: rest)) with (k +:+ "." +:+ join_dot (k' :: rest)).
    rewrite split_dot_cons_key by done. by rewrite IH.
Qed.

Lemma join_dot_split s :
  join_dot (split_dot s) = s ∧ Forall dot_free (split_dot s).
Proof.
  induction s as [|c s [IH1 IH2]]; simpl; [by repeat constructor|].
  destruct (Ascii.eqb_spec c ".") as [->|Hc].
  - pose proof (split_dot_not_nil s) as Hne.
    destruct (split_dot s) as [|k ks] eqn:E; [done|].
    split; [by rewrite <- IH1 | by constructor].
  - destruct (split_dot s) as [|k ks] eqn:E; [by destruct (split_dot_not_nil s)|].
    apply Forall_cons in IH2 as [Hk Hks]. split.
    + rewrite <- IH1. by destruct ks.
    + constructor; [|done]. unfold dot_free. simpl.
      apply Ascii.eqb_neq in Hc. by rewrite Hc.
Qed.

(** X23.  How [set] and [get] cut a path into segments: the segments of a
    path are never none, hold no dot, and give the path back when joined
    with dots; and every such list of segments is what its joined path is
    cut into.  In particular the empty path has the one segment [""]. *)
Theorem split_dot_inverts_join (path : string) (keys : list string) :
  split_dot path = keys
  ↔ keys ≠ [] ∧ Forall dot_free keys ∧ join_dot keys = path.
Proof.
  split.
  - intros <-. destruct (join_dot_split path) as [H1 H2].
    split_and!; [apply split_dot_not_nil | done | done].
  - intros (Hne & Hall & <-). by apply split_dot_join.
Qed.


(** *** [set] and [get] agree on paths without array accesses *)

(** A segment that [set] and [get] read in the same way. *)
Definition plain_key (k : string) : Prop :=
  arrayMatch k = None ∧ k ≠ "__proto__".

(** The objects [set] finds on its way along [keys], from the object at
    [l], are plain objects, and it finds none of them twice (nor one of
    [seen]).  Where a key holds no object, [set] will create one. *)
Fixpoint chain (h : list obj) (seen : list loc) (l : loc) (keys : list string)
    : Prop :=
  match keys with
  | [] => False
  | key :: rest =>
      (∃ o, h !! l = Some o ∧ is_array o = false) ∧ (l ∉ seen)
      ∧ match rest with
        | [] => True
        | _ => match value_get h (VRef l) key with
               | Ok (VRef l') => chain h (l :: seen) l' rest
               | _ => True
               end
        end
  end.

Lemma value_get_ext h h' l prop :
  h' !! l = h !! l → value_get h' (VRef l) prop = value_get h (VRef l) prop.
Proof. intros Hl. simpl. by rewrite Hl. Qed.

Lemma value_get_set h l o prop v :
  h !! l = Some o → is_array o = false →
  value_get (<[l := {| is_array := false; len := len o;
                       props := JsMap.set prop v (props o) |}]> h)
    (VRef l) prop = Ok v.
Proof.
  intros Hl Ha. simpl. rewrite list_lookup_insert_eq by by eapply lookup_lt_Some.
  unfold own_get. simpl. by rewrite JsMap.get_set_eq.
Qed.

Lemma pget_proxied l path prop x s :
  value_get (heap s) (VRef l) prop = Ok x →
  pget (Proxied l path) prop s = (Ok (createProxy x (join_path path prop)), s).
Proof.
  intros Hx. unfold pget, get_trap.
  by erewrite run_bind; [|by rewrite raw_get_run, Hx].
Qed.

Section RoundTrip.
Variable callback_throws : ObserverCallback → val → val → option exn.

Lemma pset_plain l o path prop v s :
  heap s !! l = Some o → is_array o = false → prop ≠ "__proto__" →
  ∃ s', pset callback_throws (Proxied l path) prop v s = (Ok tt, s')
        ∧ heap s' = <[l := {| is_array := false; len := len o;
                              props := JsMap.set prop v (props o) |}]> (heap s)
        ∧ target s' = target s.
Proof.
  intros Hl Ha Hp.
  destruct (value_get_own _ _ _ _ Hl Hp) as [old Hold].
  exists (written callback_throws l o path prop v old s). split_and!.
  - unfold pset. by erewrite run_bind; [|by apply set_trap_object].
  - unfold written. by destruct (String.eqb path "").
  - unfold written. by destruct (String.eqb path "").
Qed.

Lemma get_keys_step l path key rest x s :
  arrayMatch key = None → value_get (heap s) (VRef l) key = Ok x →
  get_keys (Proxied l path) (key :: rest) s
  = get_keys (createProxy x (join_path path key)) rest s.
Proof.
  intros Hk Hx. cbn [get_keys]. unfold get_key. rewrite Hk.
  unfold opt_get. simpl nullish. cbv iota.
  by erewrite run_bind; [|by apply pget_proxied].
Qed.

Lemma set_keys_then_get_keys v keys : ∀ seen l path s,
  chain (heap s) seen l keys → Forall plain_key keys →
  Forall (λ x, (x < length (heap s))%nat) seen →
  ∃ s', set_keys callback_throws (Proxied l path) keys v s = (Ok tt, s')
        ∧ get_keys (Proxied l path) keys s'
          = (Ok (createProxy v (foldl join_path path keys)), s')
        ∧ (∀ x, x ∈ seen → heap s' !! x = heap s !! x)
        ∧ (length (heap s) ≤ length (heap s'))%nat
        ∧ target s' = target s.
Proof.
  induction keys as [|k rest IH]; intros seen l path s Hch Hkeys Hseen; [done|].
  apply Forall_cons in Hkeys as [[Hk Hp] Hrest].
  destruct Hch as ([o [Hl Ha]] & Hnew & Hnext).
  pose proof (lookup_lt_Some _ _ _ Hl) as Hlt.
  destruct rest as [|k' rest'].
  - (* the last key *)
    destruct (pset_plain l o path k v s Hl Ha Hp) as (s' & Hset & Hh & Ht).
    exists s'. split_and!; [done | | | | done].
    + rewrite (get_keys_step _ _ _ _ v); [done | done |].
      rewrite Hh. by apply value_get_set.
    + intros x Hx. rewrite Hh, list_lookup_insert_ne; [done|].
      intros ->. done.
    + by rewrite Hh, length_insert.
  - destruct (value_get_own _ _ _ _ Hl Hp) as [x Hx].
    assert (Hobj : ∀ l', x = VRef l' →
      set_keys callback_throws (Proxied l path) (k :: k' :: rest') v s
      = set_keys callback_throws (Proxied l' (join_path path k))
          (k' :: rest') v s).
    { intros l' ->. cbn [set_keys]. rewrite Hk.
      erewrite run_bind; [|by apply pget_proxied].
      erewrite run_bind; cycle 1.
      { change (ptruthy (createProxy (VRef l') (join_path path k))) with true.
        cbv iota. erewrite run_bind; [reflexivity | by apply pget_proxied]. }
      change (negb (typeof_object (createProxy (VRef l') (join_path path k))))
        with false. cbv iota.
      erewrite run_bind; [|reflexivity].
      by erewrite run_bind; [|by apply pget_proxied]. }
    destruct (decide (is_object x = true)) as [Hox|Hox].
    + (* the key holds an object *)
      destruct x as [| | | | | |l']; try done.
      rewrite (Hobj l' eq_refl).
      rewrite Hx in Hnext.
      destruct (IH (l :: seen) l' (join_path path k) s Hnext Hrest)
        as (s' & Hset & Hget & Hfr & Hlen & Ht).
      { by constructor. }
      exists s'. split_and!; [done | | | done | done].
      * rewrite (get_keys_step _ _ _ _ (VRef l')); [done | done |].
        rewrite (value_get_ext (heap s)); [done|].
        apply Hfr, list_elem_of_here.
      * intros y Hy. by apply Hfr, list_elem_of_further.
    + (* the key holds no object: [set] creates one *)
      set (a := length (heap s)).
      set (s1 := set_heap (heap s ++ [empty_object]) s).
      assert (Hl1 : heap s1 !! l = Some o) by by apply lookup_app_l_Some.
      destruct (pset_plain l o path k (VRef a) s1 Hl1 Ha Hp)
        as (s2 & Hset2 & Hh2 & Ht2).
      assert (Hx2 : value_get (heap s2) (VRef l) k = Ok (VRef a)).
      { rewrite Hh2. by apply value_get_set. }
      assert (Hla : l ≠ a) by (subst a; lia).
      assert (Ha2 : heap s2 !! a = Some empty_object).
      { rewrite Hh2, list_lookup_insert_ne by done. subst s1 a. simpl.
        by rewrite lookup_app_r, Nat.sub_diag. }
      assert (Hlen2 : length (heap s2) = S a).
      { rewrite Hh2, length_insert. subst s1 a. simpl.
        rewrite length_app. simpl. lia. }
      assert (Hstep : set_keys callback_throws (Proxied l path)
                        (k :: k' :: rest') v s
                      = set_keys callback_throws (Proxied a (join_path path k))
                          (k' :: rest') v s2).
      { cbn [set_keys]. rewrite Hk.
        erewrite run_bind; [|by apply pget_proxied].
        assert (Hrep : (if ptruthy (createProxy x (join_path path k))
                        then c ← pget (Proxied l path) k;
                             mret (negb (typeof_object c))
                        else mret true) s = (Ok true, s)).
        { destruct x as [| |b|n|str|native|l']; simpl; try done.
          - destruct b; [|done].
            by erewrite run_bind; [|by apply pget_proxied].
          - destruct (negb (n =? 0)); [|done].
            by erewrite run_bind; [|by apply pget_proxied].
          - destruct (negb (String.eqb str "")); [|done].
            by erewrite run_bind; [|by apply pget_proxied].
          - by erewrite run_bind; [|by apply pget_proxied]. }
        erewrite run_bind; [|exact Hrep]. cbv iota.
        erewrite run_bind; cycle 1.
        { erewrite run_bind; [|reflexivity]. exact Hset2. }
        by erewrite run_bind; [|by apply pget_proxied]. }
      rewrite Hstep.
      destruct (IH (l :: seen) a (join_path path k) s2) as
        (s' & Hset & Hget & Hfr & Hlen & Ht); [| done | |].
      { split_and!.
        - by exists empty_object.
        - intros [->|Hin]%elem_of_cons; [done|].
          rewrite Forall_forall in Hseen. apply Hseen in Hin. subst a. lia.
        - destruct rest' as [|k'' rest'']; [done|].
          unfold value_get. rewrite Ha2. unfold own_get, inherited. simpl.
          by repeat case_match. }
      { constructor; [lia|]. eapply Forall_impl; [exact Hseen|].
        intros y Hy. simpl in Hy. fold a in Hy. lia. }
      exists s'. split_and!; [done | | | lia | by rewrite Ht, Ht2].
      * rewrite (get_keys_step _ _ _ _ (VRef a)); [done | done |].
        rewrite (value_get_ext (heap s2)); [done|].
        apply Hfr, list_elem_of_here.
      * intros y Hy. rewrite Hfr by by apply list_elem_of_further.
        rewrite Hh2, list_lookup_insert_ne by (by intros ->).
        subst s1. simpl. apply lookup_app_l.
        rewrite Forall_forall in Hseen. by apply Hseen.
Qed.
End RoundTrip.

(** X24.  [set(path, v)] followed by [get(path)] gives back [v] (seen
    through the proxy when [v] is an object) for every path whose segments
    are no array accesses, when the target and the objects [set] finds on
    its way are plain objects and none of them is found twice.  Where a
    segment before the last holds no object, [set] puts a new empty object
    there and goes on; it does not throw. *)
Theorem set_then_get_returns_the_value
    (callback_throws : ObserverCallback → val → val → option exn)
    (path : string) (v : val) (l : loc) (s : ReactiveProxy) :
  target s = VRef l →
  chain (heap s) [] l (split_dot path) →
  Forall plain_key (split_dot path) →
  ∃ s', set callback_throws path v s = (Ok tt, s')
        ∧ get path s'
          = (Ok (createProxy v (foldl join_path "" (split_dot path))), s')
        ∧ (is_object v = false → (get path s').1 = Ok (Raw v)).
Proof.
  intros Ht Hch Hkeys.
  destruct (set_keys_then_get_keys callback_throws v (split_dot path) [] l "" s
              Hch Hkeys) as (s' & Hset & Hget & _ & _ & Ht'); [constructor|].
  exists s'.
  assert (Hg : get path s'
               = (Ok (createProxy v (foldl join_path "" (split_dot path))), s')).
  { unfold get. erewrite run_bind; [|reflexivity].
    unfold getProxy. rewrite Ht', Ht. exact Hget. }
  split_and!; [| done |].
  - unfold set. erewrite run_bind; [|reflexivity].
    unfold getProxy. rewrite Ht. exact Hset.
  - intros Hv. rewrite Hg. simpl. by destruct v.
Qed.


(** *** Computations that do not return *)

(** From a state that satisfies [I], [m] throws. *)
Definition never_ok {A} (I : ReactiveProxy → Prop) (m : M ReactiveProxy A) : Prop :=
  ∀ s, I s → ∀ a, (m s).1 ≠ Ok a.

Section NeverOk.
Variable I : ReactiveProxy → Prop.

Lemma never_throw {A} e : never_ok (A := A) I (throw e).
Proof. by intros s _ a. Qed.

Lemma never_bind_l {A B} (m : M ReactiveProxy A) (k : A → M ReactiveProxy B) :
  never_ok I m → never_ok I (m ≫= k).
Proof.
  intros Hm s Hs b. specialize (Hm s Hs).
  unfold mbind, M_bind, bind. destruct (m s) as [[a|e] s']; simpl in *; [|done].
  by destruct (Hm a).
Qed.

Lemma never_bind_r {A B} (m : M ReactiveProxy A) (k : A → M ReactiveProxy B) Q :
  pres I m Q → (∀ a, Q a → never_ok I (k a)) → never_ok I (m ≫= k).
Proof.
  intros Hm Hk s Hs b. destruct (Hm s Hs) as [Hi Hq].
  unfold mbind, M_bind, bind. destruct (m s) as [[a|e] s']; simpl in *; [|done].
  by apply Hk; [apply Hq|].
Qed.

Lemma never_forEach {A} (l : list A) (f : A → M ReactiveProxy unit) x :
  x ∈ l → (∀ y, y ∈ l → pres I (f y) (λ _, True)) → never_ok I (f x) →
  never_ok I (forEach l f).
Proof.
  intros Hx Hf Hnever. induction l as [|y l IH]; [by apply elem_of_nil in Hx|].
  change (forEach (y :: l) f) with (f y ≫= λ _, forEach l f).
  apply elem_of_cons in Hx as [->|Hx]; [by apply never_bind_l|].
  eapply never_bind_r; [apply Hf, list_elem_of_here|]. intros _ _.
  apply IH; [done|]. intros z Hz. by apply Hf, list_elem_of_further.
Qed.
End NeverOk.

(** *** Data that never ends *)

(** [deepClone] of [o] clones what [o] holds under [key]. *)
Definition visits (o : obj) (key : string) (v : val) : Prop :=
  if is_array o
  then ∃ k, (k < len o)%N ∧ key = to_key k ∧ JsMap.get key (props o) = Some v
  else (key, v) ∈ props o.

(** Each object of the set [P] holds, where [deepClone] looks, an object
    of [P] again: a cycle, for one. *)
Definition endless (h : list obj) (P : loc → Prop) : Prop :=
  ∀ l, P l → ∃ o key l', h !! l = Some o ∧ visits o key (VRef l') ∧ P l'.

Lemma deepClone_endless h0 (P : loc → Prop) depth :
  endless h0 P → ∀ l, P l → never_ok (separated h0) (deepClone depth (VRef l)).
Proof.
  intros Hend. induction depth as [|depth IH]; intros l Hl;
    [apply never_throw|].
  destruct (Hend l Hl) as (o & key & l' & Ho & Hv & Hl').
  cbn [deepClone].
  apply (never_bind_r _ _ _ (λ o', o' = o)).
  { intros s Hs. split; [done|]. unfold lookup_obj, lift. simpl.
    rewrite (lookup_prefix h0 (heap s) l o (sep_old h0 s Hs) Ho).
    by intros o' [= <-]. }
  intros o' ->. unfold visits in Hv. destruct (is_array o) eqn:Ha.
  - destruct Hv as (k & Hk & -> & Hget).
    destruct (JsMap.get "map" (props o)) as [[]|];
      try (apply never_bind_l, never_throw).
    apply (never_bind_r _ _ _ (λ _, True)); [by apply pres_ret|]. intros _ _.
    apply (never_bind_r _ _ _ (λ a, (length h0 ≤ a)%nat));
      [apply alloc_pres; by constructor|].
    intros a Hge. apply never_bind_l.
    apply (never_forEach _ _ _ (N.to_nat k)).
    + apply elem_of_seq. lia.
    + intros y _. simpl.
      destruct (JsMap.get (to_key (N.of_nat y)) (props o)); [|by apply pres_ret].
      eapply pres_bind; [apply deepClone_pres|]. intros c Hc.
      exact (raw_set_pres h0 (VRef a) _ c Hge Hc).
    + simpl. rewrite N2Nat.id, Hget. by apply never_bind_l, IH.
  - apply (never_bind_r _ _ _ (λ a, (length h0 ≤ a)%nat));
      [apply alloc_pres; by constructor|].
    intros a Hge. apply never_bind_l.
    apply (never_forEach _ _ _ (key, VRef l')); [done | |].
    + intros y _.
      destruct (JsMap.get "hasOwnProperty" (props o)) as [[]|];
        try apply pres_throw.
      eapply pres_bind; [apply deepClone_pres|]. intros c Hc.
      exact (raw_set_pres h0 (VRef a) _ c Hge Hc).
    + destruct (JsMap.get "hasOwnProperty" (props o)) as [[]|];
        try apply never_throw.
      by apply never_bind_l, IH.
Qed.


(** *** A target that is not an object *)

Definition primitive (p : pval) : Prop :=
  match p with
  | Raw v => is_object v = false
  | Proxied _ _ => False
  end.

Lemma inherited_primitive array prop x :
  inherited array prop = Ok x → is_object x = false.
Proof. unfold inherited. repeat case_match; by intros [= <-]. Qed.

Lemma string_get_primitive s prop x :
  string_get s prop = Ok x → is_object x = false.
Proof.
  unfold string_get. destruct (String.eqb prop "length"); [by intros [= <-]|].
  destruct (is_index prop) as [i|]; [|apply inherited_primitive].
  destruct (if (i <? N.of_nat (String.length s))%N
            then String.get (N.to_nat i) s else None) as [c|];
    [by intros [= <-] | apply inherited_primitive].
Qed.

Lemma pget_primitive p prop :
  primitive p → pres (λ _, True) (pget p prop) primitive.
Proof.
  intros Hp s _. split; [done|]. destruct p as [v|]; [|done]. simpl in *.
  unfold mbind, M_bind, bind. rewrite raw_get_run.
  destruct (value_get (heap s) v prop) as [x|e] eqn:E; [|done].
  intros p' [= <-]. simpl.
  destruct v; simpl in E; try done;
    first [by eapply inherited_primitive | by eapply string_get_primitive].
Qed.

Section Primitive.
Variable callback_throws : ObserverCallback → val → val → option exn.

Lemma pset_primitive p prop v :
  primitive p → never_ok (λ _, True) (pset callback_throws p prop v).
Proof.
  intros Hp s _ a. destruct p as [x|]; [|done]. simpl in *.
  by destruct x.
Qed.

Lemma set_keys_primitive keys v : ∀ p,
  primitive p → never_ok (λ _, True) (set_keys callback_throws p keys v).
Proof.
  induction keys as [|key rest IH]; intros p Hp; [by apply pset_primitive|].
  destruct rest as [|key' rest']; [by apply pset_primitive|].
  cbn [set_keys]. set (keys := key' :: rest') in *.
  destruct (arrayMatch key) as [[arrayName index]|].
  - apply (never_bind_r _ _ _ primitive); [by apply pget_primitive|].
    intros a Ha.
    apply (never_bind_r _ _ _ (λ _, ptruthy a = true)).
    { destruct (ptruthy a); [by apply pres_ret|].
      intros s _. split; [done|]. intros u Hu. exfalso.
      revert Hu. apply (never_bind_r (λ _, True) _ _ (λ _, True));
        [by intros ? ? | | done].
      intros arr _. by apply pset_primitive. }
    intros _ _.
    apply (never_bind_r _ _ _ primitive); [by apply pget_primitive|].
    intros a' Ha'.
    apply (never_bind_r _ _ _ primitive); [by apply pget_primitive|].
    intros e He.
    apply (never_bind_r _ _ _ (λ _, True)).
    { intros s _. split; done. }
    intros _ _.
    apply (never_bind_r _ _ _ primitive); [by apply pget_primitive|].
    intros a'' Ha''.
    apply (never_bind_r _ _ _ primitive); [by apply pget_primitive|].
    intros next Hnext. by apply IH.
  - apply (never_bind_r _ _ _ primitive); [by apply pget_primitive|].
    intros c Hc.
    apply (never_bind_r _ _ _ (λ _, True)); [by intros ? ?|]. intros replace _.
    apply (never_bind_r _ _ _ (λ _, True)); [by intros ? ?|]. intros _ _.
    apply (never_bind_r _ _ _ primitive); [by apply pget_primitive|].
    intros next Hnext. by apply IH.
Qed.
End Primitive.



(** *** [push] through the proxy *)

Lemma object_set_array o prop v o' :
  is_array o = true → object_set o prop v = Ok o' → is_array o' = true.
Proof.
  intros Ha. unfold object_set. rewrite Ha.
  repeat case_match; try done; by intros [= <-].
Qed.

Section PushFacts.
Variable callback_throws : ObserverCallback → val → val → option exn.
Variables (l : loc) (s0 : ReactiveProxy).

(** Nothing was notified or logged since [s0], and [l] is an array. *)
Definition quiet (s : ReactiveProxy) : Prop :=
  calls s = calls s0 ∧ console s = console s0 ∧ observers s = observers s0
  ∧ ∃ o, heap s !! l = Some o ∧ is_array o = true.

Lemma pget_quiet path prop : pres quiet (pget (Proxied l path) prop) (λ _, True).
Proof.
  intros s Hs. split; [|done]. unfold pget, get_trap, mbind, M_bind, bind.
  rewrite raw_get_run. by destruct (value_get (heap s) (VRef l) prop).
Qed.

Lemma pset_quiet path prop v :
  pres quiet (pset callback_throws (Proxied l path) prop v) (λ _, True).
Proof.
  intros s Hs. split; [|done].
  destruct Hs as (Hc & He & Ho & o & Hl & Ha).
  unfold pset, set_trap.
  destruct (value_get (heap s) (VRef l) prop) as [old|e] eqn:Hold.
  - destruct (object_set o prop v) as [o'|e] eqn:Hset.
    + erewrite run_bind; cycle 1.
      { erewrite run_bind; [|by rewrite raw_get_run, Hold].
        erewrite run_bind; [|by apply isArray_run]. rewrite Ha.
        erewrite run_bind; [reflexivity|].
        unfold raw_set. by eapply update_obj_run. }
      assert (Hq : quiet (set_heap (<[l := o']> (heap s)) s)).
      { split_and!; try done. exists o'. simpl. split.
        - apply list_lookup_insert_eq. by eapply lookup_lt_Some.
        - by eapply object_set_array. }
      by destruct (truthy v).
    + erewrite run_bind_throw; cycle 1.
      { erewrite run_bind; [|by rewrite raw_get_run, Hold].
        erewrite run_bind; [|by apply isArray_run]. rewrite Ha.
        erewrite run_bind_throw; [reflexivity|].
        unfold raw_set. by eapply update_obj_throw. }
      simpl. split_and!; try done. by exists o.
  - erewrite run_bind_throw; cycle 1.
    { erewrite run_bind_throw; [reflexivity|]. by rewrite raw_get_run, Hold. }
    simpl. split_and!; try done. by exists o.
Qed.

Lemma set_items_quiet path items : ∀ k,
  pres quiet (set_items callback_throws (Proxied l path) k items) (λ _, True).
Proof.
  induction items as [|E rest IH]; intros k; simpl; [by apply pres_ret|].
  eapply pres_bind; [apply pset_quiet|]. intros _ _. apply IH.
Qed.

Lemma array_push_quiet path items :
  pres quiet (array_push callback_throws (Proxied l path) items) (λ _, True).
Proof.
  unfold array_push, length_of.
  apply (pres_bind _ _ _ (λ _, True)).
  { eapply pres_bind; [apply pget_quiet|]. intros lenv _.
    destruct lenv as [[]|]; try apply pres_throw. by apply pres_ret. }
  intros len _.
  eapply pres_bind; [apply set_items_quiet|]. intros len' _.
  eapply pres_bind; [apply pset_quiet|]. intros _ _. by apply pres_ret.
Qed.
End PushFacts.

(** X27.  [proxy.items.push(...)] calls no observer, whatever is observed
    and whatever is pushed: the method the proxy hands out is the array's
    own [push], every write it makes goes through the [set] trap to the
    array, and neither the registry nor the log changes, whether the call
    returns or throws. *)
Theorem push_notifies_nobody
    (callback_throws : ObserverCallback → val → val → option exn)
    (s : ReactiveProxy) (l : loc) (o : obj) (path : string) (items : list val) :
  heap s !! l = Some o → is_array o = true →
  JsMap.get "push" (props o) = None →
  let out := call_method callback_throws (Proxied l path) "push" items s in
  out = array_push callback_throws (Proxied l path) items s
  ∧ calls out.2 = calls s ∧ console out.2 = console s
  ∧ observers out.2 = observers s.
Proof.
  intros Hl Ha Hpush out.
  assert (Hout : out = array_push callback_throws (Proxied l path) items s).
  { subst out. unfold call_method.
    rewrite (run_bind _ _ _ (Raw (VNative "Array.prototype.push")) s); [done|].
    apply (pget_proxied l path "push" (VNative "Array.prototype.push")).
    simpl. rewrite Hl. unfold own_get, inherited. by rewrite Ha, Hpush. }
  split; [done|]. rewrite Hout.
  destruct (array_push_quiet callback_throws l s path items s)
    as [(Hc & He & Ho & _) _]; [|done].
  split_and!; try done. by exists o.
Qed.

(** *** The theorems at concrete wrappers *)

Lemma delete_notifies_once_witness :
  let o := {| is_array := false; len := 0; props := [("items", VRef 3%nat)] |} in
  heap items_wrapped !! 2%nat = Some o ∧ "items" ≠ "__proto__"
  ∧ (is_array o = true → "items" ≠ "length")
  ∧ ∃ old s',
      pdelete never_throws (Proxied 2%nat "") "items" items_wrapped = (Ok tt, s')
      ∧ calls s'
        = calls items_wrapped
          ++ calls_for "items" (subscribers items_wrapped "items") VUndefined old.
Proof.
  assert (H1 : "items" ≠ "__proto__") by discriminate.
  assert (H2 : is_array {| is_array := false; len := 0;
                           props := [("items", VRef 3%nat)] |} = true
               → "items" ≠ "length") by discriminate.
  split_and!; [reflexivity | exact H1 | exact H2 |].
  destruct (delete_notifies_once never_throws items_wrapped 2%nat _ "" "items"
              eq_refl H1 H2) as (old & s' & _ & A & _ & B).
  exists old, s'. split; [exact A | exact B].
Defined.

Lemma array_write_notifies_nobody_witness :
  let o := {| is_array := true; len := 2;
              props := [("0", VNum 1); ("1", VNum 2)] |} in
  let o' := {| is_array := true; len := 2;
               props := [("0", VNum 0); ("1", VNum 2)] |} in
  heap items_wrapped !! 3%nat = Some o ∧ is_array o = true
  ∧ object_set o "0" (VNum 0) = Ok o'
  ∧ pset never_throws (Proxied 3%nat "items") "0" (VNum 0) items_wrapped
    = (Throw (TypeError "'set' on proxy: trap returned falsish"),
       set_heap (<[3%nat := o']> (heap items_wrapped)) items_wrapped).
Proof.
  split_and!; [reflexivity | reflexivity | reflexivity |].
  apply (array_write_notifies_nobody never_throws items_wrapped 3%nat _ _
           "items" "0" (VNum 0) eq_refl eq_refl eq_refl).
Defined.

Lemma set_then_get_returns_the_value_witness :
  target empty_wrapped = VRef 1%nat
  ∧ chain (heap empty_wrapped) [] 1%nat (split_dot "a.b")
  ∧ Forall plain_key (split_dot "a.b")
  ∧ ∃ s', set never_throws "a.b" (VNum 5) empty_wrapped = (Ok tt, s')
          ∧ (get "a.b" s').1 = Ok (Raw (VNum 5)).
Proof.
  assert (Hch : chain (heap empty_wrapped) [] 1%nat (split_dot "a.b")).
  { simpl. split_and!; [by exists empty_object | apply not_elem_of_nil | done]. }
  assert (Hk : Forall plain_key (split_dot "a.b")).
  { repeat constructor; discriminate. }
  split_and!; [reflexivity | exact Hch | exact Hk |].
  destruct (set_then_get_returns_the_value never_throws "a.b" (VNum 5) 1%nat
              empty_wrapped eq_refl Hch Hk) as (s' & A & _ & B).
  exists s'. split; [exact A | exact (B eq_refl)].
Defined.

(** [const o = {}; o.self = o]. *)
Definition self_heap : list obj :=
  [ {| is_array := false; len := 0; props := [("self", VRef 0%nat)] |} ].

Lemma self_heap_endless : endless self_heap (λ l, l = 0%nat).
Proof.
  intros l ->. eexists _, "self", 0%nat.
  split_and!; [reflexivity | apply list_elem_of_here | reflexivity].
Qed.



Lemma push_notifies_nobody_witness :
  let o := {| is_array := true; len := 2;
              props := [("0", VNum 1); ("1", VNum 2)] |} in
  heap items_wrapped !! 3%nat = Some o ∧ is_array o = true
  ∧ JsMap.get "push" (props o) = None
  ∧ calls (call_method never_throws (Proxied 3%nat "items") "push" [VNum 3]
             items_wrapped).2 = calls items_wrapped.
Proof.
  split_and!; [reflexivity | reflexivity | reflexivity |].
  apply (push_notifies_nobody never_throws items_wrapped 3%nat _ "items"
           [VNum 3] eq_refl eq_refl eq_refl).
Defined.


(** *** [set] creates the array of an array access *)

Lemma arrayMatch_index key arrayName index :
  arrayMatch key = Some (arrayName, index) →
  index ≠ "" ∧ all_chars is_digit index = true.
Proof.
  unfold arrayMatch.
  destruct (span is_word_char key) as [a rest] eqn:Ea.
  destruct rest as [|c rest1]; [done|].
  destruct (span is_digit rest1) as [i rest2] eqn:Ei.
  apply span_spec in Ei as (_ & Hi & _).
  destruct (Ascii.eqb c "["%char); [|done]. simpl.
  destruct (String.eqb_spec a ""); [done|]. simpl.
  destruct (String.eqb_spec i ""); [done|]. simpl.
  destruct (String.eqb rest2 "]"); [|done]. by intros [= <- <-].
Qed.

(** A key made of digits is the name of no inherited method. *)
Lemma digits_inherit_nothing index array :
  index ≠ "" → all_chars is_digit index = true →
  inherited array index = Ok VUndefined ∧ index ≠ "length"
  ∧ index ≠ "__proto__".
Proof.
  intros Hne Hd. destruct index as [|c r]; [done|]. simpl in Hd.
  apply andb_true_iff in Hd as [Hc _].
  assert (Hnames : ∀ names : list string,
            Forall (λ n, match n with
                         | String c' _ => is_digit c' = false
                         | EmptyString => True
                         end) names → String c r ∉ names).
  { intros names Hall Hin. rewrite Forall_forall in Hall.
    specialize (Hall _ Hin). simpl in Hall. congruence. }
  assert (H1 : String c r ∉ array_prototype_names)
    by (apply Hnames; repeat constructor).
  assert (H2 : String c r ∉ object_prototype_names)
    by (apply Hnames; repeat constructor).
  assert (H3 : String c r ≠ "__proto__").
  { intros [= -> _]. by vm_compute in Hc. }
  assert (H4 : String c r ≠ "length").
  { intros [= -> _]. by vm_compute in Hc. }
  split_and!; [|done|done].
  unfold inherited. rewrite (bool_decide_eq_false_2 _ H1), andb_false_r.
  apply String.eqb_neq in H3. rewrite H3.
  by rewrite (bool_decide_eq_false_2 _ H2).
Qed.

Section ArrayAccess.
Variable callback_throws : ObserverCallback → val → val → option exn.

Lemma pset_array_ok l o o' path prop v s :
  heap s !! l = Some o → is_array o = true → object_set o prop v = Ok o' →
  truthy v = true →
  pset callback_throws (Proxied l path) prop v s
  = (Ok tt, set_heap (<[l := o']> (heap s)) s).
Proof.
  intros Hl Ha Hset Hv.
  assert (Hp : prop ≠ "__proto__").
  { intros ->. unfold object_set in Hset. by simpl in Hset. }
  destruct (value_get_own _ _ _ _ Hl Hp) as [old Hold].
  unfold pset, set_trap.
  erewrite run_bind; cycle 1.
  { erewrite run_bind; [|by rewrite raw_get_run, Hold].
    erewrite run_bind; [|by apply isArray_run]. rewrite Ha.
    erewrite run_bind; [reflexivity|].
    unfold raw_set. by eapply update_obj_run. }
  by rewrite Hv.
Qed.

(** The array and the element that [set] creates for [name[index]]. *)
Definition created_array (index : string) (el : loc) : obj :=
  {| is_array := true;
     len := match is_index index with
            | Some i => N.max 0 (N.succ i)
            | None => 0%N
            end;
     props := [(index, VRef el)] |}.

Lemma set_keys_creates_the_array l o path first name index rest v s :
  heap s !! l = Some o → is_array o = false →
  arrayMatch first = Some (name, index) → name ≠ "__proto__" →
  (∃ x, value_get (heap s) (VRef l) name = Ok x ∧ truthy x = false) →
  rest ≠ [] → Forall plain_key rest →
  let arr := length (heap s) in
  let el := S arr in
  let label := join_path (join_path path name) index in
  ∃ s', set_keys callback_throws (Proxied l path) (first :: rest) v s = (Ok tt, s')
        ∧ get_keys (Proxied l path) (first :: rest) s'
          = (Ok (createProxy v (foldl join_path label rest)), s')
        ∧ value_get (heap s') (VRef l) name = Ok (VRef arr)
        ∧ heap s' !! arr = Some (created_array index el)
        ∧ target s' = target s.
Proof.
  intros Hl Ha Hm Hname (x & Hx & Hfalsy) Hrest Hkeys arr el label.
  destruct (arrayMatch_index _ _ _ Hm) as [Hi Hd].
  destruct (digits_inherit_nothing index true Hi Hd) as (Hinh & Hlen & Hproto).
  pose proof (lookup_lt_Some _ _ _ Hl) as Hlt.
  set (o1 := {| is_array := false; len := len o;
                props := JsMap.set name (VRef arr) (props o) |}).
  (* the array *)
  set (s1 := set_heap (heap s ++ [empty_array]) s).
  assert (Hl1 : heap s1 !! l = Some o) by by apply lookup_app_l_Some.
  destruct (pset_plain callback_throws l o path name (VRef arr) s1 Hl1 Ha Hname)
    as (s2 & Hset2 & Hh2 & Ht2). fold o1 in Hh2.
  assert (Hl2 : heap s2 !! l = Some o1).
  { rewrite Hh2. apply list_lookup_insert_eq. simpl. rewrite length_app. lia. }
  assert (Harr2 : heap s2 !! arr = Some empty_array).
  { rewrite Hh2, list_lookup_insert_ne by (subst arr; lia). simpl.
    subst arr. by rewrite lookup_app_r, Nat.sub_diag. }
  assert (Hlen2 : length (heap s2) = el).
  { rewrite Hh2, length_insert. simpl. rewrite length_app. simpl. subst el arr. lia. }
  assert (Hname2 : value_get (heap s2) (VRef l) name = Ok (VRef arr)).
  { rewrite Hh2. by apply value_get_set. }
  assert (Hidx2 : value_get (heap s2) (VRef arr) index = Ok VUndefined).
  { simpl. rewrite Harr2. unfold own_get. simpl.
    apply String.eqb_neq in Hlen. by rewrite Hlen. }
  (* the element *)
  set (s3 := set_heap (heap s2 ++ [empty_object]) s2).
  assert (Harr3 : heap s3 !! arr = Some empty_array) by by apply lookup_app_l_Some.
  assert (Hobj : object_set empty_array index (VRef el)
                 = Ok (created_array index el)).
  { unfold object_set, created_array. simpl.
    apply String.eqb_neq in Hlen, Hproto. by rewrite Hlen, Hproto. }
  pose proof (pset_array_ok arr empty_array _ (join_path path name) index
                (VRef el) s3 Harr3 eq_refl Hobj eq_refl) as Hset4.
  set (s4 := set_heap (<[arr := created_array index el]> (heap s3)) s3) in *.
  assert (Hl4 : heap s4 !! l = Some o1).
  { subst s4 s3. simpl. rewrite list_lookup_insert_ne by (subst arr; lia).
    by apply lookup_app_l_Some. }
  assert (Harr4 : heap s4 !! arr = Some (created_array index el)).
  { subst s4 s3. simpl. apply list_lookup_insert_eq. rewrite length_app.
    simpl. subst el. lia. }
  assert (Hel4 : heap s4 !! el = Some empty_object).
  { subst s4 s3. simpl. rewrite list_lookup_insert_ne by (subst el; lia).
    rewrite <- Hlen2. by rewrite lookup_app_r, Nat.sub_diag. }
  assert (Hlen4 : length (heap s4) = S el).
  { subst s4 s3. simpl. rewrite length_insert, length_app. simpl. lia. }
  assert (Hname4 : value_get (heap s4) (VRef l) name = Ok (VRef arr)).
  { rewrite (value_get_ext (heap s2)); [done | by rewrite Hl4, Hl2]. }
  assert (Hidx4 : value_get (heap s4) (VRef arr) index = Ok (VRef el)).
  { unfold value_get. rewrite Harr4. unfold own_get, created_array. simpl.
    apply String.eqb_neq in Hlen. rewrite Hlen. simpl. by rewrite decide_True. }
  (* the rest of the path, in the new element *)
  destruct rest as [|k' rest']; [done|]. clear Hrest.
  destruct (set_keys_then_get_keys callback_throws v (k' :: rest') [l; arr] el
              label s4) as (s' & Hset & Hget & Hfr & _ & Ht); [| done | |].
  { split_and!.
    - by exists empty_object.
    - intros Hin. apply elem_of_cons in Hin as [E|Hin]; [subst el arr; lia|].
      apply elem_of_cons in Hin as [E|Hin]; [subst el; lia|].
      by apply elem_of_nil in Hin.
    - destruct rest' as [|k'' rest'']; [done|].
      unfold value_get. rewrite Hel4. unfold own_get, inherited. simpl.
      by repeat case_match. }
  { rewrite Hlen4. repeat constructor; subst el arr; lia. }
  assert (Hstep : set_keys callback_throws (Proxied l path)
                    (first :: k' :: rest') v s
                  = set_keys callback_throws (Proxied el label) (k' :: rest') v s4).
  { cbn [set_keys]. rewrite Hm.
    assert (Hx' : createProxy x (join_path path name) = Raw x)
      by (by destruct x).
    erewrite run_bind; [|by apply pget_proxied]. rewrite Hx'.
    simpl ptruthy. rewrite Hfalsy.
    erewrite run_bind; cycle 1.
    { erewrite run_bind; [|reflexivity]. exact Hset2. }
    erewrite run_bind; [|by apply pget_proxied].
    erewrite run_bind; [|by apply pget_proxied].
    change (ptruthy (createProxy VUndefined
                       (join_path (join_path path name) index))) with false.
    cbv iota.
    erewrite run_bind; cycle 1.
    { erewrite run_bind; [|by apply pget_proxied].
      erewrite run_bind; [|reflexivity]. rewrite Hlen2. exact Hset4. }
    erewrite run_bind; [|by apply pget_proxied].
    by erewrite run_bind; [|by apply pget_proxied]. }
  assert (Hname' : value_get (heap s') (VRef l) name = Ok (VRef arr)).
  { rewrite (value_get_ext (heap s4)); [done|]. apply Hfr. set_solver. }
  assert (Harr' : heap s' !! arr = Some (created_array index el)).
  { rewrite Hfr by set_solver. done. }
  exists s'. split_and!; [by rewrite Hstep | | done | done |].
  - cbn [get_keys]. unfold get_key. rewrite Hm.
    erewrite run_bind; cycle 1.
    { erewrite run_bind; cycle 1.
      { unfold opt_get. simpl nullish. cbv iota. by apply pget_proxied. }
      unfold opt_get. simpl. apply pget_proxied.
      rewrite (value_get_ext (heap s4)); [done|]. apply Hfr. set_solver. }
    exact Hget.
  - rewrite Ht. exact Ht2.
Qed.
End ArrayAccess.

(** X28.  An array access in the first segment of a path works when [set]
    has to create the array: if the target is a plain object whose
    property [name] reads a falsy value, [set("name[i].k...", v)] creates
    an array under [name], a new empty object as its element [i], goes on
    in that object, and [get] with the same path gives back [v]. *)
Theorem set_creates_the_array
    (callback_throws : ObserverCallback → val → val → option exn)
    (path first name index : string) (rest : list string) (v : val)
    (l : loc) (o : obj) (s : ReactiveProxy) :
  target s = VRef l → heap s !! l = Some o → is_array o = false →
  split_dot path = first :: rest →
  arrayMatch first = Some (name, index) → name ≠ "__proto__" →
  (∃ x, value_get (heap s) (VRef l) name = Ok x ∧ truthy x = false) →
  rest ≠ [] → Forall plain_key rest →
  let arr := length (heap s) in
  ∃ s', set callback_throws path v s = (Ok tt, s')
        ∧ (∃ label, get path s' = (Ok (createProxy v label), s'))
        ∧ (is_object v = false → (get path s').1 = Ok (Raw v))
        ∧ value_get (heap s') (VRef l) name = Ok (VRef arr)
        ∧ heap s' !! arr = Some (created_array index (S arr)).
Proof.
  intros Ht Hl Ha Hsplit Hm Hname Hx Hrest Hkeys arr.
  destruct (set_keys_creates_the_array callback_throws l o "" first name index
              rest v s Hl Ha Hm Hname Hx Hrest Hkeys)
    as (s' & Hset & Hget & Hn & Harr & Ht').
  exists s'.
  assert (Hg : get path s'
               = (Ok (createProxy v
                        (foldl join_path
                           (join_path (join_path "" name) index) rest)), s')).
  { unfold get. erewrite run_bind; [|reflexivity].
    unfold getProxy. rewrite Ht', Ht, Hsplit. exact Hget. }
  split_and!; [| by eexists | | done | done].
  - unfold set. erewrite run_bind; [|reflexivity].
    unfold getProxy. rewrite Ht, Hsplit. exact Hset.
  - intros Hv. rewrite Hg. simpl. by destruct v.
Qed.

Lemma set_creates_the_array_witness :
  target empty_wrapped = VRef 1%nat
  ∧ heap empty_wrapped !! 1%nat = Some empty_object
  ∧ split_dot "items[0].name" = ["items[0]"; "name"]
  ∧ arrayMatch "items[0]" = Some ("items", "0")
  ∧ ∃ s', set never_throws "items[0].name" (VStr "x") empty_wrapped = (Ok tt, s')
          ∧ (get "items[0].name" s').1 = Ok (Raw (VStr "x")).
Proof.
  assert (Hname : "items" ≠ "__proto__") by discriminate.
  assert (Hx : ∃ x, value_get (heap empty_wrapped) (VRef 1%nat) "items" = Ok x
                    ∧ truthy x = false) by (by exists VUndefined).
  assert (Hrest : ["name"] ≠ []) by discriminate.
  assert (Hkeys : Forall plain_key ["name"]) by (repeat constructor; discriminate).
  split_and!; [reflexivity | reflexivity | reflexivity | reflexivity |].
  destruct (set_creates_the_array never_throws "items[0].name" "items[0]"
              "items" "0" ["name"] (VStr "x") 1%nat empty_object empty_wrapped
              eq_refl eq_refl eq_refl eq_refl eq_refl Hname Hx Hrest Hkeys)
    as (s' & A & _ & B & _).
  exists s'. split; [exact A | exact (B eq_refl)].
Defined.

End Proxy.
